(** * Sorting.py: sorting and searching on Python lists

    A shallow embedding of [Code_Python/Sorting.py].  Python lists are
    [list A]; indices are Python integers ([Z]), with the negative-index
    wrap-around and the [IndexError] of [a[i]] written out.  Every
    function that mutates its argument in place is a function from the
    list to the outcome and the new list.  [while] loops and recursion
    take a fuel argument; the theorems give the fuel that is enough. *)

From Stdlib Require Import String QArith Qround Qpower Qabs SpecFloat.
From Stdlib Require Import ZArith List Bool Lia Permutation Sorted.
Import ListNotations.
Local Open Scope Z_scope.

Set Implicit Arguments.

(** ** Outcomes of a Python computation *)

Inductive exn : Set :=
  | IndexError
  | TypeError
  | ValueError
  | ZeroDivisionError
  | OverflowError.

(** [Ok x]: normal completion; [Raise e]: an uncaught exception;
    [OutOfFuel]: the model ran out of fuel (never a Python outcome). *)
Inductive result (X : Type) : Type :=
  | Ok (x : X)
  | Raise (e : exn)
  | OutOfFuel.

Arguments Ok {X} x.
Arguments Raise {X} e.
Arguments OutOfFuel {X}.

Definition bind {X Y : Type} (c : result X) (k : X -> result Y) : result Y :=
  match c with
  | Ok x => k x
  | Raise e => Raise e
  | OutOfFuel => OutOfFuel
  end.

Notation "'do' x <- c ;; k" := (bind c (fun x => k))
  (at level 10, x name, c at level 100, k at level 200).
Notation "'do' ' p <- c ;; k" := (bind c (fun p => k))
  (at level 10, p pattern, c at level 100, k at level 200).

(** ** Rich comparisons of the elements *)

(** The operators [<], [<=], [>], [>=] and [==] of the element type. *)
Class PyOrd (A : Type) : Type := {
  py_lt : A -> A -> bool;
  py_le : A -> A -> bool;
  py_gt : A -> A -> bool;
  py_ge : A -> A -> bool;
  py_eq : A -> A -> bool
}.

(** Comparable elements: [<=] is a total preorder and the other
    operators agree with it. *)
Class PyOrdLaws (A : Type) {Ord : PyOrd A} : Prop := {
  py_le_total : forall x y : A, py_le x y = true \/ py_le y x = true;
  py_le_trans : forall x y z : A,
      py_le x y = true -> py_le y z = true -> py_le x z = true;
  py_lt_le : forall x y : A, py_lt x y = negb (py_le y x);
  py_gt_le : forall x y : A, py_gt x y = negb (py_le x y);
  py_ge_le : forall x y : A, py_ge x y = py_le y x;
  py_eq_le : forall x y : A, py_eq x y = py_le x y && py_le y x
}.

Arguments PyOrdLaws A {Ord}.

(** Python integers. *)
#[export] Instance PyOrd_Z : PyOrd Z := {
  py_lt := Z.ltb;
  py_le := Z.leb;
  py_gt := Z.gtb;
  py_ge := Z.geb;
  py_eq := Z.eqb
}.

(** Python numbers: an [int], or a [float] idealised as an exact
    rational.  [1] and [1.0] compare equal and are different objects. *)
Inductive pynum : Set :=
  | PyInt (z : Z)
  | PyFloat (q : Q).

Definition num_to_Q (n : pynum) : Q :=
  match n with
  | PyInt z => inject_Z z
  | PyFloat q => q
  end.

#[export] Instance PyOrd_pynum : PyOrd pynum := {
  py_lt := fun x y => negb (Qle_bool (num_to_Q y) (num_to_Q x));
  py_le := fun x y => Qle_bool (num_to_Q x) (num_to_Q y);
  py_gt := fun x y => negb (Qle_bool (num_to_Q x) (num_to_Q y));
  py_ge := fun x y => Qle_bool (num_to_Q y) (num_to_Q x);
  py_eq := fun x y => Qeq_bool (num_to_Q x) (num_to_Q y)
}.

(** ** Lists as Python sequences *)

Section Sequence.
Context {A : Type}.

Definition len (a : list A) : Z := Z.of_nat (length a).

(** Position designated by a Python index: [0 .. len-1] as they are,
    [-len .. -1] counted from the end, nothing otherwise. *)
Definition index_of (a : list A) (i : Z) : option nat :=
  if (0 <=? i) && (i <? len a) then Some (Z.to_nat i)
  else if (- len a <=? i) && (i <? 0) then Some (Z.to_nat (len a + i))
  else None.

Fixpoint update (a : list A) (k : nat) (v : A) : list A :=
  match a, k with
  | [], _ => []
  | _ :: a', O => v :: a'
  | x :: a', S k' => x :: update a' k' v
  end.

(** [a[i]] *)
Definition getitem (a : list A) (i : Z) : result A :=
  match index_of a i with
  | Some k =>
      match nth_error a k with
      | Some x => Ok x
      | None => Raise IndexError
      end
  | None => Raise IndexError
  end.

(** [a[i] = v] *)
Definition setitem (a : list A) (i : Z) (v : A) : result (list A) :=
  match index_of a i with
  | Some k => Ok (update a k v)
  | None => Raise IndexError
  end.

(** [a[i], a[j] = a[j], a[i]]: the right-hand side is read first
    ([a[j]], then [a[i]]), then [a[i]] and [a[j]] are stored in turn. *)
Definition swapitems (a : list A) (i j : Z) : result (list A) :=
  do y <- getitem a j ;;
  do x <- getitem a i ;;
  do a1 <- setitem a i y ;;
  setitem a1 j x.

(** Lookup and store at a non-negative index, for stating invariants:
    [item a i] is [Some] of [a[i]] when [0 <= i < len a]. *)
Definition item (a : list A) (i : Z) : option A :=
  if i <? 0 then None else nth_error a (Z.to_nat i).

Definition store (a : list A) (i : Z) (v : A) : list A :=
  update a (Z.to_nat i) v.

(** Bound of a slice, clamped as Python does. *)
Definition slice_bound (a : list A) (m : Z) : nat :=
  Z.to_nat (if m <? 0 then Z.max 0 (len a + m) else Z.min m (len a)).

(** [a[:m]] and [a[m:]]: fresh copies. *)
Definition slice_to (a : list A) (m : Z) : list A :=
  firstn (slice_bound a m) a.

Definition slice_from (a : list A) (m : Z) : list A :=
  skipn (slice_bound a m) a.

(** [seq[ind]] for a list of indices [ind] (numpy's integer-array
    indexing): the items of [seq] at those indices, in order. *)
Fixpoint take (a : list A) (ind : list Z) : result (list A) :=
  match ind with
  | [] => Ok []
  | i :: ind' =>
      do x <- getitem a i ;;
      do r <- take a ind' ;;
      Ok (x :: r)
  end.
End Sequence.

(** ** [range] and loops *)

(** Number of values of [range(start, stop, step)], [step <> 0]. *)
Definition range_len (start stop step : Z) : Z :=
  if 0 <? step then Z.max 0 ((stop - start + step - 1) / step)
  else Z.max 0 ((start - stop - step - 1) / (- step)).

Definition range (start stop step : Z) : list Z :=
  map (fun k => start + step * Z.of_nat k)
      (seq 0 (Z.to_nat (range_len start stop step))).

(** [range] with a step known only at run time. *)
Definition py_range (start stop step : Z) : result (list Z) :=
  if step =? 0 then Raise ValueError else Ok (range start stop step).

(** [x // y] on integers. *)
Definition floordiv (x y : Z) : result Z :=
  if y =? 0 then Raise ZeroDivisionError else Ok (x / y).

(** [int(x)]: truncation toward zero. *)
Definition py_int (x : Q) : Z := Z.quot (Qnum x) (Zpos (Qden x)).

Section Loops.
Context {St : Type}.

(** [for i in idxs: body] *)
Fixpoint for_each (idxs : list Z) (body : Z -> St -> result St) (s : St)
  : result St :=
  match idxs with
  | [] => Ok s
  | i :: idxs' => do s' <- body i s ;; for_each idxs' body s'
  end.

(** [for i in idxs: body], where the body may [break]: it returns
    [(true, s)] to leave the loop. *)
Fixpoint for_break (idxs : list Z) (body : Z -> St -> result (bool * St))
  (s : St) : result St :=
  match idxs with
  | [] => Ok s
  | i :: idxs' =>
      do '(stop, s') <- body i s ;;
      if stop then Ok s' else for_break idxs' body s'
  end.

(** [while cond: body] *)
Fixpoint while (fuel : nat) (cond : St -> result bool)
  (body : St -> result St) (s : St) : result St :=
  match fuel with
  | O => OutOfFuel
  | S fuel' =>
      do b <- cond s ;;
      if b then do s' <- body s ;; while fuel' cond body s' else Ok s
  end.
End Loops.

(** [reverse(a)] *)
Definition reverse {A : Type} (a : list A) : result (list A) :=
  for_each (range 0 (len a / 2) 1) (fun i a => swapitems a i (-1 - i)) a.

(** ** The binary heap used by [heap_sort]

    [BinaryHeap.py] is a module of another repository.  It is taken as
    a parameter: [heap_new a] is [BinaryHeap(a)], which keeps its own
    storage, and [heap_get h] is [h.get()], returning the item taken
    out and the heap left. *)
Class BinaryHeap (A : Type) : Type := {
  heap : Type;
  heap_new : list A -> heap;
  heap_get : heap -> result (A * heap)
}.

(** ** The functions of Sorting.py *)

Section Sorting.
Context {A : Type} {Ord : PyOrd A}.

(** *** partition *)

(** [idx = int(fact * (end - start) + start)], in exact arithmetic:
    what the interpreter computes when [fact] is an [int].  The
    computation with a [float] is [pivot_index64], further down. *)
Definition pivot_index (fact : Q) (start end_ : Z) : Z :=
  py_int (fact * inject_Z (end_ - start) + inject_Z start)%Q.

(** [while (left <= right and a[left] <= pivot): left += 1] *)
Definition move_left_up (fuel : nat) (a : list A) (pivot : A)
  (right_ left_ : Z) : result Z :=
  while fuel
    (fun left_ =>
       if left_ <=? right_
       then do x <- getitem a left_ ;; Ok (py_le x pivot)
       else Ok false)
    (fun left_ => Ok (left_ + 1))
    left_.

(** [while (right >= left and a[right] >= pivot): right -= 1] *)
Definition move_right_down (fuel : nat) (a : list A) (pivot : A)
  (left_ right_ : Z) : result Z :=
  while fuel
    (fun right_ =>
       if right_ >=? left_
       then do x <- getitem a right_ ;; Ok (py_ge x pivot)
       else Ok false)
    (fun right_ => Ok (right_ - 1))
    right_.

(** One turn of the [while (True)] loop; the last component tells
    whether the turn ended in [break]. *)
Definition split_turn (fuel : nat) (start : Z) (pivot : A)
  (s : list A * Z * Z * bool) : result (list A * Z * Z * bool) :=
  let '(a, left_, right_, _) := s in
  do left_ <- move_left_up fuel a pivot right_ left_ ;;
  do right_ <- move_right_down fuel a pivot left_ right_ ;;
  if right_ <? left_
  then do a <- swapitems a start right_ ;; Ok (a, left_, right_, true)
  else do a <- swapitems a left_ right_ ;; Ok (a, left_, right_, false).

(** The [while (True)] loop: the list and the split point [right]. *)
Definition find_split (fuel : nat) (a : list A) (start end_ : Z)
  (pivot : A) : result (list A * Z) :=
  do '(a, _, right_, _) <-
    while fuel (fun s => Ok (negb (snd s))) (split_turn fuel start pivot)
      (a, start + 1, end_, false) ;;
  Ok (a, right_).

(** The statements of [partition] before the scan: the pivot is put
    first. *)
Definition place_pivot (a : list A) (start end_ : Z) (fact : Q)
  : result (list A * A) :=
  let idx := pivot_index fact start end_ in
  do a <- swapitems a start idx ;;
  do pivot <- getitem a start ;;
  Ok (a, pivot).

Fixpoint partition (fuel : nat) (a : list A) (start end_ : Z) (fact : Q)
  : result (list A) :=
  match fuel with
  | O => OutOfFuel
  | S fuel' =>
      if start <? end_ then
        do '(a, pivot) <- place_pivot a start end_ fact ;;
        do '(a, right_) <- find_split fuel a start end_ pivot ;;
        do a <- partition fuel' a start (right_ - 1) fact ;;
        partition fuel' a (right_ + 1) end_ fact
      else Ok a
  end.

(** *** bubble_sort *)

Definition bubble_pass (n_pass : Z) (a : list A) : result (list A) :=
  for_each (range 0 n_pass 1)
    (fun i a =>
       do x <- getitem a i ;;
       do y <- getitem a (i + 1) ;;
       if py_gt x y then swapitems a (i + 1) i else Ok a)
    a.

Definition bubble_sort (a : list A) : result (list A) :=
  for_each (range (len a - 1) 0 (-1)) bubble_pass a.

(** *** short_bubble_sort *)

(** One pass; the result says whether [is_sorted] is still set, that
    is, whether the outer loop breaks. *)
Definition short_bubble_pass (n_pass : Z) (a : list A)
  : result (bool * list A) :=
  do '(a, is_sorted) <-
    for_each (range 0 n_pass 1)
      (fun i s =>
         let '(a, is_sorted) := s in
         do x <- getitem a i ;;
         do y <- getitem a (i + 1) ;;
         if py_gt x y
         then do a <- swapitems a (i + 1) i ;; Ok (a, false)
         else Ok (a, is_sorted))
      (a, true) ;;
  Ok (is_sorted, a).

Definition short_bubble_sort (a : list A) : result (list A) :=
  for_break (range (len a - 1) 0 (-1)) short_bubble_pass a.

(** *** selection_sort *)

Definition selection_pass (n_pass : Z) (a : list A) : result (list A) :=
  do i_max <-
    for_each (range 1 (n_pass + 1) 1)
      (fun i i_max =>
         do x <- getitem a i ;;
         do y <- getitem a i_max ;;
         Ok (if py_gt x y then i else i_max))
      0 ;;
  swapitems a i_max n_pass.

Definition selection_sort (a : list A) : result (list A) :=
  for_each (range (len a - 1) 0 (-1)) selection_pass a.

(** *** insertion_sort *)

(** The body of the [for] loop: the element at [n_pass] is moved down
    by steps of [gap]. *)
Definition insertion_pass (fuel : nat) (gap n_pass : Z) (a : list A)
  : result (list A) :=
  do value <- getitem a n_pass ;;
  do '(a, j) <-
    while fuel
      (fun s =>
         let '(a, j) := s in
         if j >=? gap
         then do x <- getitem a (j - gap) ;; Ok (py_gt x value)
         else Ok false)
      (fun s =>
         let '(a, j) := s in
         do x <- getitem a (j - gap) ;;
         do a <- setitem a j x ;;
         Ok (a, j - gap))
      (a, n_pass) ;;
  setitem a j value.

Definition insertion_sort (fuel : nat) (a : list A) (start gap : Z)
  : result (list A) :=
  do idxs <- py_range (start + gap) (len a) gap ;;
  for_each idxs (insertion_pass fuel gap) a.

(** *** shell_sort *)

(** The loop "Sort the sub-lists". *)
Definition shell_sublists (fuel : nat) (a : list A) (gap n_lists : Z)
  : result (list A) :=
  for_each (range 0 (n_lists + 1) 1)
    (fun i a =>
       let start := n_lists * i in
       insertion_sort fuel a start gap)
    a.

Definition shell_sort (fuel : nat) (a : list A) (gap : Z)
  : result (list A) :=
  do n_lists <- floordiv (len a) gap ;;
  do a <- shell_sublists fuel a gap n_lists ;;
  insertion_sort fuel a 0 1.

(** *** heap_sort *)

Definition heap_sort {H : BinaryHeap A} (a : list A) : result (list A) :=
  do '(a, _) <-
    for_each (range 0 (len a) 1)
      (fun i s =>
         let '(a, h) := s in
         do '(x, h) <- heap_get h ;;
         do a <- setitem a i x ;;
         Ok (a, h))
      (a, heap_new a) ;;
  Ok a.

(** *** quick_sort *)

Definition quick_sort (fuel : nat) (a : list A) (fact : Q)
  : result (list A) :=
  partition fuel a 0 (len a - 1) fact.

(** *** merge_sort *)

(** The cursors of the merge: the list [a] being filled and [i], [j],
    [k]. *)
Definition merge_state : Type := (list A * Z * Z * Z)%type.

(** Body of the loop "Compare elements between left and right side". *)
Definition merge_step (left right : list A) (s : merge_state)
  : result merge_state :=
  let '(a, i, j, k) := s in
  do x <- getitem left i ;;
  do y <- getitem right j ;;
  if py_lt x y
  then do a <- setitem a k x ;; Ok (a, i + 1, j, k + 1)
  else do a <- setitem a k y ;; Ok (a, i, j + 1, k + 1).

Definition merge_compare (fuel : nat) (left right : list A)
  (s : merge_state) : result merge_state :=
  while fuel
    (fun s =>
       let '(_, i, j, _) := s in
       Ok ((i <? len left) && (j <? len right)))
    (merge_step left right)
    s.

(** "Complete the left side". *)
Definition merge_left (fuel : nat) (left : list A) (s : merge_state)
  : result merge_state :=
  while fuel
    (fun s => let '(_, i, _, _) := s in Ok (i <? len left))
    (fun s =>
       let '(a, i, j, k) := s in
       do x <- getitem left i ;;
       do a <- setitem a k x ;;
       Ok (a, i + 1, j, k + 1))
    s.

(** "Complete the right side". *)
Definition merge_right (fuel : nat) (right : list A) (s : merge_state)
  : result merge_state :=
  while fuel
    (fun s => let '(_, _, j, _) := s in Ok (j <? len right))
    (fun s =>
       let '(a, i, j, k) := s in
       do y <- getitem right j ;;
       do a <- setitem a k y ;;
       Ok (a, i, j + 1, k + 1))
    s.

(** "Merge the lists": the three loops, from [i = j = k = 0]. *)
Definition merge (fuel : nat) (left right a : list A) : result (list A) :=
  do s <- merge_compare fuel left right (a, 0, 0, 0) ;;
  do s <- merge_left fuel left s ;;
  do '(a, _, _, _) <- merge_right fuel right s ;;
  Ok a.

Fixpoint merge_sort (fuel : nat) (a : list A) : result (list A) :=
  match fuel with
  | O => OutOfFuel
  | S fuel' =>
      if len a >? 1 then
        let m := len a / 2 in
        do left <- merge_sort fuel' (slice_to a m) ;;
        do right <- merge_sort fuel' (slice_from a m) ;;
        merge fuel left right a
      else Ok a
  end.

(** *** binary_search *)

(** The [while (start <= end)] loop; [None] is Python's [None]. *)
Fixpoint binary_search_from (fuel : nat) (a : list A) (value : A)
  (start end_ : Z) : result (option Z) :=
  match fuel with
  | O => OutOfFuel
  | S fuel' =>
      if start <=? end_ then
        let i := (start + end_) / 2 in
        do x <- getitem a i ;;
        if py_eq x value then Ok (Some i)
        else
          do y <- getitem a i ;;
          if py_gt y value
          then binary_search_from fuel' a value start (i - 1)
          else binary_search_from fuel' a value (i + 1) end_
      else Ok None
  end.

Definition binary_search (fuel : nat) (a : list A) (value : A)
  : result (option Z) :=
  binary_search_from fuel a value 0 (len a - 1).

(** *** sequential_search *)

Fixpoint sequential_search_in (idxs : list Z) (a : list A) (value : A)
  : result (option Z) :=
  match idxs with
  | [] => Ok None
  | i :: idxs' =>
      do x <- getitem a i ;;
      if py_eq x value then Ok (Some i)
      else sequential_search_in idxs' a value
  end.

Definition sequential_search (a : list A) (value : A) : result (option Z) :=
  sequential_search_in (range 0 (len a) 1) a value.

(** *** build_index *)

(** [np.zeros(n, dtype=int)] *)
Definition np_zeros (n : Z) : list Z := repeat 0 (Z.to_nat n).

(** [idx[i] = v] on an array of integers: [None] is not an integer,
    and numpy raises [TypeError]. *)
Definition np_setitem (idx : list Z) (i : Z) (v : option Z)
  : result (list Z) :=
  match v with
  | Some z => setitem idx i z
  | None => Raise TypeError
  end.

(** The loop "sorted[index] --> original". *)
Definition search_all (a_sorted a_original : list A) : result (list Z) :=
  let n := len a_sorted in
  for_each (range 0 n 1)
    (fun i idx =>
       do x <- getitem a_original i ;;
       do r <- sequential_search a_sorted x ;;
       np_setitem idx i r)
    (np_zeros n).

Definition build_index (a_sorted a_original : list A) : result (list Z) :=
  do idx <- search_all a_sorted a_original ;;
  take idx idx.

(** *** sort *)

(** The block "Sort (in place) the list".  [param] is [None] or a
    number.  [shell_sort] divides [len(a)] by the gap and gives the
    quotient to [range]: a [float] gap raises [ZeroDivisionError] when
    it is zero and [TypeError] otherwise. *)
Definition sort_in_place {H : BinaryHeap A} (fuel : nat) (a : list A)
  (method : string) (param : option pynum) : result (list A) :=
  if (method =? "bubble")%string then bubble_sort a
  else if (method =? "short_bubble")%string then short_bubble_sort a
  else if (method =? "selection")%string then selection_sort a
  else if (method =? "insertion")%string then insertion_sort fuel a 0 1
  else if (method =? "shell")%string then
    match param with
    | None => shell_sort fuel a 1
    | Some (PyInt gap) => shell_sort fuel a gap
    | Some (PyFloat gap) =>
        Raise (if Qeq_bool gap 0 then ZeroDivisionError else TypeError)
    end
  else if (method =? "quick")%string then
    let fact := match param with None => 0%Q | Some p => num_to_Q p end in
    quick_sort fuel a fact
  else if (method =? "heap")%string then heap_sort a
  else merge_sort fuel a.

Definition sort {H : BinaryHeap A} (fuel : nat) (data : list A)
  (method : string) (descending : bool) (param : option pynum)
  : result (list A * list Z) :=
  let a := data in
  do a <- sort_in_place fuel a method param ;;
  do idx <- build_index a data ;;
  if descending then
    do a <- reverse a ;;
    do idx <- reverse idx ;;
    Ok (a, idx)
  else Ok (a, idx).

End Sorting.

(** ** The words of the specification *)

Section SpecificationWords.
Context {A : Type} {Ord : PyOrd A}.

(** A non-decreasing ordering: every element is [<=] all later ones. *)
Definition non_decreasing (a : list A) : Prop :=
  StronglySorted (fun x y => py_le x y = true) a.

(** A non-increasing ordering: every element is [>=] all later ones. *)
Definition non_increasing (a : list A) : Prop :=
  StronglySorted (fun x y => py_ge x y = true) a.

(** [r] is the first index of [a] whose element equals [value], or
    the absent marker when no element equals [value]. *)
Definition first_index_of (a : list A) (value : A) (r : option Z) : Prop :=
  match r with
  | Some i =>
      (exists x, item a i = Some x /\ py_eq x value = true) /\
      (forall j y, 0 <= j < i -> item a j = Some y -> py_eq y value = false)
  | None => forall y, In y a -> py_eq y value = false
  end.

(** [r] is an index of [a] whose element equals [value], or the
    absent marker when no element equals [value]. *)
Definition some_index_of (a : list A) (value : A) (r : option Z) : Prop :=
  match r with
  | Some i => exists x, item a i = Some x /\ py_eq x value = true
  | None => forall y, In y a -> py_eq y value = false
  end.

(** The interleaved sub-sequence of [a] made of the items whose index
    is [r] modulo [gap] is in non-decreasing order. *)
Definition residue_class_sorted (a : list A) (gap r : Z) : Prop :=
  forall p q x y,
    0 <= p -> p < q -> p mod gap = r -> q mod gap = r ->
    item a p = Some x -> item a q = Some y -> py_le x y = true.

(** The merge step copies the left front and advances the left
    cursor. *)
Definition left_copied_first (left right a : list A) (i j k : Z) : Prop :=
  exists x,
    getitem left i = Ok x /\
    merge_step left right (a, i, j, k) = Ok (store a k x, i + 1, j, k + 1).

End SpecificationWords.

(** [round(x)]: the nearest integer, a tie going to the even one. *)
Definition py_round (x : Q) : Z :=
  let f := Qfloor x in
  match Qcompare (x - inject_Z f) (1 # 2) with
  | Lt => f
  | Gt => f + 1
  | Eq => if Z.even f then f else f + 1
  end.


(** The parameter suits the method: a positive integer gap for
    shell sort, a pivot factor between 0 and 1 for quick sort. *)
Definition param_ok (method : string) (param : option pynum) : Prop :=
  if (method =? "shell")%string then
    match param with
    | None => True
    | Some (PyInt gap) => 0 < gap
    | Some (PyFloat _) => False
    end
  else if (method =? "quick")%string then
    match param with
    | None => True
    | Some p => (0 <= num_to_Q p)%Q /\ (num_to_Q p <= 1)%Q
    end
  else True.

(** ** The contract of the binary heap *)

Section HeapContract.
Context {A : Type} {Ord : PyOrd A}.

(** [h.get()] called [n] times: the items taken out, in order. *)
Fixpoint heap_drain {H : BinaryHeap A} (n : nat) (h : heap)
  : result (list A) :=
  match n with
  | O => Ok []
  | S n' =>
      do '(x, h') <- heap_get h ;;
      do r <- heap_drain n' h' ;;
      Ok (x :: r)
  end.

(** What [heap_sort] relies on, as the examples of the module show it
    (heap sort of a list of letters gives them in alphabetical order):
    taking out as many items as the heap was built from gives all of
    them, the smallest first. *)
Class BinaryHeapLaws {H : BinaryHeap A} : Prop := {
  heap_drain_sorted :
    forall a : list A,
      exists l,
        heap_drain (length a) (heap_new a) = Ok l /\
        Permutation a l /\ non_decreasing l
}.

(** A heap kept as a list and searched linearly, standing for
    [BinaryHeap.py] in examples: [take_min x l] is a smallest item of
    [x :: l] and the others. *)
Fixpoint take_min (x : A) (l : list A) : A * list A :=
  match l with
  | [] => (x, [])
  | y :: l' =>
      if py_le x y
      then let '(m, r) := take_min x l' in (m, y :: r)
      else let '(m, r) := take_min y l' in (m, x :: r)
  end.

Definition ListHeap : BinaryHeap A := {|
  heap := list A;
  heap_new := fun a => a;
  heap_get := fun h =>
    match h with
    | [] => Raise IndexError
    | x :: l => Ok (take_min x l)
    end
|}.

End HeapContract.

Arguments BinaryHeapLaws A {Ord H}.

(** ** The merge, as a list function *)

Section Merged.
Context {A : Type} {Ord : PyOrd A}.

(** The list that the three loops of [merge_sort] write: the fronts
    are compared with [<], so the right front is taken unless the left
    one is smaller; what is left of either side follows. *)
Fixpoint merged (left right : list A) : list A :=
  match left with
  | [] => right
  | x :: left' =>
      (fix merged_right (right : list A) : list A :=
         match right with
         | [] => left
         | y :: right' =>
             if py_lt x y then x :: merged left' right
             else y :: merged_right right'
         end) right
  end.

End Merged.

(** ** Invariants of the loops *)

Section Invariants.
Context {A : Type} {Ord : PyOrd A}.

(** [reverse]: the items already exchanged after [k] turns. *)
Definition reversed_up_to (a : list A) (k : Z) (b : list A) : Prop :=
  len b = len a /\
  forall p, 0 <= p ->
    item b p =
    if (p <? k) || (len a - k <=? p) then item a (len a - 1 - p)
    else item a p.

(** [bubble_sort]: the test at index [i] finds nothing to swap. *)
Definition no_swap_at (a : list A) (i : Z) : Prop :=
  exists x y,
    getitem a i = Ok x /\ getitem a (i + 1) = Ok y /\ py_gt x y = false.

(** *** Sorters that grow a sorted part *)

(** The items from index [n] on are in non-decreasing order. *)
Definition sorted_from (a : list A) (n : Z) : Prop :=
  forall p q x y,
    n <= p -> p < q -> item a p = Some x -> item a q = Some y ->
    py_le x y = true.

(** Every item before index [n] is [<=] every item from [n] on. *)
Definition split_at (a : list A) (n : Z) : Prop :=
  forall p q x y,
    0 <= p < n -> n <= q -> item a p = Some x -> item a q = Some y ->
    py_le x y = true.

(** The item at index [i] is a greatest item of [a[0..i]]. *)
Definition max_at (a : list A) (i : Z) : Prop :=
  forall p x m,
    0 <= p <= i -> item a p = Some x -> item a i = Some m ->
    py_le x m = true.

(** The item at index [im] is a greatest item of [a[0..i)]. *)
Definition greatest_of (a : list A) (i im : Z) : Prop :=
  forall p x m,
    0 <= p < i -> item a p = Some x -> item a im = Some m ->
    py_le x m = true.

(** The items before index [k] are in non-decreasing order. *)
Definition sorted_upto (a : list A) (k : Z) : Prop :=
  forall p q x y,
    0 <= p -> p < q -> q < k -> item a p = Some x -> item a q = Some y ->
    py_le x y = true.

(** State of a sorter with the boundary at [n]: a rearrangement of
    the input [a0] whose items after [n] are sorted and in place. *)
Definition suffix_sorted (a0 : list A) (n : Z) (a : list A) : Prop :=
  len a = len a0 /\ Permutation a0 a /\
  sorted_from a (n + 1) /\ split_at a (n + 1).

(** [insertion_sort] with gap 1, while the value taken at [k] is moved
    down and the hole is at [j]: the items of [a[0..k]] other than the
    hole are in order, and those after the hole are [>=] the value. *)
Definition shifted (b : list A) (j k : Z) (value : A) : Prop :=
  (forall p q x y,
     0 <= p -> p < q -> q <= k -> p <> j -> q <> j ->
     item b p = Some x -> item b q = Some y -> py_le x y = true) /\
  (forall q y,
     j < q -> q <= k -> item b q = Some y -> py_le value y = true).

(** *** The merge *)

(** State of the loop that compares the fronts. *)
Definition merging (left right : list A) (n : Z) (s : merge_state)
  : Prop :=
  let '(b, i, j, k) := s in
  len b = n /\ 0 <= i <= len left /\ 0 <= j <= len right /\ k = i + j /\
  firstn (Z.to_nat k) b
    ++ merged (skipn (Z.to_nat i) left) (skipn (Z.to_nat j) right)
  = merged left right.

(** State of the loops that complete a side. *)
Definition completing (left right : list A) (n : Z) (s : merge_state)
  : Prop :=
  let '(b, i, j, k) := s in
  len b = n /\ 0 <= i <= len left /\ 0 <= j <= len right /\ k = i + j /\
  firstn (Z.to_nat k) b
    ++ skipn (Z.to_nat i) left ++ skipn (Z.to_nat j) right
  = merged left right.

(** *** partition *)

(** Every item of [a[s..e]] satisfies [P]. *)
Definition range_all (P : A -> Prop) (a : list A) (s e : Z) : Prop :=
  forall p x, s <= p <= e -> item a p = Some x -> P x.

(** [b] is [a] with the items of [a[s..e]] rearranged among
    themselves. *)
Definition rearranged (a b : list A) (s e : Z) : Prop :=
  len b = len a /\
  Permutation a b /\
  (forall p, p < s \/ e < p -> item b p = item a p) /\
  (forall P : A -> Prop, range_all P a s e -> range_all P b s e).

(** The items of [a[s..e]] are in non-decreasing order. *)
Definition sorted_between (a : list A) (s e : Z) : Prop :=
  forall p q x y,
    s <= p -> p < q -> q <= e -> item a p = Some x -> item a q = Some y ->
    py_le x y = true.

(** [a[s..e]] is split around the pivot, which is at index [r]. *)
Definition split_around (a : list A) (s e r : Z) (pivot : A) : Prop :=
  s <= r <= e /\
  item a r = Some pivot /\
  range_all (fun x => py_le x pivot = true) a s (r - 1) /\
  range_all (fun x => py_le pivot x = true) a (r + 1) e.

(** State of the [while (True)] loop of [partition]. *)
Definition splitting (a1 : list A) (start end_ : Z) (pivot : A)
  (s : list A * Z * Z * bool) : Prop :=
  let '(b, left_, right_, crossed) := s in
  rearranged a1 b start end_ /\
  if crossed then split_around b start end_ right_ pivot
  else
    item b start = Some pivot /\
    start < left_ /\ left_ <= right_ /\ right_ <= end_ /\
    range_all (fun x => py_le x pivot = true) b (start + 1) (left_ - 1) /\
    range_all (fun x => py_le pivot x = true) b (right_ + 1) end_.

(** Turns that the [while (True)] loop can still make. *)
Definition turns_left (pivot : A) (s : list A * Z * Z * bool) : nat :=
  let '(b, left_, right_, crossed) := s in
  if crossed then O
  else
    (Z.to_nat (right_ - left_ + 1)
     + match item b left_ with
       | Some x => if py_le x pivot then 0 else 1
       | None => 0
       end)%nat.

End Invariants.

(** *** insertion_sort with a gap *)

Section GapInvariants.
Context {A : Type} {Ord : PyOrd A}.

(** Index of the [u]-th item of the sub-sequence that starts at
    [start] and advances by [gap]. *)
Definition class_pos (start gap u : Z) : Z := start + gap * u.

(** The first [m] items of that sub-sequence are in order. *)
Definition class_sorted_upto (a : list A) (start gap m : Z) : Prop :=
  forall u v x y,
    0 <= u -> u < v -> v < m ->
    item a (class_pos start gap u) = Some x ->
    item a (class_pos start gap v) = Some y ->
    py_le x y = true.

(** While the value taken at the [k]-th item is moved down and the
    hole is at the [h]-th item: the other items of the sub-sequence,
    up to the [k]-th, are in order, and those after the hole are
    [>=] the value. *)
Definition class_shifted (b : list A) (start gap h k : Z) (value : A)
  : Prop :=
  (forall u v x y,
     0 <= u -> u < v -> v <= k -> u <> h -> v <> h ->
     item b (class_pos start gap u) = Some x ->
     item b (class_pos start gap v) = Some y ->
     py_le x y = true) /\
  (forall v y,
     h < v -> v <= k -> item b (class_pos start gap v) = Some y ->
     py_le value y = true).

(** The items outside the sub-sequence are those of [a]. *)
Definition class_frame (a b : list A) (start gap : Z) : Prop :=
  forall p, p mod gap <> start -> item b p = item a p.

End GapInvariants.

(** No two elements of [a], at different indices, are equal. *)
Definition pairwise_distinct {A : Type} {Ord : PyOrd A} (a : list A)
  : Prop :=
  forall i j x y,
    i <> j -> item a i = Some x -> item a j = Some y -> py_eq x y = false.

(** ** The pivot of partition in floating point *)

(** [pivot_index] above reads [fact * (end - start) + start] as exact
    arithmetic, which is what the interpreter does when [fact] is an
    [int].  When [fact] is a [float] the interpreter converts the
    two integers to floats and computes in binary64: the conversion,
    the product and the sum each return the exact result rounded to
    the nearest float, and [int()] truncates what is left.  The
    definitions below follow the interpreter; [PyFloat q] is the float
    whose value is [q].  [partition64] and [quick_sort64] are
    [partition] and [quick_sort] with this pivot index; the theorems
    on sorting use of the index only that it lies between [start] and
    [end], which holds for both on lists of at most [2^53] items. *)

(** [floor(log2(x))] for [x > 0]: with [x = n / d], it is
    [log2(n) - log2(d)] or one less. *)
Definition Qlog2 (x : Q) : Z :=
  let k := Z.log2 (Qnum x) - Z.log2 (Zpos (Qden x)) in
  if Qle_bool (2 ^ k) x then k else k - 1.

(** The exponent [e] of the floats [m * 2^e] next to [x]: [m] has 53
    bits, and [e] is never below -1074. *)
Definition binary64_exponent (x : Q) : Z :=
  Z.max (Qlog2 (Qabs x) - 52) (-1074).

(** [x] rounded to the nearest [m * 2^e], a tie going to the even
    [m]. *)
Definition binary64_round (x : Q) : Q :=
  if Qeq_bool x 0 then 0%Q
  else
    let e := binary64_exponent x in
    (inject_Z (py_round (x / 2 ^ e)) * 2 ^ e)%Q.

(** What an operation on floats returns: a finite float or, past the
    largest one, an infinity (its sign is never looked at). *)
Inductive float64 : Set :=
  | Finite (q : Q)
  | Infinite.

(** The float for the exact result [x]. *)
Definition binary64 (x : Q) : float64 :=
  let y := binary64_round x in
  if Qle_bool (2 ^ 1024) (Qabs y) then Infinite else Finite y.

(** The conversion of an [int] operand: "int too large to convert to
    float" is an [OverflowError]. *)
Definition float_of_int (n : Z) : result Q :=
  match binary64 (inject_Z n) with
  | Finite q => Ok q
  | Infinite => Raise OverflowError
  end.

(** [x * y] on finite floats. *)
Definition float_mul (x y : Q) : float64 := binary64 (x * y).

(** [x + y] with [y] finite. *)
Definition float_add (x : float64) (y : Q) : float64 :=
  match x with
  | Finite p => binary64 (p + y)
  | Infinite => Infinite
  end.

(** [int(x)] on a float: truncation toward zero, and [OverflowError]
    for an infinity. *)
Definition int_of_float (x : float64) : result Z :=
  match x with
  | Finite q => Ok (py_int q)
  | Infinite => Raise OverflowError
  end.

(** [idx = int(fact * (end - start) + start)] *)
Definition pivot_index64 (fact : pynum) (start end_ : Z) : result Z :=
  match fact with
  | PyInt k => Ok (k * (end_ - start) + start)
  | PyFloat f =>
      do n <- float_of_int (end_ - start) ;;
      let p := float_mul f n in
      do s <- float_of_int start ;;
      int_of_float (float_add p s)
  end.

Section Sorting64.
Context {A : Type} {Ord : PyOrd A}.

(** The statements of [partition] before the scan. *)
Definition place_pivot64 (a : list A) (start end_ : Z) (fact : pynum)
  : result (list A * A) :=
  do idx <- pivot_index64 fact start end_ ;;
  do a <- swapitems a start idx ;;
  do pivot <- getitem a start ;;
  Ok (a, pivot).

Fixpoint partition64 (fuel : nat) (a : list A) (start end_ : Z)
  (fact : pynum) : result (list A) :=
  match fuel with
  | O => OutOfFuel
  | S fuel' =>
      if start <? end_ then
        do '(a, pivot) <- place_pivot64 a start end_ fact ;;
        do '(a, right_) <- find_split fuel a start end_ pivot ;;
        do a <- partition64 fuel' a start (right_ - 1) fact ;;
        partition64 fuel' a (right_ + 1) end_ fact
      else Ok a
  end.

Definition quick_sort64 (fuel : nat) (a : list A) (fact : pynum)
  : result (list A) :=
  partition64 fuel a 0 (len a - 1) fact.

End Sorting64.

(** The value of a float of the Standard Library's specification of
    IEEE 754 arithmetic ([None] for a NaN), the float [m * 2^e] and
    the conversion of an [int] there. *)
Definition SF_value (x : spec_float) : option float64 :=
  match x with
  | S754_zero _ => Some (Finite 0)
  | S754_finite s m e =>
      Some (Finite ((if s then - inject_Z (Zpos m) else inject_Z (Zpos m))
                    * 2 ^ e))
  | S754_infinity _ => Some Infinite
  | S754_nan => None
  end.

Definition SF_of (m e : Z) : spec_float :=
  binary_normalize 53 1024 m e false.

(** Two outcomes are the same float. *)
Definition same_float (x : float64) (y : option float64) : bool :=
  match x, y with
  | Finite p, Some (Finite q) => Qeq_bool p q
  | Infinite, Some Infinite => true
  | _, _ => false
  end.

(** * Properties *)

Unset Implicit Arguments.

(** ** Sequences *)

Section SequenceFacts.
Context {A : Type}.
Implicit Types (a : list A) (i j : Z) (v x y : A).

Lemma len_nonneg a : 0 <= len a.
Proof. unfold len. lia. Qed.

Lemma length_update a k v : length (update a k v) = length a.
Proof.
  revert k. induction a as [|x a IH]; intros [|k]; simpl; auto.
Qed.

Lemma len_store a i v : len (store a i v) = len a.
Proof. unfold len, store. now rewrite length_update. Qed.

Lemma nth_error_update a k v n :
  nth_error (update a k v) n =
  if Nat.eqb k n then (if Nat.ltb n (length a) then Some v else None)
  else nth_error a n.
Proof.
  revert k n. induction a as [|x a IH]; intros k n.
  - destruct k, n; simpl; try reflexivity.
    destruct (Nat.eqb k n); reflexivity.
  - destruct k as [|k], n as [|n]; simpl; try reflexivity.
    + rewrite IH. destruct (Nat.eqb k n); reflexivity.
Qed.

Lemma item_range a i : (exists x, item a i = Some x) <-> 0 <= i < len a.
Proof.
  unfold item, len. destruct (Z.ltb_spec i 0) as [Hi|Hi].
  - split; [intros [x Hx]; discriminate | lia].
  - split.
    + intros [x Hx].
      assert (Hlt : (Z.to_nat i < length a)%nat)
        by (apply nth_error_Some; congruence).
      lia.
    + intros [_ Hlt].
      destruct (nth_error a (Z.to_nat i)) eqn:E; eauto.
      apply nth_error_None in E. lia.
Qed.

Lemma item_Some_range a i x : item a i = Some x -> 0 <= i < len a.
Proof. intros H. apply item_range. eauto. Qed.

Lemma item_In a i x : item a i = Some x -> In x a.
Proof.
  unfold item. destruct (i <? 0); [discriminate|]. apply nth_error_In.
Qed.

Lemma In_item a x : In x a -> exists i, item a i = Some x.
Proof.
  intros H. apply In_nth_error in H as [n Hn].
  exists (Z.of_nat n). unfold item.
  destruct (Z.ltb_spec (Z.of_nat n) 0); [lia|].
  now rewrite Nat2Z.id.
Qed.

Lemma item_store a i j v :
  0 <= i -> 0 <= j ->
  item (store a i v) j =
  if i =? j then (if j <? len a then Some v else None) else item a j.
Proof.
  intros Hi Hj. unfold item, store, len.
  destruct (Z.ltb_spec j 0); [lia|].
  rewrite nth_error_update.
  destruct (Z.eqb_spec i j) as [->|Hne].
  - rewrite Nat.eqb_refl.
    destruct (Nat.ltb_spec (Z.to_nat j) (length a)),
      (Z.ltb_spec j (Z.of_nat (length a))); try reflexivity; lia.
  - destruct (Nat.eqb_spec (Z.to_nat i) (Z.to_nat j)); [lia|reflexivity].
Qed.

Lemma item_store_same a i v :
  0 <= i < len a -> item (store a i v) i = Some v.
Proof.
  intros H. rewrite item_store by lia. rewrite Z.eqb_refl.
  destruct (Z.ltb_spec i (len a)); [reflexivity|lia].
Qed.

Lemma item_store_other a i j v :
  0 <= i -> 0 <= j -> i <> j -> item (store a i v) j = item a j.
Proof.
  intros Hi Hj Hne. rewrite item_store by lia.
  destruct (Z.eqb_spec i j); [contradiction|reflexivity].
Qed.

Lemma item_ext a b :
  (forall i, 0 <= i -> item a i = item b i) -> a = b.
Proof.
  intros H. apply nth_error_ext. intros n.
  specialize (H (Z.of_nat n) (Zle_0_nat n)). unfold item in H.
  destruct (Z.ltb_spec (Z.of_nat n) 0); [lia|].
  now rewrite Nat2Z.id in H.
Qed.

Lemma store_same a i x : item a i = Some x -> store a i x = a.
Proof.
  intros H. apply item_ext. intros j Hj.
  pose proof (item_Some_range _ _ _ H).
  rewrite item_store by lia.
  destruct (Z.eqb_spec i j) as [->|]; [|reflexivity].
  destruct (Z.ltb_spec j (len a)); [congruence|lia].
Qed.

Lemma store_store a i v w :
  0 <= i -> store (store a i v) i w = store a i w.
Proof.
  intros Hi. apply item_ext. intros j Hj.
  rewrite !item_store, len_store by lia.
  destruct (i =? j); reflexivity.
Qed.

Lemma index_of_nonneg a i :
  0 <= i < len a -> index_of a i = Some (Z.to_nat i).
Proof.
  intros H. unfold index_of.
  destruct (Z.leb_spec 0 i), (Z.ltb_spec i (len a)); simpl; auto; lia.
Qed.

Lemma index_of_neg a i :
  - len a <= i < 0 -> index_of a i = index_of a (len a + i).
Proof.
  intros H. unfold index_of.
  destruct (Z.leb_spec 0 i); [lia|]. simpl.
  destruct (Z.leb_spec (- len a) i), (Z.ltb_spec i 0); try lia. simpl.
  destruct (Z.leb_spec 0 (len a + i)), (Z.ltb_spec (len a + i) (len a));
    simpl; auto; lia.
Qed.

Lemma index_of_out a i :
  i < - len a \/ len a <= i -> index_of a i = None.
Proof.
  intros H. unfold index_of. pose proof (len_nonneg a).
  destruct (Z.leb_spec 0 i), (Z.ltb_spec i (len a)),
    (Z.leb_spec (- len a) i), (Z.ltb_spec i 0); simpl; auto; lia.
Qed.

(** [a[i]] at a non-negative index. *)
Lemma getitem_item a i :
  0 <= i ->
  getitem a i =
  match item a i with Some x => Ok x | None => Raise IndexError end.
Proof.
  intros Hi. unfold getitem, item.
  destruct (Z.ltb_spec i 0); [lia|].
  destruct (Z.ltb_spec i (len a)).
  - rewrite index_of_nonneg by lia. reflexivity.
  - rewrite index_of_out by lia.
    destruct (nth_error a (Z.to_nat i)) eqn:E; [|reflexivity].
    assert ((Z.to_nat i < length a)%nat)
      by (apply nth_error_Some; congruence).
    unfold len in *. lia.
Qed.

Lemma getitem_Some a i x : item a i = Some x -> getitem a i = Ok x.
Proof.
  intros H. pose proof (item_Some_range _ _ _ H).
  rewrite getitem_item by lia. now rewrite H.
Qed.

Lemma getitem_Ok_item a i x :
  0 <= i -> getitem a i = Ok x -> item a i = Some x.
Proof.
  intros Hi. rewrite getitem_item by lia.
  destruct (item a i); congruence.
Qed.

(** [a[i]] at a negative index counts from the end. *)
Lemma getitem_neg a i :
  - len a <= i < 0 -> getitem a i = getitem a (len a + i).
Proof.
  intros H. unfold getitem. now rewrite index_of_neg.
Qed.

Lemma getitem_In a i x : getitem a i = Ok x -> In x a.
Proof.
  unfold getitem. destruct (index_of a i); [|discriminate].
  destruct (nth_error a n) eqn:E; [|discriminate].
  intros [= <-]. eapply nth_error_In; eauto.
Qed.

Lemma setitem_store a i v :
  0 <= i < len a -> setitem a i v = Ok (store a i v).
Proof.
  intros H. unfold setitem, store. now rewrite index_of_nonneg.
Qed.

Lemma setitem_neg a i v :
  - len a <= i < 0 -> setitem a i v = setitem a (len a + i) v.
Proof.
  intros H. unfold setitem. now rewrite index_of_neg.
Qed.

(** The exchange of two items in range. *)
Lemma swapitems_store a i j x y :
  item a i = Some x -> item a j = Some y ->
  swapitems a i j = Ok (store (store a i y) j x).
Proof.
  intros Hx Hy.
  pose proof (item_Some_range _ _ _ Hx). pose proof (item_Some_range _ _ _ Hy).
  unfold swapitems.
  rewrite (getitem_Some _ _ _ Hy), (getitem_Some _ _ _ Hx). simpl.
  rewrite setitem_store by lia. simpl.
  rewrite setitem_store by (rewrite len_store; lia). reflexivity.
Qed.

End SequenceFacts.

(** ** [range] *)

Lemma range_nil start stop step :
  0 < step -> stop <= start -> range start stop step = [].
Proof.
  intros Hs Hle. unfold range, range_len.
  destruct (Z.ltb_spec 0 step); [|lia].
  assert (H0 : (stop - start + step - 1) / step <= 0).
  { assert ((stop - start + step - 1) / step < 1); [|lia].
    apply Z.div_lt_upper_bound; lia. }
  replace (Z.to_nat (Z.max 0 ((stop - start + step - 1) / step))) with O
    by lia.
  reflexivity.
Qed.

Lemma range_cons start stop step :
  0 < step -> start < stop ->
  range start stop step = start :: range (start + step) stop step.
Proof.
  intros Hs Hlt. unfold range, range_len.
  destruct (Z.ltb_spec 0 step); [|lia].
  replace (stop - start + step - 1) with ((stop - start - 1) + 1 * step)
    by lia.
  rewrite Z.div_add by lia.
  replace (stop - (start + step) + step - 1) with (stop - start - 1) by lia.
  assert (H0 : 0 <= (stop - start - 1) / step)
    by (apply Z.div_pos; lia).
  replace (Z.to_nat (Z.max 0 ((stop - start - 1) / step + 1)))
    with (S (Z.to_nat (Z.max 0 ((stop - start - 1) / step)))) by lia.
  cbn [seq map]. f_equal; [lia|].
  rewrite <- seq_shift, map_map.
  apply map_ext. intros k. lia.
Qed.

Lemma range_len_down m : range_len m 0 (-1) = Z.max 0 m.
Proof.
  unfold range_len. change (0 <? -1) with false. cbv iota.
  change (- -1) with 1. rewrite Z.div_1_r. lia.
Qed.

Lemma range_down_nil m : m <= 0 -> range m 0 (-1) = [].
Proof.
  intros Hm. unfold range. rewrite range_len_down.
  replace (Z.to_nat (Z.max 0 m)) with O by lia. reflexivity.
Qed.

Lemma range_down_cons m :
  0 < m -> range m 0 (-1) = m :: range (m - 1) 0 (-1).
Proof.
  intros Hm. unfold range. rewrite !range_len_down.
  replace (Z.to_nat (Z.max 0 m)) with (S (Z.to_nat (Z.max 0 (m - 1))))
    by lia.
  cbn [seq map]. f_equal; [lia|].
  rewrite <- seq_shift, map_map.
  apply map_ext. intros k. lia.
Qed.

Lemma In_range_up i start stop :
  In i (range start stop 1) <-> start <= i < stop.
Proof.
  destruct (Z.le_gt_cases stop start) as [Hle|Hlt].
  - rewrite range_nil by lia. simpl. lia.
  - remember (Z.to_nat (stop - start)) as n eqn:En.
    revert start Hlt En. induction n as [|n IH]; intros; [lia|].
    rewrite range_cons by lia. simpl.
    destruct (Z.eq_dec (start + 1) stop) as [E|E].
    + rewrite range_nil by lia. simpl. lia.
    + rewrite IH by lia. lia.
Qed.

Lemma In_range_down i m : In i (range m 0 (-1)) <-> 0 < i <= m.
Proof.
  destruct (Z.le_gt_cases m 0) as [Hle|Hlt].
  - rewrite range_down_nil by lia. simpl. lia.
  - remember (Z.to_nat m) as n eqn:En.
    revert m Hlt En. induction n as [|n IH]; intros; [lia|].
    rewrite range_down_cons by lia. simpl.
    destruct (Z.eq_dec m 1) as [E|E].
    + rewrite range_down_nil by lia. simpl. lia.
    + rewrite IH by lia. lia.
Qed.

(** ** Loop rules *)

Section LoopFacts.
Context {St : Type}.

(** A property kept by every turn is kept by the loop. *)
Lemma for_each_preserves (P : St -> Prop) idxs
  (body : Z -> St -> result St) s :
  P s ->
  (forall i s, In i idxs -> P s -> exists s', body i s = Ok s' /\ P s') ->
  exists s', for_each idxs body s = Ok s' /\ P s'.
Proof.
  revert s. induction idxs as [|i idxs IH]; intros s Hs Hbody; simpl.
  - eauto.
  - destruct (Hbody i s (or_introl eq_refl) Hs) as (s1 & E1 & H1).
    rewrite E1. simpl. apply IH; auto.
    intros j s2 Hj. apply Hbody. now right.
Qed.

(** [for i in range(start, stop)] with an invariant on [i]. *)
Lemma for_each_range_inv (I : Z -> St -> Prop) start stop
  (body : Z -> St -> result St) s :
  start <= stop ->
  I start s ->
  (forall i s, start <= i < stop -> I i s ->
               exists s', body i s = Ok s' /\ I (i + 1) s') ->
  exists s', for_each (range start stop 1) body s = Ok s' /\ I stop s'.
Proof.
  intros Hle. remember (Z.to_nat (stop - start)) as n eqn:En.
  revert start s Hle En. induction n as [|n IH]; intros start s Hle En H0 Hb.
  - rewrite range_nil by lia. simpl.
    replace stop with start by lia. eauto.
  - rewrite range_cons by lia. simpl.
    destruct (Hb start s ltac:(lia) H0) as (s1 & E1 & H1).
    rewrite E1. simpl. apply IH; auto; try lia.
    intros i s2 Hi. apply Hb. lia.
Qed.

(** [for n in range(m, 0, -1)] with an invariant on [n]. *)
Lemma for_each_range_down_inv (I : Z -> St -> Prop) m
  (body : Z -> St -> result St) s :
  0 <= m ->
  I m s ->
  (forall n s, 0 < n <= m -> I n s ->
               exists s', body n s = Ok s' /\ I (n - 1) s') ->
  exists s', for_each (range m 0 (-1)) body s = Ok s' /\ I 0 s'.
Proof.
  intros Hle. remember (Z.to_nat m) as k eqn:Ek.
  revert m s Hle Ek. induction k as [|k IH]; intros m s Hle Ek H0 Hb.
  - rewrite range_down_nil by lia. simpl.
    replace 0 with m by lia. eauto.
  - rewrite range_down_cons by lia. simpl.
    destruct (Hb m s ltac:(lia) H0) as (s1 & E1 & H1).
    rewrite E1. simpl. apply IH; auto; try lia.
    intros i s2 Hi. apply Hb. lia.
Qed.

(** [while] with an invariant and a measure that every turn
    decreases: fuel above the measure is enough. *)
Lemma while_inv (I : St -> Prop) (mu : St -> nat)
  (cond : St -> result bool) (body : St -> result St) fuel s :
  I s ->
  (forall s, I s ->
     exists b, cond s = Ok b /\
       (b = true ->
        exists s', body s = Ok s' /\ I s' /\ (mu s' < mu s)%nat)) ->
  (mu s < fuel)%nat ->
  exists s', while fuel cond body s = Ok s' /\ I s' /\ cond s' = Ok false.
Proof.
  intros H0 Hstep. revert s H0.
  induction fuel as [|fuel IH]; intros s H0 Hfuel; [lia|].
  simpl. destruct (Hstep s H0) as (b & Ec & Hb). rewrite Ec. simpl.
  destruct b.
  - destruct (Hb eq_refl) as (s1 & E1 & H1 & Hmu).
    rewrite E1. simpl. apply IH; auto. lia.
  - eauto.
Qed.

End LoopFacts.

(** ** reverse *)

Section ReverseFacts.
Context {A : Type}.
Implicit Types (a b : list A) (i j : Z).

Lemma swapitems_neg a i j :
  0 <= i < len a -> - len a <= j < 0 ->
  swapitems a i j = swapitems a i (len a + j).
Proof.
  intros Hi Hj. unfold swapitems. rewrite getitem_neg by lia.
  destruct (getitem a (len a + j)) as [y| |]; simpl; auto.
  destruct (getitem a i) as [x| |]; simpl; auto.
  rewrite setitem_store by lia. simpl.
  rewrite setitem_neg; rewrite len_store; auto.
Qed.

Lemma item_rev a i : item (rev a) i = item a (len a - 1 - i).
Proof.
  unfold item, len.
  destruct (Z.ltb_spec i 0) as [Hi|Hi].
  - destruct (Z.ltb_spec (Z.of_nat (length a) - 1 - i) 0); [reflexivity|].
    symmetry. apply nth_error_None. lia.
  - rewrite nth_error_rev.
    destruct (Nat.ltb_spec (Z.to_nat i) (length a)) as [Hlt|Hge].
    + destruct (Z.ltb_spec (Z.of_nat (length a) - 1 - i) 0); [lia|].
      f_equal. lia.
    + destruct (Z.ltb_spec (Z.of_nat (length a) - 1 - i) 0);
        [reflexivity|lia].
Qed.

Lemma item_out a i : len a <= i -> item a i = None.
Proof.
  intros H. destruct (item a i) eqn:E; [|reflexivity].
  apply item_Some_range in E. lia.
Qed.

Lemma item_neg a i : i < 0 -> item a i = None.
Proof.
  intros H. unfold item. destruct (Z.ltb_spec i 0); [reflexivity|lia].
Qed.

Lemma reverse_rev a : reverse a = Ok (rev a).
Proof.
  unfold reverse.
  pose proof (len_nonneg a) as Hn.
  assert (Hh : 0 <= len a / 2) by (apply Z.div_pos; lia).
  assert (Hh2 : 2 * (len a / 2) <= len a) by (apply Z.mul_div_le; lia).
  assert (Hh3 : len a < 2 * (len a / 2) + 2).
  { pose proof (Z.mul_succ_div_gt (len a) 2 ltac:(lia)). lia. }
  destruct (for_each_range_inv (reversed_up_to a) 0 (len a / 2)
              (fun i a0 => swapitems a0 i (-1 - i)) a) as (b & Eb & Hb); auto.
  - split; [reflexivity|]. intros p Hp.
    destruct (Z.ltb_spec p 0); [lia|]. simpl.
    destruct (Z.leb_spec (len a - 0) p); [|reflexivity].
    rewrite item_out by lia. now rewrite item_neg by lia.
  - intros i b [Hlen Hb] Hi. destruct Hi as [Hlen' Hitems].
    rename Hlen into Hrange.
    destruct (proj2 (item_range a i) ltac:(lia)) as [x Hx].
    destruct (proj2 (item_range a (len a - 1 - i)) ltac:(lia)) as [y Hy].
    assert (Hbx : item b i = Some x).
    { rewrite Hitems by lia.
      destruct (Z.ltb_spec i i); [lia|].
      destruct (Z.leb_spec (len a - i) i); [lia|]. exact Hx. }
    assert (Hby : item b (len a - 1 - i) = Some y).
    { rewrite Hitems by lia.
      destruct (Z.ltb_spec (len a - 1 - i) i); [lia|].
      destruct (Z.leb_spec (len a - i) (len a - 1 - i)); [lia|]. exact Hy. }
    rewrite swapitems_neg by lia.
    replace (len b + (-1 - i)) with (len a - 1 - i) by lia.
    rewrite (swapitems_store _ _ _ _ _ Hbx Hby).
    eexists; split; [reflexivity|]. split.
    + now rewrite !len_store.
    + intros p Hp. rewrite !item_store, len_store by lia.
      rewrite Hitems by lia. rewrite Hlen'.
      destruct (Z.eqb_spec (len a - 1 - i) p) as [E1|E1];
      destruct (Z.eqb_spec i p) as [E2|E2];
      destruct (Z.ltb_spec p (len a));
      destruct (Z.ltb_spec p i);
      destruct (Z.ltb_spec p (i + 1));
      destruct (Z.leb_spec (len a - i) p);
      destruct (Z.leb_spec (len a - (i + 1)) p);
      simpl; try lia; subst; auto;
      try (replace (len a - 1 - (len a - 1 - i)) with i by lia; congruence);
      try congruence.
  - rewrite Eb. f_equal. apply item_ext. intros p Hp.
    destruct Hb as [_ Hb]. rewrite Hb by lia. rewrite item_rev.
    destruct (Z.ltb_spec p (len a / 2)); simpl; [reflexivity|].
    destruct (Z.leb_spec (len a - len a / 2) p); [reflexivity|].
    f_equal. lia.
Qed.

(** C10.  Applying [reverse] twice gives back the sequence, and one
    application puts the element of index [i] at index [N - 1 - i],
    for every [i]. *)
Theorem reverse_involution_mirror (a : list A) :
  exists b,
    reverse a = Ok b /\
    reverse b = Ok a /\
    len b = len a /\
    forall i, item b (len a - 1 - i) = item a i.
Proof.
  exists (rev a). repeat split.
  - apply reverse_rev.
  - rewrite reverse_rev. now rewrite rev_involutive.
  - unfold len. now rewrite length_rev.
  - intros i. rewrite item_rev. f_equal. lia.
Qed.

End ReverseFacts.

(** ** Comparisons *)

#[export] Instance PyOrdLaws_Z : PyOrdLaws Z.
Proof.
  constructor; simpl; intros.
  - destruct (Z.leb_spec x y); [now left|right]. apply Z.leb_le. lia.
  - apply Z.leb_le. apply Z.leb_le in H, H0. lia.
  - apply Z.ltb_antisym.
  - rewrite Z.gtb_ltb. apply Z.ltb_antisym.
  - apply Z.geb_leb.
  - destruct (Z.eqb_spec x y), (Z.leb_spec x y), (Z.leb_spec y x);
      simpl; auto; lia.
Qed.

#[export] Instance PyOrdLaws_pynum : PyOrdLaws pynum.
Proof.
  constructor; simpl; intros.
  - destruct (Qlt_le_dec (num_to_Q y) (num_to_Q x)) as [H|H].
    + right. apply Qle_bool_iff. now apply Qlt_le_weak.
    + left. now apply Qle_bool_iff.
  - apply Qle_bool_iff. apply Qle_bool_iff in H, H0.
    eapply Qle_trans; eauto.
  - reflexivity.
  - reflexivity.
  - reflexivity.
  - destruct (Qeq_bool (num_to_Q x) (num_to_Q y)) eqn:E.
    + apply Qeq_bool_iff in E. symmetry. apply andb_true_iff.
      split; apply Qle_bool_iff; rewrite E; apply Qle_refl.
    + symmetry. apply not_true_iff_false. intros H.
      apply andb_true_iff in H as [H1 H2].
      apply Qle_bool_iff in H1, H2.
      assert (num_to_Q x == num_to_Q y)%Q by (apply Qle_antisym; auto).
      apply Qeq_bool_iff in H. congruence.
Qed.

Section OrderFacts.
Context {A : Type} {Ord : PyOrd A} {Laws : PyOrdLaws A}.
Implicit Types (x y z : A).

Lemma py_le_refl x : py_le x x = true.
Proof. destruct (py_le_total x x); auto. Qed.

Lemma py_le_false x y : py_le x y = false -> py_le y x = true.
Proof. intros H. destruct (py_le_total x y); congruence. Qed.

Lemma py_gt_true x y : py_gt x y = true -> py_le x y = false.
Proof. rewrite py_gt_le. now destruct (py_le x y). Qed.

Lemma py_gt_false x y : py_gt x y = false -> py_le x y = true.
Proof. rewrite py_gt_le. now destruct (py_le x y). Qed.

Lemma py_gt_lt x y : py_gt x y = true -> py_le y x = true.
Proof. intros H. apply py_le_false. now apply py_gt_true. Qed.

Lemma py_lt_true x y : py_lt x y = true -> py_le x y = true.
Proof.
  rewrite py_lt_le. intros H. apply py_le_false.
  now destruct (py_le y x).
Qed.

Lemma py_lt_false x y : py_lt x y = false -> py_le y x = true.
Proof. rewrite py_lt_le. now destruct (py_le y x). Qed.

Lemma py_eq_refl x : py_eq x x = true.
Proof. rewrite py_eq_le. now rewrite py_le_refl. Qed.

Lemma py_eq_true x y :
  py_eq x y = true -> py_le x y = true /\ py_le y x = true.
Proof. rewrite py_eq_le. apply andb_true_iff. Qed.

Lemma py_eq_lt_false x y : py_eq x y = true -> py_lt x y = false.
Proof.
  intros H. apply py_eq_true in H as [_ H]. rewrite py_lt_le.
  now rewrite H.
Qed.

End OrderFacts.

(** ** Sorted sequences, by index *)

Section SortedFacts.
Context {A : Type}.
Implicit Types (a : list A) (R : A -> A -> Prop).

Lemma item_cons_0 (x : A) a : item (x :: a) 0 = Some x.
Proof. reflexivity. Qed.

Lemma item_cons_succ (x : A) a i :
  0 <= i -> item (x :: a) (i + 1) = item a i.
Proof.
  intros Hi. unfold item.
  destruct (Z.ltb_spec (i + 1) 0), (Z.ltb_spec i 0); try lia.
  replace (Z.to_nat (i + 1)) with (S (Z.to_nat i)) by lia. reflexivity.
Qed.

Lemma len_cons (x : A) a : len (x :: a) = len a + 1.
Proof. unfold len. simpl length. lia. Qed.

Lemma StronglySorted_item R a :
  StronglySorted R a ->
  forall i j x y, i < j -> item a i = Some x -> item a j = Some y -> R x y.
Proof.
  induction 1 as [|x a Hs IH Hall]; intros i j u v Hij Hi Hj.
  - unfold item in Hi. destruct (i <? 0); [discriminate|].
    now destruct (Z.to_nat i).
  - pose proof (item_Some_range _ _ _ Hi). pose proof (item_Some_range _ _ _ Hj).
    replace j with ((j - 1) + 1) in Hj by lia.
    rewrite item_cons_succ in Hj by lia.
    destruct (Z.eq_dec i 0) as [->|Hne].
    + rewrite item_cons_0 in Hi. injection Hi as <-.
      rewrite Forall_forall in Hall. apply Hall. eapply item_In; eauto.
    + replace i with ((i - 1) + 1) in Hi by lia.
      rewrite item_cons_succ in Hi by lia.
      apply (IH (i - 1) (j - 1) u v); [lia|assumption|assumption].
Qed.

Lemma item_StronglySorted R a :
  (forall i j x y, i < j -> item a i = Some x -> item a j = Some y -> R x y) ->
  StronglySorted R a.
Proof.
  induction a as [|x a IH]; intros H; constructor.
  - apply IH. intros i j u v Hij Hi Hj.
    pose proof (item_Some_range _ _ _ Hi).
    apply (H (i + 1) (j + 1)); try lia; rewrite item_cons_succ; auto; lia.
  - apply Forall_forall. intros y Hy.
    apply In_item in Hy as [j Hj].
    pose proof (item_Some_range _ _ _ Hj).
    apply (H 0 (j + 1)); try lia; [reflexivity|].
    rewrite item_cons_succ; auto; lia.
Qed.

End SortedFacts.

(** ** sequential_search and binary_search *)

Section SearchFacts.
Context {A : Type} {Ord : PyOrd A}.
Implicit Types (a : list A) (value x y : A) (i j : Z).

(** The scan from [start]: the first index at or after [start] whose
    element equals [value]. *)
Lemma sequential_search_in_spec a value start :
  0 <= start <= len a ->
  exists r,
    sequential_search_in (range start (len a) 1) a value = Ok r /\
    match r with
    | Some i =>
        start <= i /\
        (exists x, item a i = Some x /\ py_eq x value = true) /\
        (forall j y, start <= j < i -> item a j = Some y ->
                     py_eq y value = false)
    | None =>
        forall j y, start <= j -> item a j = Some y -> py_eq y value = false
    end.
Proof.
  intros Hs. remember (Z.to_nat (len a - start)) as n eqn:En.
  revert start Hs En. induction n as [|n IH]; intros start Hs En.
  - rewrite range_nil by lia. simpl. exists None. split; [reflexivity|].
    intros j y Hj Hy. apply item_Some_range in Hy. lia.
  - rewrite range_cons by lia. simpl.
    destruct (proj2 (item_range a start) ltac:(lia)) as [x Hx].
    rewrite (getitem_Some _ _ _ Hx). simpl.
    destruct (py_eq x value) eqn:E.
    + exists (Some start). split; [reflexivity|].
      split; [lia|]. split; [eauto|]. intros; lia.
    + destruct (IH (start + 1) ltac:(lia) ltac:(lia)) as (r & Er & Hr).
      exists r. split; [exact Er|].
      destruct r as [i|].
      * destruct Hr as (Hi & Hex & Hbefore). split; [lia|].
        split; [exact Hex|]. intros j y Hj Hy.
        destruct (Z.eq_dec j start) as [->|Hne]; [congruence|].
        apply (Hbefore j); auto; lia.
      * intros j y Hj Hy.
        destruct (Z.eq_dec j start) as [->|Hne]; [congruence|].
        apply (Hr j); auto; lia.
Qed.

(** [sequential_search] returns the first matching index, or [None]
    when there is none; it raises nothing. *)
Lemma sequential_search_first a value :
  exists r, sequential_search a value = Ok r /\ first_index_of a value r.
Proof.
  pose proof (len_nonneg a).
  destruct (sequential_search_in_spec a value 0 ltac:(lia)) as (r & Er & Hr).
  exists r. split; [exact Er|].
  destruct r as [i|]; simpl.
  - destruct Hr as (_ & Hex & Hb). split; auto.
  - intros y Hy. apply In_item in Hy as [j Hj].
    pose proof (item_Some_range _ _ _ Hj). apply (Hr j); auto; lia.
Qed.

Context {Laws : PyOrdLaws A}.

Lemma non_decreasing_item a i j x y :
  non_decreasing a -> i <= j ->
  item a i = Some x -> item a j = Some y -> py_le x y = true.
Proof.
  intros Hs Hij Hi Hj. destruct (Z.eq_dec i j) as [->|Hne].
  - assert (x = y) by congruence. subst. apply py_le_refl.
  - apply (StronglySorted_item _ _ Hs i j); auto. lia.
Qed.

(** The halving loop: no element outside [[start, end]] equals
    [value]. *)
Lemma binary_search_from_spec fuel a value start end_ :
  non_decreasing a ->
  0 <= start -> end_ < len a ->
  (Z.to_nat (end_ - start + 1) < fuel)%nat ->
  (forall j y, item a j = Some y -> j < start \/ end_ < j ->
               py_eq y value = false) ->
  exists r,
    binary_search_from fuel a value start end_ = Ok r /\
    some_index_of a value r.
Proof.
  intros Hsorted. revert start end_.
  induction fuel as [|fuel IH]; intros start end_ Hs He Hfuel Hout; [lia|].
  simpl. destruct (Z.leb_spec start end_) as [Hle|Hgt].
  - set (i := (start + end_) / 2).
    assert (Hi : start <= i <= end_).
    { unfold i. split.
      - apply Z.div_le_lower_bound; lia.
      - apply Z.div_le_upper_bound; lia. }
    destruct (proj2 (item_range a i) ltac:(lia)) as [x Hx].
    rewrite (getitem_Some _ _ _ Hx). simpl.
    destruct (py_eq x value) eqn:E.
    + exists (Some i). split; [reflexivity|]. simpl. eauto.
    + destruct (py_gt x value) eqn:G.
      * apply IH; try lia.
        intros j y Hy [Hj|Hj]; [apply (Hout j y Hy); lia|].
        destruct (Z.le_gt_cases j end_); [|apply (Hout j y Hy); lia].
        apply not_true_iff_false. intros Heq.
        apply py_eq_true in Heq as [Hyv _].
        assert (py_le x y = true)
          by (apply (non_decreasing_item a i j); auto; lia).
        apply py_gt_true in G.
        rewrite (py_le_trans x y value H0 Hyv) in G. discriminate.
      * apply IH; try lia.
        intros j y Hy [Hj|Hj]; [|apply (Hout j y Hy); lia].
        destruct (Z.le_gt_cases start j); [|apply (Hout j y Hy); lia].
        apply not_true_iff_false. intros Heq.
        apply py_eq_true in Heq as [Hyv Hvy].
        assert (py_le y x = true)
          by (apply (non_decreasing_item a j i); auto; lia).
        apply py_gt_false in G.
        rewrite py_eq_le in E. rewrite G in E. simpl in E.
        rewrite (py_le_trans value y x Hvy H0) in E. discriminate.
  - exists None. split; [reflexivity|]. simpl.
    intros y Hy. apply In_item in Hy as [j Hj].
    apply (Hout j); auto. lia.
Qed.

Lemma binary_search_some_index fuel a value :
  non_decreasing a -> (length a < fuel)%nat ->
  exists r, binary_search fuel a value = Ok r /\ some_index_of a value r.
Proof.
  intros Hs Hfuel. unfold binary_search.
  apply binary_search_from_spec; auto; try lia.
  - unfold len. lia.
  - intros j y Hy Hj. apply item_Some_range in Hy. lia.
Qed.

End SearchFacts.

(** C5, as amended.  On a sequence in ascending order [binary_search]
    returns an index whose element equals the target (with several
    equal elements it need not be the first one), and the absent
    marker when no element equals the target; on
    [17,20,26,31,44,54,55,77,93] it returns index 4 for 44 and the
    absent marker for 45. *)
Theorem binary_search_correct :
  (forall (A : Type) (Ord : PyOrd A), PyOrdLaws A ->
   forall (fuel : nat) (a : list A) (value : A),
     non_decreasing a -> (length a < fuel)%nat ->
     exists r, binary_search fuel a value = Ok r /\ some_index_of a value r)
  /\
  (forall fuel : nat, (9 < fuel)%nat ->
     binary_search fuel [17; 20; 26; 31; 44; 54; 55; 77; 93] 44
       = Ok (Some 4) /\
     binary_search fuel [17; 20; 26; 31; 44; 54; 55; 77; 93] 45
       = Ok None).
Proof.
  split.
  - intros A Ord Laws fuel a value. apply binary_search_some_index.
  - intros fuel Hfuel.
    set (a := [17; 20; 26; 31; 44; 54; 55; 77; 93]).
    assert (Hs : non_decreasing a) by (repeat constructor).
    assert (Hcases : forall i x, item a i = Some x ->
              i = 0 /\ x = 17 \/ i = 1 /\ x = 20 \/ i = 2 /\ x = 26 \/
              i = 3 /\ x = 31 \/ i = 4 /\ x = 44 \/ i = 5 /\ x = 54 \/
              i = 6 /\ x = 55 \/ i = 7 /\ x = 77 \/ i = 8 /\ x = 93).
    { intros i x Hx. pose proof (item_Some_range _ _ _ Hx) as Hr.
      change (len a) with 9 in Hr.
      assert (Hi : i = 0 \/ i = 1 \/ i = 2 \/ i = 3 \/ i = 4 \/ i = 5 \/
                   i = 6 \/ i = 7 \/ i = 8) by lia.
      repeat (destruct Hi as [Hi|Hi]; [subst i; injection Hx as <-; tauto|]).
      subst i; injection Hx as <-; tauto. }
    split.
    + destruct (binary_search_some_index fuel a 44 Hs Hfuel) as (r & Er & Hr).
      rewrite Er. destruct r as [i|]; simpl in Hr.
      * destruct Hr as (x & Hx & E).
        destruct (Hcases i x Hx) as
          [[-> ->]|[[-> ->]|[[-> ->]|[[-> ->]|[[-> ->]|[[-> ->]|[[-> ->]|
          [[-> ->]|[-> ->]]]]]]]]]; try discriminate E. reflexivity.
      * specialize (Hr 44). simpl in Hr. discriminate Hr. tauto.
    + destruct (binary_search_some_index fuel a 45 Hs Hfuel) as (r & Er & Hr).
      rewrite Er. destruct r as [i|]; simpl in Hr; [|reflexivity].
      destruct Hr as (x & Hx & E).
      destruct (Hcases i x Hx) as
        [[-> ->]|[[-> ->]|[[-> ->]|[[-> ->]|[[-> ->]|[[-> ->]|[[-> ->]|
        [[-> ->]|[-> ->]]]]]]]]]; discriminate E.
Qed.

Lemma binary_search_correct_witness :
  exists r, binary_search 4%nat [1; 1; 1] 1 = Ok r /\ some_index_of [1; 1; 1] 1 r.
Proof.
  apply (proj1 binary_search_correct Z PyOrd_Z PyOrdLaws_Z 4%nat [1; 1; 1] 1).
  - repeat constructor.
  - simpl. lia.
Defined.

(** C5 as stated fails: in [[1, 1, 1]], which is in ascending order,
    the search for [1] returns index 1, and the first index whose
    element equals 1 is 0. *)
Lemma binary_search_not_first :
  non_decreasing [1; 1; 1] /\
  binary_search 4%nat [1; 1; 1] 1 = Ok (Some 1) /\
  ~ first_index_of [1; 1; 1] 1 (Some 1).
Proof.
  split; [repeat constructor|]. split; [reflexivity|].
  intros [_ H]. specialize (H 0 1 ltac:(lia) eq_refl). discriminate H.
Qed.

(** ** build_index *)

Section BuildIndexFacts.
Context {A : Type} {Ord : PyOrd A}.
Implicit Types (a a_sorted a_original : list A) (idx : list Z) (i j : Z).

Lemma take_ok {B : Type} (b : list B) (ind : list Z) :
  (forall j, In j ind -> 0 <= j < len b) ->
  exists r, take b ind = Ok r /\ len r = len ind.
Proof.
  induction ind as [|j ind IH]; intros H; simpl.
  - exists []. auto.
  - destruct (proj2 (item_range b j) (H j (or_introl eq_refl))) as [x Hx].
    rewrite (getitem_Some _ _ _ Hx). simpl.
    destruct IH as (r & Er & Hr); [intros; apply H; now right|].
    rewrite Er. simpl. exists (x :: r). split; [reflexivity|].
    rewrite !len_cons. lia.
Qed.

(** A turn of the loop of [build_index] whose element is missing from
    the sorted sequence raises [TypeError]; the turns before it either
    do the same or store an index. *)
Lemma search_all_missing a_sorted a_original i x :
  0 <= i < len a_sorted ->
  item a_original i = Some x ->
  (forall y, In y a_sorted -> py_eq y x = false) ->
  forall start idx,
    0 <= start <= i -> len idx = len a_sorted ->
    for_each (range start (len a_sorted) 1)
      (fun i idx =>
         do x <- getitem a_original i ;;
         do r <- sequential_search a_sorted x ;;
         np_setitem idx i r)
      idx = Raise TypeError.
Proof.
  intros Hi Hx Hmiss start.
  remember (Z.to_nat (i - start)) as n eqn:En.
  revert start En. induction n as [|n IH]; intros start En idx Hs Hlen.
  - assert (start = i) by lia. subst start.
    rewrite range_cons by lia. simpl.
    rewrite (getitem_Some _ _ _ Hx). simpl.
    destruct (sequential_search_first a_sorted x) as (r & Er & Hr).
    rewrite Er. simpl. destruct r as [j|]; [|reflexivity].
    destruct Hr as [(y & Hy & E) _].
    rewrite (Hmiss y (item_In _ _ _ Hy)) in E. discriminate.
  - rewrite range_cons by lia. simpl.
    pose proof (item_Some_range _ _ _ Hx) as Hio.
    destruct (proj2 (item_range a_original start) ltac:(lia)) as [x' Hx'].
    rewrite (getitem_Some _ _ _ Hx'). simpl.
    destruct (sequential_search_first a_sorted x') as (r & Er & Hr).
    rewrite Er. simpl. destruct r as [j|]; [|reflexivity]. simpl.
    rewrite setitem_store by lia. simpl.
    apply IH; try lia. now rewrite len_store.
Qed.

Lemma len_np_zeros n : 0 <= n -> len (np_zeros n) = n.
Proof.
  intros Hn. unfold len, np_zeros. rewrite repeat_length. lia.
Qed.

(** C7, as amended.  When an element of the original sequence, at a
    position below the length of the sorted one, does not occur in the
    sorted sequence, [sequential_search] returns the absent marker for
    it and [build_index] records nothing: storing the marker in the
    array of integers raises [TypeError], and no index array is
    returned. *)
Theorem build_index_missing_raises :
  forall (a_sorted a_original : list A) (i : Z) (x : A),
    0 <= i < len a_sorted ->
    item a_original i = Some x ->
    (forall y, In y a_sorted -> py_eq y x = false) ->
    sequential_search a_sorted x = Ok None /\
    build_index a_sorted a_original = Raise TypeError.
Proof.
  intros a_sorted a_original i x Hi Hx Hmiss. split.
  - destruct (sequential_search_first a_sorted x) as (r & Er & Hr).
    rewrite Er. destruct r as [j|]; [|reflexivity].
    destruct Hr as [(y & Hy & E) _].
    rewrite (Hmiss y (item_In _ _ _ Hy)) in E. discriminate.
  - unfold build_index, search_all.
    rewrite (search_all_missing a_sorted a_original i x Hi Hx Hmiss).
    + reflexivity.
    + lia.
    + apply len_np_zeros. apply len_nonneg.
Qed.

Context {Laws : PyOrdLaws A}.

(** When every element of the original sequence occurs in the sorted
    one and the lengths agree, [build_index] returns an array of that
    length. *)
Lemma build_index_ok a_sorted a_original :
  len a_original = len a_sorted ->
  (forall x, In x a_original -> In x a_sorted) ->
  exists idx, build_index a_sorted a_original = Ok idx /\
              len idx = len a_sorted.
Proof.
  intros Hlen Hin. unfold build_index, search_all.
  pose proof (len_nonneg a_sorted) as Hn.
  destruct (for_each_range_inv
    (fun k idx =>
       len idx = len a_sorted /\
       forall p j, 0 <= p < k -> item idx p = Some j -> 0 <= j < len a_sorted)
    0 (len a_sorted)
    (fun i idx =>
       do x <- getitem a_original i ;;
       do r <- sequential_search a_sorted x ;;
       np_setitem idx i r)
    (np_zeros (len a_sorted))) as (idx & Eidx & Hl & Hidx); auto.
  - split; [now apply len_np_zeros|]. intros; lia.
  - intros i idx Hi [Hl Hidx].
    destruct (proj2 (item_range a_original i) ltac:(lia)) as [x Hx].
    rewrite (getitem_Some _ _ _ Hx). simpl.
    destruct (sequential_search_first a_sorted x) as (r & Er & Hr).
    rewrite Er. simpl. destruct r as [j|]; simpl in *.
    + rewrite setitem_store by lia.
      eexists; split; [reflexivity|]. split; [now rewrite len_store|].
      intros p j' Hp Hj'. rewrite item_store in Hj' by lia.
      destruct (Z.eqb_spec i p) as [->|Hne].
      * destruct (p <? len idx); [|discriminate]. injection Hj' as <-.
        destruct Hr as [(y & Hy & _) _].
        now apply item_Some_range in Hy.
      * apply (Hidx p); auto. lia.
    + specialize (Hr x (Hin x (item_In _ _ _ Hx))).
      rewrite py_eq_refl in Hr. discriminate.
  - rewrite Eidx. simpl.
    destruct (take_ok idx idx) as (r & Er & Hr).
    + intros j Hj. apply In_item in Hj as [p Hp].
      pose proof (item_Some_range _ _ _ Hp).
      rewrite Hl. apply (Hidx p); auto. lia.
    + exists r. split; [exact Er|]. lia.
Qed.

End BuildIndexFacts.

Lemma build_index_missing_raises_witness :
  sequential_search [1; 2] 3 = Ok None /\
  build_index [1; 2] [1; 3] = Raise TypeError.
Proof.
  apply (build_index_missing_raises [1; 2] [1; 3] 1 3).
  - change (0 <= 1 < 2). lia.
  - reflexivity.
  - intros y [<-|[<-|[]]]; reflexivity.
Defined.

(** C7 as stated fails: for the sorted sequence [[1, 2]] and the
    original [[1, 3]], whose element 3 is missing, [build_index]
    returns no index array with a marker in it but raises
    [TypeError]. *)
Lemma build_index_not_silent :
  ~ In 3 [1; 2] /\
  (forall idx, build_index [1; 2] [1; 3] <> Ok idx) /\
  build_index [1; 2] [1; 3] = Raise TypeError.
Proof.
  split; [simpl; lia|]. split; [intros idx; discriminate|reflexivity].
Qed.

(** C2: [build_index] on the sorted sequence [[1, 2, 3, 4]] and the
    original [[2, 3, 4, 1]] returns [[2, 3, 0, 1]]; the original taken
    at these indices is [[4, 1, 2, 3]] and not the sorted sequence.
    The array of first positions is [[1, 2, 3, 0]] and the result is
    this array indexed by itself, not its inverse [[3, 0, 1, 2]].
    [sort] returns the same array for the input [[2, 3, 4, 1]].  With
    the duplicates of [[1, 1]] the result [[0, 0]] is not a
    permutation of [0, 1]. *)
Theorem build_index_self_indexing :
  search_all [1; 2; 3; 4] [2; 3; 4; 1] = Ok [1; 2; 3; 0] /\
  build_index [1; 2; 3; 4] [2; 3; 4; 1] = Ok [2; 3; 0; 1] /\
  take [2; 3; 4; 1] [2; 3; 0; 1] = Ok [4; 1; 2; 3] /\
  take [2; 3; 4; 1] [3; 0; 1; 2] = Ok [1; 2; 3; 4] /\
  @sort Z PyOrd_Z ListHeap 5 [2; 3; 4; 1] "merge" false None
    = Ok ([1; 2; 3; 4], [2; 3; 0; 1]) /\
  build_index [1; 1] [1; 1] = Ok [0; 0] /\
  ~ Permutation [0; 0] (range 0 2 1).
Proof.
  repeat split; try reflexivity.
  intros H. apply Permutation_sym in H. apply (Permutation_in 1) in H.
  - simpl in H. lia.
  - vm_compute. auto.
Qed.

(** ** bubble_sort and short_bubble_sort *)

Section BubbleFacts.
Context {A : Type} {Ord : PyOrd A}.
Implicit Types (a : list A) (i n : Z).

(** The inner loop of [short_bubble_sort] does to the list what the
    inner loop of [bubble_sort] does. *)
Lemma short_inner_list idxs a (flag : bool) :
  for_each idxs
    (fun i a =>
       do x <- getitem a i ;;
       do y <- getitem a (i + 1) ;;
       if py_gt x y then swapitems a (i + 1) i else Ok a)
    a
  =
  do s <- for_each idxs
      (fun i s =>
         let '(a, is_sorted) := s in
         do x <- getitem a i ;;
         do y <- getitem a (i + 1) ;;
         if py_gt x y
         then do a <- swapitems a (i + 1) i ;; Ok (a, false)
         else Ok (a, is_sorted))
      (a, flag) ;;
  Ok (fst s).
Proof.
  revert a flag. induction idxs as [|i idxs IH]; intros a flag; simpl.
  - reflexivity.
  - destruct (getitem a i) as [x| |]; simpl; auto.
    destruct (getitem a (i + 1)) as [y| |]; simpl; auto.
    destruct (py_gt x y); simpl.
    + destruct (swapitems a (i + 1) i) as [a1| |]; simpl; auto.
    + apply IH.
Qed.

(** When [is_sorted] is still set after the inner loop, no test found
    anything to swap and the list is unchanged. *)
Lemma short_inner_sorted idxs a (flag : bool) a' :
  for_each idxs
    (fun i s =>
       let '(a, is_sorted) := s in
       do x <- getitem a i ;;
       do y <- getitem a (i + 1) ;;
       if py_gt x y
       then do a <- swapitems a (i + 1) i ;; Ok (a, false)
       else Ok (a, is_sorted))
    (a, flag) = Ok (a', true) ->
  flag = true /\ a' = a /\ Forall (no_swap_at a) idxs.
Proof.
  revert a flag. induction idxs as [|i idxs IH]; intros a flag; simpl.
  - intros [= <- ->]. auto.
  - destruct (getitem a i) as [x| |] eqn:Ex; simpl; try discriminate.
    destruct (getitem a (i + 1)) as [y| |] eqn:Ey; simpl; try discriminate.
    destruct (py_gt x y) eqn:G; simpl.
    + destruct (swapitems a (i + 1) i) as [a1| |]; simpl; try discriminate.
      intros H. apply IH in H as [H _]. discriminate.
    + intros H. apply IH in H as (-> & -> & Hall).
      repeat split; auto. constructor; auto.
      exists x, y. auto.
Qed.

Lemma no_swap_pass idxs a :
  Forall (no_swap_at a) idxs ->
  for_each idxs
    (fun i a =>
       do x <- getitem a i ;;
       do y <- getitem a (i + 1) ;;
       if py_gt x y then swapitems a (i + 1) i else Ok a)
    a = Ok a.
Proof.
  induction 1 as [|i idxs (x & y & Ex & Ey & G) Hall IH]; simpl.
  - reflexivity.
  - rewrite Ex, Ey. simpl. rewrite G. exact IH.
Qed.

(** A pass of [short_bubble_sort] against the same pass of
    [bubble_sort]. *)
Lemma short_bubble_pass_bubble_pass n a :
  match short_bubble_pass n a with
  | Ok (is_sorted, a') =>
      bubble_pass n a = Ok a' /\
      (is_sorted = true ->
       a' = a /\ Forall (no_swap_at a) (range 0 n 1))
  | Raise e => bubble_pass n a = Raise e
  | OutOfFuel => bubble_pass n a = OutOfFuel
  end.
Proof.
  unfold short_bubble_pass, bubble_pass.
  rewrite (short_inner_list (range 0 n 1) a true).
  destruct (for_each (range 0 n 1) _ (a, true)) as [[a' f]| |] eqn:E;
    simpl; auto.
  split; [reflexivity|]. intros ->.
  apply short_inner_sorted in E as (_ & -> & Hall). auto.
Qed.

(** Once a pass of length [n] has swapped nothing, the shorter passes
    that [bubble_sort] still makes swap nothing. *)
Lemma bubble_passes_idle a n m :
  Forall (no_swap_at a) (range 0 n 1) -> m <= n ->
  for_each (range m 0 (-1)) bubble_pass a = Ok a.
Proof.
  intros Hall. remember (Z.to_nat m) as k eqn:Ek.
  revert m Ek. induction k as [|k IH]; intros m Ek Hm.
  - rewrite range_down_nil by lia. reflexivity.
  - rewrite range_down_cons by lia. simpl.
    unfold bubble_pass at 1. rewrite no_swap_pass.
    + simpl. apply IH; lia.
    + rewrite Forall_forall in *. intros i Hi. apply Hall.
      apply In_range_up in Hi. apply In_range_up. lia.
Qed.

Lemma short_bubble_passes m a :
  for_break (range m 0 (-1)) short_bubble_pass a
  = for_each (range m 0 (-1)) bubble_pass a.
Proof.
  remember (Z.to_nat m) as k eqn:Ek.
  revert m a Ek. induction k as [|k IH]; intros m a Ek.
  - destruct (Z.le_gt_cases m 0).
    + rewrite range_down_nil by lia. reflexivity.
    + lia.
  - rewrite range_down_cons by lia. simpl.
    pose proof (short_bubble_pass_bubble_pass m a) as H.
    destruct (short_bubble_pass m a) as [[f a']| |]; simpl.
    + destruct H as [-> H]. simpl. destruct f.
      * destruct (H eq_refl) as [-> Hall].
        symmetry. apply (bubble_passes_idle a m); auto. lia.
      * apply IH. lia.
    + now rewrite H.
    + now rewrite H.
Qed.

Lemma bubble_pass_returns n a :
  n < len a -> exists b, bubble_pass n a = Ok b /\ len b = len a.
Proof.
  intros Hn. unfold bubble_pass.
  apply (for_each_preserves (fun b => len b = len a)); [reflexivity|].
  intros i b Hi Hb. apply In_range_up in Hi.
  destruct (proj2 (item_range b i) ltac:(lia)) as [x Hx].
  destruct (proj2 (item_range b (i + 1)) ltac:(lia)) as [y Hy].
  rewrite (getitem_Some _ _ _ Hx), (getitem_Some _ _ _ Hy). simpl.
  destruct (py_gt x y).
  - rewrite (swapitems_store _ _ _ _ _ Hy Hx).
    eexists; split; [reflexivity|]. now rewrite !len_store.
  - eauto.
Qed.

Lemma bubble_sort_returns a :
  exists b, bubble_sort a = Ok b /\ len b = len a.
Proof.
  unfold bubble_sort.
  apply (for_each_preserves (fun b => len b = len a)); [reflexivity|].
  intros n b Hn Hb. apply In_range_down in Hn.
  destruct (bubble_pass_returns n b ltac:(lia)) as (b' & Eb & Hb').
  exists b'. split; [exact Eb|]. lia.
Qed.

(** C9.  On every input [bubble_sort] returns and [short_bubble_sort]
    returns the same list: leaving the loop early never changes the
    result. *)
Theorem short_bubble_sort_bubble_sort (a : list A) :
  exists b, bubble_sort a = Ok b /\ short_bubble_sort a = Ok b.
Proof.
  destruct (bubble_sort_returns a) as (b & Eb & _).
  exists b. split; [exact Eb|].
  unfold short_bubble_sort. rewrite short_bubble_passes. exact Eb.
Qed.

End BubbleFacts.

(** ** Exchanges are rearrangements *)

Section PermutationFacts.
Context {A : Type}.
Implicit Types (a : list A) (x y : A).

Lemma update_head_Permutation a (k : nat) x y :
  nth_error a k = Some y ->
  Permutation (x :: a) (y :: update a k x).
Proof.
  revert k. induction a as [|z a IH]; intros [|k] H; simpl in *;
    try discriminate.
  - injection H as ->. apply perm_swap.
  - eapply perm_trans; [apply perm_swap|].
    eapply perm_trans; [apply perm_skip, (IH k H)|]. apply perm_swap.
Qed.

Lemma update_swap_Permutation a (i j : nat) x y :
  nth_error a i = Some x -> nth_error a j = Some y ->
  Permutation a (update (update a i y) j x).
Proof.
  revert i j. induction a as [|z a IH]; intros [|i] [|j] Hi Hj;
    simpl in *; try discriminate.
  - injection Hi as ->. injection Hj as ->. apply Permutation_refl.
  - injection Hi as ->. now apply update_head_Permutation.
  - injection Hj as ->. now apply update_head_Permutation.
  - apply perm_skip. now apply IH.
Qed.

Lemma item_nth_error a (i : Z) x :
  item a i = Some x -> nth_error a (Z.to_nat i) = Some x.
Proof. unfold item. now destruct (i <? 0). Qed.

Lemma store_swap_Permutation a (i j : Z) x y :
  item a i = Some x -> item a j = Some y ->
  Permutation a (store (store a i y) j x).
Proof.
  intros Hi Hj. unfold store.
  apply update_swap_Permutation; now apply item_nth_error.
Qed.

Lemma Permutation_len a b : Permutation a b -> len a = len b.
Proof. intros H. unfold len. now rewrite (Permutation_length H). Qed.

End PermutationFacts.

(** Case analysis on lookups in stored lists. *)
Ltac item_bounds :=
  repeat match goal with
  | H : item ?a ?p = Some _ |- _ =>
      lazymatch goal with
      | _ : 0 <= p < len a |- _ => fail
      | _ => pose proof (item_Some_range _ _ _ H)
      end
  end;
  repeat rewrite len_store in *.

Ltac store_cases :=
  item_bounds;
  repeat match goal with
  | H : context [item (store _ _ _) _] |- _ =>
      rewrite item_store in H by lia
  | |- context [item (store _ _ _) _] => rewrite item_store by lia
  end;
  repeat rewrite len_store in *;
  repeat match goal with
  | H : context [Z.eqb ?u ?v] |- _ => destruct (Z.eqb_spec u v)
  | |- context [Z.eqb ?u ?v] => destruct (Z.eqb_spec u v)
  | H : context [Z.ltb ?u ?v] |- _ => destruct (Z.ltb_spec u v)
  | |- context [Z.ltb ?u ?v] => destruct (Z.ltb_spec u v)
  end;
  try lia; try discriminate.

Ltac inj_some :=
  repeat match goal with
  | H : Some _ = Some _ |- _ => injection H as H; try subst
  end.

Ltac eassum := multimatch goal with H : _ |- _ => exact H end.

(** Closes [py_le x y = true] from an invariant in the context. *)
Ltac use_inv :=
  match goal with
  | |- py_le ?x ?x = true => apply py_le_refl
  | H : py_le ?x ?y = true |- py_le ?x ?y = true => exact H
  | H : sorted_from _ _ |- py_le _ _ = true =>
      eapply H; [ | | eassum | eassum]; lia
  | H : split_at _ _ |- py_le _ _ = true =>
      eapply H; [ | | eassum | eassum]; lia
  | H : max_at _ _ |- py_le _ _ = true =>
      eapply H; [ | eassum | eassum]; lia
  | H : greatest_of _ _ _ |- py_le _ _ = true =>
      eapply H; [ | eassum | eassum]; lia
  | H : sorted_upto _ _ |- py_le _ _ = true =>
      eapply H; [ | | | eassum | eassum]; lia
  end.

(** ** bubble_sort sorts *)

Section BubbleSorts.
Context {A : Type} {Ord : PyOrd A} {Laws : PyOrdLaws A}.
Implicit Types (a b : list A) (i n : Z).

Lemma bubble_pass_spec a0 n a :
  0 < n < len a ->
  suffix_sorted a0 n a ->
  exists b, bubble_pass n a = Ok b /\ suffix_sorted a0 (n - 1) b.
Proof.
  intros Hn (Hlen & Hperm & Hsf & Hsp).
  unfold bubble_pass.
  destruct (for_each_range_inv
    (fun i b => suffix_sorted a0 n b /\ max_at b i) 0 n
    (fun i a =>
       do x <- getitem a i ;;
       do y <- getitem a (i + 1) ;;
       if py_gt x y then swapitems a (i + 1) i else Ok a)
    a) as (b & Eb & (Hl & Hp & Hf & Hs) & Hmax); try lia.
  - split; [repeat split; auto|].
    intros p x m Hp Hx Hm. assert (p = 0) by lia. subst p.
    assert (x = m) by congruence. subst. apply py_le_refl.
  - intros i b Hi ((Hl & Hp & Hf & Hs) & Hmax).
    destruct (proj2 (item_range b i) ltac:(lia)) as [x Hx].
    destruct (proj2 (item_range b (i + 1)) ltac:(lia)) as [y Hy].
    rewrite (getitem_Some _ _ _ Hx), (getitem_Some _ _ _ Hy). simpl.
    destruct (py_gt x y) eqn:G.
    + rewrite (swapitems_store _ _ _ _ _ Hy Hx).
      eexists; split; [reflexivity|].
      apply py_gt_lt in G.
      split; [repeat split|].
      * rewrite !len_store. exact Hl.
      * eapply perm_trans; [exact Hp|].
        apply (store_swap_Permutation b (i + 1) i y x Hy Hx).
      * intros p q u v Hp' Hq Hu Hv. store_cases; inj_some; use_inv.
      * intros p q u v Hp' Hq Hu Hv. store_cases; inj_some; use_inv.
      * intros p u m Hp' Hu Hm. store_cases; inj_some; use_inv.
    + eexists; split; [reflexivity|]. apply py_gt_false in G.
      split; [repeat split; auto|].
      intros p u m Hp' Hu Hm.
      assert (m = y) by congruence. subst m.
      destruct (Z.eq_dec p (i + 1)) as [->|Hne].
      * assert (u = y) by congruence. subst. apply py_le_refl.
      * apply (py_le_trans u x y); auto.
        apply (Hmax p u x); auto. lia.
  - exists b. split; [exact Eb|].
    replace (n - 1 + 1) with n by lia.
    repeat split; auto.
    + intros p q u v Hp' Hq Hu Hv.
      destruct (Z.eq_dec p n) as [->|Hne]; use_inv.
    + intros p q u v Hp' Hq Hu Hv.
      destruct (Z.eq_dec q n) as [->|Hne]; use_inv.
Qed.

Lemma suffix_sorted_init a : suffix_sorted a (len a - 1) a.
Proof.
  repeat split; auto.
  - intros p q x y Hp Hq Hx Hy. apply item_Some_range in Hy. lia.
  - intros p q x y Hp Hq Hx Hy. apply item_Some_range in Hy. lia.
Qed.

Lemma suffix_sorted_done a0 a :
  suffix_sorted a0 0 a -> Permutation a0 a /\ non_decreasing a.
Proof.
  intros (Hl & Hp & Hf & Hs). split; [exact Hp|].
  apply item_StronglySorted. intros i j x y Hij Hx Hy.
  pose proof (item_Some_range _ _ _ Hx).
  destruct (Z.eq_dec i 0) as [->|Hne].
  - apply (Hs 0 j); auto; lia.
  - apply (Hf i j); auto; lia.
Qed.

Lemma short_list_sorted a :
  len a <= 1 -> non_decreasing a.
Proof.
  intros H. apply item_StronglySorted. intros i j x y Hij Hx Hy.
  apply item_Some_range in Hx, Hy. lia.
Qed.

Lemma bubble_sort_sorts a :
  exists b, bubble_sort a = Ok b /\ Permutation a b /\ non_decreasing b.
Proof.
  unfold bubble_sort.
  destruct (Z.le_gt_cases (len a) 1) as [Hshort|Hlong].
  - rewrite range_down_nil by lia. simpl. exists a.
    repeat split; auto. now apply short_list_sorted.
  - destruct (for_each_range_down_inv
      (fun n b => suffix_sorted a n b) (len a - 1) bubble_pass a)
      as (b & Eb & Hb); try lia.
    + apply suffix_sorted_init.
    + intros n b Hn Hb. apply bubble_pass_spec; auto.
      destruct Hb as (Hl & _). lia.
    + exists b. split; [exact Eb|]. now apply suffix_sorted_done.
Qed.

Lemma short_bubble_sort_sorts a :
  exists b,
    short_bubble_sort a = Ok b /\ Permutation a b /\ non_decreasing b.
Proof.
  unfold short_bubble_sort. rewrite short_bubble_passes.
  apply bubble_sort_sorts.
Qed.

End BubbleSorts.

(** ** selection_sort sorts *)

Section SelectionSorts.
Context {A : Type} {Ord : PyOrd A} {Laws : PyOrdLaws A}.
Implicit Types (a b : list A) (i n : Z).

(** The search for the maximum of [a[0..n]]. *)
Lemma selection_search a n :
  0 < n < len a ->
  exists i_max,
    for_each (range 1 (n + 1) 1)
      (fun i i_max =>
         do x <- getitem a i ;;
         do y <- getitem a i_max ;;
         Ok (if py_gt x y then i else i_max))
      0 = Ok i_max /\
    0 <= i_max <= n /\ greatest_of a (n + 1) i_max.
Proof.
  intros Hn.
  destruct (for_each_range_inv
    (fun i im => 0 <= im < i /\ greatest_of a i im) 1 (n + 1)
    (fun i i_max =>
       do x <- getitem a i ;;
       do y <- getitem a i_max ;;
       Ok (if py_gt x y then i else i_max))
    0) as (im & E & Him & Hg); try lia.
  - split; [lia|]. intros p x m Hp Hx Hm.
    assert (p = 0) by lia. subst p.
    assert (x = m) by congruence. subst. apply py_le_refl.
  - intros i im Hi (Him & Hg).
    destruct (proj2 (item_range a i) ltac:(lia)) as [x Hx].
    destruct (proj2 (item_range a im) ltac:(lia)) as [y Hy].
    rewrite (getitem_Some _ _ _ Hx), (getitem_Some _ _ _ Hy). simpl.
    eexists; split; [reflexivity|].
    destruct (py_gt x y) eqn:G.
    + apply py_gt_lt in G. split; [lia|]. intros p u m Hp Hu Hm.
      assert (m = x) by congruence. subst m.
      destruct (Z.eq_dec p i) as [->|Hne].
      * assert (u = x) by congruence. subst. apply py_le_refl.
      * apply (py_le_trans u y x); auto. apply (Hg p u y); auto. lia.
    + apply py_gt_false in G. split; [lia|]. intros p u m Hp Hu Hm.
      assert (m = y) by congruence. subst m.
      destruct (Z.eq_dec p i) as [->|Hne].
      * assert (u = x) by congruence. subst. exact G.
      * apply (Hg p u y); auto. lia.
  - exists im. split; [exact E|]. split; [lia|exact Hg].
Qed.

Lemma selection_pass_spec a0 n a :
  0 < n < len a ->
  suffix_sorted a0 n a ->
  exists b, selection_pass n a = Ok b /\ suffix_sorted a0 (n - 1) b.
Proof.
  intros Hn (Hl & Hp & Hf & Hs). unfold selection_pass.
  destruct (selection_search a n Hn) as (im & E & Him & Hg).
  rewrite E. simpl.
  destruct (proj2 (item_range a im) ltac:(lia)) as [m Hm].
  destruct (proj2 (item_range a n) ltac:(lia)) as [z Hz].
  rewrite (swapitems_store _ _ _ _ _ Hm Hz).
  eexists; split; [reflexivity|].
  replace (n - 1 + 1) with n by lia.
  repeat split.
  - now rewrite !len_store.
  - eapply perm_trans; [exact Hp|].
    apply (store_swap_Permutation a im n m z Hm Hz).
  - intros p q u v Hp' Hq Hu Hv. store_cases; inj_some; use_inv.
  - intros p q u v Hp' Hq Hu Hv. store_cases; inj_some; use_inv.
Qed.

Lemma selection_sort_sorts a :
  exists b, selection_sort a = Ok b /\ Permutation a b /\ non_decreasing b.
Proof.
  unfold selection_sort.
  destruct (Z.le_gt_cases (len a) 1) as [Hshort|Hlong].
  - rewrite range_down_nil by lia. simpl. exists a.
    repeat split; auto. now apply short_list_sorted.
  - destruct (for_each_range_down_inv
      (fun n b => suffix_sorted a n b) (len a - 1) selection_pass a)
      as (b & Eb & Hb); try lia.
    + apply suffix_sorted_init.
    + intros n b Hn Hb. apply selection_pass_spec; auto.
      destruct Hb as (Hl & _). lia.
    + exists b. split; [exact Eb|]. now apply suffix_sorted_done.
Qed.

End SelectionSorts.

(** ** insertion_sort sorts *)

Lemma In_range_bounds i start stop step :
  0 < step -> In i (range start stop step) -> start <= i < stop.
Proof.
  intros Hs. remember (Z.to_nat (stop - start)) as n eqn:En.
  revert start En. induction n as [n IH] using lt_wf_ind.
  intros start En Hin.
  destruct (Z.le_gt_cases stop start) as [Hle|Hlt].
  - rewrite range_nil in Hin by lia. contradiction.
  - rewrite range_cons in Hin by lia. destruct Hin as [<-|Hin]; [lia|].
    apply (IH (Z.to_nat (stop - (start + step)))) in Hin; lia.
Qed.

(** Like [inj_some], leaving the indices alone. *)
Ltac inj_vals :=
  repeat match goal with
  | H : Some ?u = Some ?v |- _ =>
      injection H as H; first [subst u | subst v]
  end.

Section InsertionSorts.
Context {A : Type} {Ord : PyOrd A} {Laws : PyOrdLaws A}.
Implicit Types (a b : list A) (i j k n gap : Z).

(** One turn of the [for] loop of [insertion_sort]: it rearranges the
    list, and with gap 1 it extends the sorted prefix. *)
Lemma insertion_pass_spec fuel gap n a :
  0 < gap -> 0 <= n < len a -> (length a < fuel)%nat ->
  exists b,
    insertion_pass fuel gap n a = Ok b /\
    len b = len a /\ Permutation a b /\
    (gap = 1 -> sorted_upto a n -> sorted_upto b (n + 1)).
Proof.
  intros Hgap Hn Hfuel. unfold insertion_pass.
  destruct (proj2 (item_range a n) ltac:(lia)) as [value Hv].
  rewrite (getitem_Some _ _ _ Hv). simpl.
  destruct (while_inv
    (fun s : list A * Z =>
       let '(b, j) := s in
       len b = len a /\ 0 <= j <= n /\
       Permutation a (store b j value) /\
       (gap = 1 -> sorted_upto a n -> shifted b j n value))
    (fun s => Z.to_nat (snd s))
    (fun s : list A * Z =>
       let '(a, j) := s in
       if j >=? gap
       then do x <- getitem a (j - gap) ;; Ok (py_gt x value)
       else Ok false)
    (fun s : list A * Z =>
       let '(a, j) := s in
       do x <- getitem a (j - gap) ;;
       do a <- setitem a j x ;;
       Ok (a, j - gap))
    fuel (a, n)) as ([b j] & E & (Hl & Hj & Hp & Hsh) & Hexit).
  - split; [reflexivity|]. split; [lia|]. split.
    + rewrite (store_same _ _ _ Hv). apply Permutation_refl.
    + intros _ Hs. split.
      * intros p q x y Hp Hpq Hq Hpn Hqn Hx Hy. use_inv.
      * intros; lia.
  - intros [b j] (Hl & Hj & Hp & Hsh).
    rewrite Z.geb_leb. destruct (Z.leb_spec gap j) as [Hge|Hlt].
    + destruct (proj2 (item_range b (j - gap)) ltac:(lia)) as [w Hw].
      rewrite (getitem_Some _ _ _ Hw). simpl.
      eexists; split; [reflexivity|]. intros G.
      rewrite setitem_store by lia. simpl.
      eexists; split; [reflexivity|].
      split; [|simpl; lia].
      split; [now rewrite len_store|]. split; [lia|]. split.
      * eapply perm_trans; [exact Hp|].
        assert (Hc1 : item (store b j value) j = Some value)
          by (apply item_store_same; lia).
        assert (Hc2 : item (store b j value) (j - gap) = Some w)
          by (rewrite item_store_other by lia; exact Hw).
        pose proof (store_swap_Permutation _ _ _ _ _ Hc1 Hc2) as Hsw.
        rewrite store_store in Hsw by lia. exact Hsw.
      * intros -> Hs. destruct (Hsh eq_refl Hs) as [H1 H2].
        apply py_gt_lt in G. split.
        -- intros p q x y Hp' Hpq Hq Hpn Hqn Hx Hy.
           store_cases; inj_vals.
           ++ apply (H1 p (j - 1)); auto; lia.
           ++ apply (H1 (j - 1) q); auto; lia.
           ++ apply (H1 p q); auto; lia.
        -- intros q y Hjq Hq Hy. store_cases; inj_vals.
           ++ exact G.
           ++ apply (H2 q); auto; lia.
    + eexists; split; [reflexivity|]. discriminate.
  - simpl. unfold len in Hn. lia.
  - rewrite E. simpl. rewrite setitem_store by lia.
    eexists; split; [reflexivity|].
    split; [now rewrite len_store|]. split; [exact Hp|].
    intros -> Hs. destruct (Hsh eq_refl Hs) as [H1 H2].
    assert (Hlow : forall p x, 0 <= p < j -> item b p = Some x ->
                               py_le x value = true).
    { intros p x Hpj Hx.
      rewrite Z.geb_leb in Hexit.
      destruct (Z.leb_spec 1 j) as [Hge|Hlt]; [|lia].
      destruct (proj2 (item_range b (j - 1)) ltac:(lia)) as [w Hw].
      rewrite (getitem_Some _ _ _ Hw) in Hexit. simpl in Hexit.
      injection Hexit as G. apply py_gt_false in G.
      destruct (Z.eq_dec p (j - 1)) as [->|Hne].
      - assert (x = w) by congruence. subst. exact G.
      - apply (py_le_trans x w value); auto.
        apply (H1 p (j - 1)); auto; lia. }
    intros p q x y Hp' Hpq Hq Hx Hy. store_cases; inj_vals.
    + apply (Hlow p); auto; lia.
    + apply (H2 q); auto; lia.
    + apply (H1 p q); auto; lia.
Qed.

Lemma insertion_sort_sorts fuel a :
  (length a < fuel)%nat ->
  exists b,
    insertion_sort fuel a 0 1 = Ok b /\
    Permutation a b /\ non_decreasing b.
Proof.
  intros Hfuel. unfold insertion_sort, py_range. simpl.
  destruct (Z.le_gt_cases (len a) 1) as [Hshort|Hlong].
  - rewrite range_nil by lia. simpl. exists a.
    repeat split; auto. now apply short_list_sorted.
  - destruct (for_each_range_inv
      (fun k b => len b = len a /\ Permutation a b /\ sorted_upto b k)
      1 (len a) (insertion_pass fuel 1) a) as (b & Eb & Hl & Hp & Hs);
      try lia.
    + repeat split; auto. intros p q x y; intros; lia.
    + intros k b Hk (Hl & Hp & Hs).
      destruct (insertion_pass_spec fuel 1 k b) as (c & Ec & Hlc & Hpc & Hsc);
        try lia.
      { unfold len in Hl. lia. }
      exists c. split; [exact Ec|]. split; [lia|].
      split; [eapply perm_trans; eauto|]. now apply Hsc.
    + exists b. split; [exact Eb|]. split; [exact Hp|].
      apply item_StronglySorted. intros i j x y Hij Hx Hy.
      pose proof (item_Some_range _ _ _ Hx).
      pose proof (item_Some_range _ _ _ Hy).
      apply (Hs i j); auto; lia.
Qed.

(** With any positive gap and any starting offset [insertion_sort]
    returns a rearrangement of the list. *)
Lemma insertion_sort_permutes fuel a start gap :
  0 < gap -> 0 <= start -> (length a < fuel)%nat ->
  exists b,
    insertion_sort fuel a start gap = Ok b /\
    len b = len a /\ Permutation a b.
Proof.
  intros Hgap Hstart Hfuel. unfold insertion_sort, py_range.
  destruct (Z.eqb_spec gap 0); [lia|]. simpl.
  destruct (for_each_preserves
    (fun b => len b = len a /\ Permutation a b)
    (range (start + gap) (len a) gap) (insertion_pass fuel gap) a)
    as (b & Eb & Hl & Hp).
  - split; auto.
  - intros i b Hi (Hl & Hp).
    apply In_range_bounds in Hi; [|lia].
    destruct (insertion_pass_spec fuel gap i b) as (c & Ec & Hlc & Hpc & _);
      try lia.
    { unfold len in Hl. lia. }
    exists c. split; [exact Ec|]. split; [lia|].
    eapply perm_trans; eauto.
  - exists b. auto.
Qed.

End InsertionSorts.

(** ** shell_sort sorts *)

Section ShellSorts.
Context {A : Type} {Ord : PyOrd A} {Laws : PyOrdLaws A}.
Implicit Types (a b : list A) (i j k n gap : Z).

Lemma shell_sublists_permutes fuel a gap :
  0 < gap -> (length a < fuel)%nat ->
  exists b,
    shell_sublists fuel a gap (len a / gap) = Ok b /\
    len b = len a /\ Permutation a b.
Proof.
  intros Hgap Hfuel. unfold shell_sublists.
  pose proof (len_nonneg a) as Hn.
  assert (Hq : 0 <= len a / gap) by (apply Z.div_pos; lia).
  destruct (for_each_preserves
    (fun b => len b = len a /\ Permutation a b)
    (range 0 (len a / gap + 1) 1)
    (fun i a0 => let start := len a / gap * i in
                 insertion_sort fuel a0 start gap)
    a) as (b & Eb & Hl & Hp).
  - split; auto.
  - intros i b Hi (Hl & Hp). apply In_range_up in Hi.
    destruct (insertion_sort_permutes fuel b (len a / gap * i) gap)
      as (c & Ec & Hlc & Hpc); try lia.
    { unfold len in Hl. lia. }
    exists c. split; [exact Ec|]. split; [lia|].
    eapply perm_trans; eauto.
  - exists b. auto.
Qed.

Lemma shell_sort_sorts fuel a gap :
  0 < gap -> (length a < fuel)%nat ->
  exists b,
    shell_sort fuel a gap = Ok b /\ Permutation a b /\ non_decreasing b.
Proof.
  intros Hgap Hfuel. unfold shell_sort, floordiv.
  destruct (Z.eqb_spec gap 0); [lia|]. simpl.
  destruct (shell_sublists_permutes fuel a gap Hgap Hfuel)
    as (b & Eb & Hl & Hp).
  rewrite Eb. simpl.
  destruct (insertion_sort_sorts fuel b) as (c & Ec & Hpc & Hs).
  { unfold len in Hl. lia. }
  exists c. split; [exact Ec|]. split; [|exact Hs].
  eapply perm_trans; eauto.
Qed.

(** On a list in order a pass of [insertion_sort] changes nothing. *)
Lemma insertion_pass_sorted fuel k a :
  non_decreasing a -> 0 < k < len a -> (0 < fuel)%nat ->
  insertion_pass fuel 1 k a = Ok a.
Proof.
  intros Hs Hk Hfuel. unfold insertion_pass.
  destruct (proj2 (item_range a k) ltac:(lia)) as [value Hv].
  destruct (proj2 (item_range a (k - 1)) ltac:(lia)) as [w Hw].
  rewrite (getitem_Some _ _ _ Hv). simpl.
  destruct fuel as [|fuel]; [lia|]. simpl.
  rewrite Z.geb_leb. destruct (Z.leb_spec 1 k); [|lia].
  rewrite (getitem_Some _ _ _ Hw). simpl.
  assert (G : py_gt w value = false).
  { rewrite py_gt_le.
    rewrite (non_decreasing_item a (k - 1) k w value); auto. lia. }
  rewrite G. simpl. rewrite setitem_store by lia.
  now rewrite (store_same _ _ _ Hv).
Qed.

Lemma insertion_sort_sorted fuel a :
  non_decreasing a -> (0 < fuel)%nat -> insertion_sort fuel a 0 1 = Ok a.
Proof.
  intros Hs Hfuel. unfold insertion_sort, py_range. simpl.
  destruct (for_each_preserves (fun b => b = a)
    (range 1 (len a) 1) (insertion_pass fuel 1) a) as (b & Eb & ->);
    auto.
  intros i b Hi ->. apply In_range_up in Hi.
  exists a. split; [|reflexivity]. apply insertion_pass_sorted; auto. lia.
Qed.

(** With gap 1 [shell_sort] returns what [insertion_sort] returns. *)
Lemma shell_sort_gap_1 fuel a :
  (length a < fuel)%nat ->
  shell_sort fuel a 1 = insertion_sort fuel a 0 1.
Proof.
  intros Hfuel.
  destruct (insertion_sort_sorts fuel a Hfuel) as (b & Eb & Hp & Hs).
  rewrite Eb. unfold shell_sort, floordiv, shell_sublists. simpl.
  rewrite Z.div_1_r.
  pose proof (len_nonneg a) as Hn.
  rewrite range_cons by lia. simpl.
  replace (len a * 0) with 0 by lia. rewrite Eb. simpl.
  assert (Hl : len b = len a) by (symmetry; now apply Permutation_len).
  destruct (for_each_preserves (fun c => c = b)
    (range (0 + 1) (len a + 1) 1)
    (fun i a0 => insertion_sort fuel a0 (len a * i) 1) b)
    as (c & Ec & ->); auto.
  - intros i c Hi ->. apply In_range_up in Hi.
    exists b. split; [|reflexivity].
    unfold insertion_sort, py_range. simpl.
    rewrite range_nil; [reflexivity|lia|]. rewrite Hl. nia.
  - change (0 + 1) with 1 in Ec. rewrite Ec. simpl.
    apply insertion_sort_sorted; auto. lia.
Qed.

End ShellSorts.

(** C6: with the list [[5, 9, 6, 1]] and gap 2, [len(a) // gap] is 2
    and the loop "Sort the sub-lists" runs [insertion_sort] from the
    offsets 0, 2 and 4, which all belong to the residue class 0: the
    list is unchanged after the loop and its sub-sequence of odd
    indices, 9 then 1, is not sorted.  Only the last pass with gap 1
    puts the list in order. *)
Theorem shell_sublists_skips_class :
  floordiv (len [5; 9; 6; 1]) 2 = Ok 2 /\
  map (fun i => 2 * i) (range 0 (2 + 1) 1) = [0; 2; 4] /\
  shell_sublists 5 [5; 9; 6; 1] 2 2 = Ok [5; 9; 6; 1] /\
  ~ residue_class_sorted [5; 9; 6; 1] 2 1 /\
  shell_sort 5 [5; 9; 6; 1] 2 = Ok [1; 5; 6; 9].
Proof.
  repeat split; try reflexivity.
  intros H. specialize (H 1 3 9 1). simpl in H.
  discriminate H; auto; lia.
Qed.

(** ** merge_sort sorts *)

Section SliceFacts.
Context {A : Type}.
Implicit Types (a b l : list A) (i k : Z).

Lemma skipn_nth_error l (n : nat) (x : A) :
  nth_error l n = Some x -> skipn n l = x :: skipn (S n) l.
Proof.
  revert n. induction l as [|z l IH]; intros [|n] H; simpl in *;
    try discriminate.
  - now injection H as ->.
  - now apply IH.
Qed.

Lemma skipn_item l i (x : A) :
  item l i = Some x ->
  skipn (Z.to_nat i) l = x :: skipn (Z.to_nat (i + 1)) l.
Proof.
  intros H. pose proof (item_Some_range _ _ _ H).
  replace (Z.to_nat (i + 1)) with (S (Z.to_nat i)) by lia.
  apply skipn_nth_error. now apply item_nth_error.
Qed.

Lemma firstn_update_snoc b (n : nat) (v : A) :
  (n < length b)%nat ->
  firstn (S n) (update b n v) = firstn n b ++ [v].
Proof.
  revert n. induction b as [|z b IH]; intros [|n] H; simpl in *;
    try lia; try reflexivity.
  f_equal. apply IH. lia.
Qed.

Lemma firstn_store_snoc b k (v : A) :
  0 <= k < len b ->
  firstn (Z.to_nat (k + 1)) (store b k v) = firstn (Z.to_nat k) b ++ [v].
Proof.
  intros H. unfold store, len in *.
  replace (Z.to_nat (k + 1)) with (S (Z.to_nat k)) by lia.
  apply firstn_update_snoc. lia.
Qed.

Lemma skipn_len l : skipn (Z.to_nat (len l)) l = [].
Proof. unfold len. rewrite Nat2Z.id. apply skipn_all. Qed.

Lemma firstn_len l : firstn (Z.to_nat (len l)) l = l.
Proof. unfold len. rewrite Nat2Z.id. apply firstn_all. Qed.

End SliceFacts.

Section MergeFacts.
Context {A : Type} {Ord : PyOrd A}.
Implicit Types (a b left right : list A) (i j k : Z).

Lemma merged_nil_r left : merged left [] = left.
Proof. now destruct left. Qed.

Lemma merged_cons_cons x left y right :
  merged (x :: left) (y :: right) =
  if py_lt x y then x :: merged left (y :: right)
  else y :: merged (x :: left) right.
Proof. reflexivity. Qed.

Lemma merged_Permutation left right :
  Permutation (left ++ right) (merged left right).
Proof.
  revert right. induction left as [|x left IHl]; intros right.
  - apply Permutation_refl.
  - induction right as [|y right IHr].
    + rewrite app_nil_r. apply Permutation_refl.
    + rewrite merged_cons_cons. destruct (py_lt x y).
      * simpl. apply perm_skip. apply IHl.
      * eapply perm_trans; [|apply perm_skip, IHr].
        apply Permutation_sym.
        apply (Permutation_middle (x :: left) right y).
Qed.

(** The loop "Compare elements between left and right side". *)
Lemma merge_compare_spec fuel left right a :
  len a = len left + len right -> (length a < fuel)%nat ->
  exists s,
    merge_compare fuel left right (a, 0, 0, 0) = Ok s /\
    completing left right (len a) s.
Proof.
  intros Hlen Hfuel. unfold merge_compare.
  pose proof (len_nonneg left). pose proof (len_nonneg right).
  destruct (while_inv (merging left right (len a))
    (fun s : merge_state =>
       let '(_, _, _, k) := s in Z.to_nat (len a - k))
    (fun s : merge_state =>
       let '(_, i, j, _) := s in
       Ok ((i <? len left) && (j <? len right)))
    (merge_step left right) fuel (a, 0, 0, 0))
    as ([[[b i] j] k] & E & (Hl & Hi & Hj & Hk & Hm) & Hexit).
  - simpl. repeat split; auto; lia.
  - intros [[[b i] j] k] (Hl & Hi & Hj & Hk & Hm).
    eexists; split; [reflexivity|]. intros Hc.
    apply andb_true_iff in Hc as [Hil Hjr].
    apply Z.ltb_lt in Hil, Hjr.
    destruct (proj2 (item_range left i) ltac:(lia)) as [x Hx].
    destruct (proj2 (item_range right j) ltac:(lia)) as [y Hy].
    unfold merge_step.
    rewrite (getitem_Some _ _ _ Hx), (getitem_Some _ _ _ Hy). simpl.
    rewrite (skipn_item _ _ _ Hx), (skipn_item _ _ _ Hy) in Hm.
    rewrite merged_cons_cons in Hm.
    destruct (py_lt x y).
    + rewrite setitem_store by lia. simpl.
      eexists; split; [reflexivity|]. split; [|lia].
      simpl. rewrite len_store. repeat split; try lia.
      rewrite firstn_store_snoc by lia. rewrite <- app_assoc. simpl.
      rewrite (skipn_item _ _ _ Hy). exact Hm.
    + rewrite setitem_store by lia. simpl.
      eexists; split; [reflexivity|]. split; [|lia].
      simpl. rewrite len_store. repeat split; try lia.
      rewrite firstn_store_snoc by lia. rewrite <- app_assoc. simpl.
      rewrite (skipn_item _ _ _ Hx). exact Hm.
  - unfold len. lia.
  - exists (b, i, j, k). split; [exact E|].
    simpl. repeat split; try lia.
    injection Hexit as Hexit. apply andb_false_iff in Hexit.
    rewrite <- Hm. f_equal.
    destruct Hexit as [Hc|Hc]; apply Z.ltb_ge in Hc.
    + replace i with (len left) by lia. rewrite skipn_len. reflexivity.
    + replace j with (len right) by lia. rewrite skipn_len.
      rewrite merged_nil_r. now rewrite app_nil_r.
Qed.

(** The loop "Complete the left side". *)
Lemma merge_left_spec fuel left right n s :
  completing left right n s -> n = len left + len right ->
  (Z.to_nat n < fuel)%nat ->
  exists b j k,
    merge_left fuel left s = Ok (b, len left, j, k) /\
    completing left right n (b, len left, j, k).
Proof.
  intros Hs Hn Hfuel. unfold merge_left.
  destruct (while_inv (completing left right n)
    (fun s : merge_state =>
       let '(_, _, _, k) := s in Z.to_nat (n - k))
    (fun s : merge_state => let '(_, i, _, _) := s in Ok (i <? len left))
    (fun s : merge_state =>
       let '(a, i, j, k) := s in
       do x <- getitem left i ;;
       do a <- setitem a k x ;;
       Ok (a, i + 1, j, k + 1))
    fuel s) as ([[[b i] j] k] & E & (Hl & Hi & Hj & Hk & Hm) & Hexit);
    auto.
  - intros [[[b i] j] k] (Hl & Hi & Hj & Hk & Hm).
    eexists; split; [reflexivity|]. intros Hc. apply Z.ltb_lt in Hc.
    destruct (proj2 (item_range left i) ltac:(lia)) as [x Hx].
    rewrite (getitem_Some _ _ _ Hx). simpl.
    rewrite setitem_store by lia. simpl.
    eexists; split; [reflexivity|]. split; [|lia].
    simpl. rewrite len_store. repeat split; try lia.
    rewrite firstn_store_snoc by lia. rewrite <- app_assoc. simpl.
    rewrite (skipn_item _ _ _ Hx) in Hm. exact Hm.
  - destruct s as [[[b i] j] k]. destruct Hs as (Hl & Hi & Hj & Hk & Hm).
    lia.
  - injection Hexit as Hexit. apply Z.ltb_ge in Hexit.
    assert (i = len left) by lia. subst i.
    exists b, j, k. split; [exact E|]. simpl. repeat split; auto; lia.
Qed.

(** The loop "Complete the right side". *)
Lemma merge_right_spec fuel left right n b j k :
  completing left right n (b, len left, j, k) ->
  n = len left + len right -> (Z.to_nat n < fuel)%nat ->
  exists i' j' k',
    merge_right fuel right (b, len left, j, k)
      = Ok (merged left right, i', j', k').
Proof.
  intros Hs Hn Hfuel. unfold merge_right.
  destruct (while_inv
    (fun s : merge_state =>
       completing left right n s /\ snd (fst (fst s)) = len left)
    (fun s : merge_state =>
       let '(_, _, _, k) := s in Z.to_nat (n - k))
    (fun s : merge_state => let '(_, _, j, _) := s in Ok (j <? len right))
    (fun s : merge_state =>
       let '(a, i, j, k) := s in
       do y <- getitem right j ;;
       do a <- setitem a k y ;;
       Ok (a, i, j + 1, k + 1))
    fuel (b, len left, j, k))
    as ([[[c i'] j'] k'] & E & ((Hl & Hi & Hj & Hk & Hm) & Hi') & Hexit);
    auto.
  - intros [[[c i'] j'] k'] ((Hl & Hi & Hj & Hk & Hm) & Hi').
    simpl in Hi'. subst i'.
    eexists; split; [reflexivity|]. intros Hc. apply Z.ltb_lt in Hc.
    destruct (proj2 (item_range right j') ltac:(lia)) as [y Hy].
    rewrite (getitem_Some _ _ _ Hy). simpl.
    rewrite setitem_store by lia. simpl.
    eexists; split; [reflexivity|]. split; [|lia].
    split; [|reflexivity].
    simpl. rewrite len_store. repeat split; try lia.
    rewrite firstn_store_snoc by lia. rewrite <- app_assoc. simpl.
    rewrite (skipn_item _ _ _ Hy) in Hm.
    rewrite skipn_len in *. exact Hm.
  - destruct Hs as (Hl & Hi & Hj & Hk & Hm). lia.
  - simpl in Hi'. subst i'.
    injection Hexit as Hexit. apply Z.ltb_ge in Hexit.
    assert (j' = len right) by lia. subst j'.
    exists (len left), (len right), k'.
    etransitivity; [exact E|]. repeat f_equal.
    rewrite !skipn_len, !app_nil_r in Hm. rewrite <- Hm.
    replace k' with (len c) by lia. now rewrite firstn_len.
Qed.

(** The three loops write the merged list over [a]. *)
Lemma merge_merged fuel left right a :
  len a = len left + len right -> (length a < fuel)%nat ->
  merge fuel left right a = Ok (merged left right).
Proof.
  intros Hlen Hfuel. unfold merge.
  destruct (merge_compare_spec fuel left right a Hlen Hfuel)
    as (s & E1 & Hs1).
  rewrite E1. simpl.
  assert (Hf : (Z.to_nat (len a) < fuel)%nat) by (unfold len; lia).
  destruct (merge_left_spec fuel left right (len a) s Hs1 Hlen Hf)
    as (b & j & k & E2 & Hs2).
  rewrite E2. simpl.
  destruct (merge_right_spec fuel left right (len a) b j k Hs2 Hlen Hf)
    as (i' & j' & k' & E3).
  rewrite E3. reflexivity.
Qed.

Context {Laws : PyOrdLaws A}.

Lemma merged_sorted left right :
  non_decreasing left -> non_decreasing right ->
  non_decreasing (merged left right).
Proof.
  unfold non_decreasing.
  revert right. induction left as [|x left IHl]; intros right Hl Hr.
  - exact Hr.
  - induction right as [|y right IHr].
    + exact Hl.
    + rewrite merged_cons_cons.
      apply StronglySorted_inv in Hl as [Hl Hxl].
      pose proof Hr as Hr0.
      apply StronglySorted_inv in Hr as [Hr Hyr].
      rewrite Forall_forall in Hxl, Hyr.
      destruct (py_lt x y) eqn:E.
      * apply py_lt_true in E. constructor; [now apply IHl|].
        eapply Permutation_Forall; [apply merged_Permutation|].
        apply Forall_forall. intros z Hz.
        apply in_app_or in Hz as [Hz|[<-|Hz]]; auto.
        apply (py_le_trans x y z); auto.
      * apply py_lt_false in E. constructor; [now apply IHr|].
        eapply Permutation_Forall; [apply merged_Permutation|].
        apply Forall_forall. intros z Hz.
        apply in_app_or in Hz as [[<-|Hz]|Hz]; auto.
        apply (py_le_trans y x z); auto.
Qed.

Lemma merge_sort_sorts fuel a :
  (length a < fuel)%nat ->
  exists b, merge_sort fuel a = Ok b /\ Permutation a b /\ non_decreasing b.
Proof.
  revert a. induction fuel as [|fuel IH]; intros a Hfuel; [lia|].
  simpl. rewrite Z.gtb_ltb.
  destruct (Z.ltb_spec 1 (len a)) as [Hlong|Hshort].
  - assert (Hh : 0 < len a / 2 < len a).
    { split; [apply Z.div_str_pos; lia|apply Z.div_lt; lia]. }
    assert (Hb : slice_bound a (len a / 2) = Z.to_nat (len a / 2)).
    { unfold slice_bound. destruct (Z.ltb_spec (len a / 2) 0); lia. }
    unfold slice_to, slice_from. rewrite Hb.
    set (h := Z.to_nat (len a / 2)).
    assert (Hhl : (h < length a)%nat) by (unfold h, len in *; lia).
    assert (Hh0 : (0 < h)%nat) by (unfold h; lia).
    destruct (IH (firstn h a)) as (left & El & Hpl & Hsl).
    { rewrite length_firstn. lia. }
    destruct (IH (skipn h a)) as (right & Er & Hpr & Hsr).
    { rewrite length_skipn. lia. }
    rewrite El, Er. simpl.
    assert (Hperm : Permutation a (left ++ right)).
    { rewrite <- (firstn_skipn h a) at 1. now apply Permutation_app. }
    rewrite merge_merged.
    + exists (merged left right). split; [reflexivity|]. split.
      * eapply perm_trans; [exact Hperm|]. apply merged_Permutation.
      * now apply merged_sorted.
    + apply Permutation_len in Hperm. rewrite Hperm.
      unfold len. rewrite length_app. lia.
    + lia.
  - exists a. repeat split; auto. apply short_list_sorted. lia.
Qed.

End MergeFacts.

(** C3, as amended.  In the merge step of [merge_sort] the element of
    the left half is copied when it is strictly smaller than the front
    of the right half, and only then; in every other case, and so
    whenever the two fronts are equal, the element of the right half
    is copied first.  So merge sort does not keep the relative order
    of equal elements of the two halves: [[1, 1.0]] becomes
    [[1.0, 1]]. *)
Theorem merge_step_ties_right :
  (forall (A : Type) (Ord : PyOrd A), PyOrdLaws A ->
   forall (left right a : list A) (i j k : Z) (x y : A),
     getitem left i = Ok x -> getitem right j = Ok y ->
     0 <= k < len a ->
     (py_lt x y = true ->
      merge_step left right (a, i, j, k)
        = Ok (store a k x, i + 1, j, k + 1)) /\
     (py_lt x y = false ->
      merge_step left right (a, i, j, k)
        = Ok (store a k y, i, j + 1, k + 1)) /\
     (py_eq x y = true ->
      merge_step left right (a, i, j, k)
        = Ok (store a k y, i, j + 1, k + 1)) /\
     (merge_step left right (a, i, j, k)
        = Ok (store a k x, i + 1, j, k + 1) ->
      py_lt x y = true /\ py_eq x y = false))
  /\
  (forall fuel : nat, (2 < fuel)%nat ->
     merge_sort fuel [PyInt 1; PyFloat 1%Q] = Ok [PyFloat 1%Q; PyInt 1]).
Proof.
  split.
  - intros A Ord Laws left right a i j k x y Hx Hy Hk.
    assert (Hlt : py_lt x y = true ->
                  merge_step left right (a, i, j, k)
                  = Ok (store a k x, i + 1, j, k + 1)).
    { intros E. unfold merge_step. rewrite Hx, Hy. simpl. rewrite E.
      now rewrite setitem_store by lia. }
    assert (Hge : py_lt x y = false ->
                  merge_step left right (a, i, j, k)
                  = Ok (store a k y, i, j + 1, k + 1)).
    { intros E. unfold merge_step. rewrite Hx, Hy. simpl. rewrite E.
      now rewrite setitem_store by lia. }
    split; [exact Hlt|]. split; [exact Hge|]. split.
    + intros E. apply Hge. exact (py_eq_lt_false x y E).
    + intros E. destruct (py_lt x y) eqn:L.
      * split; [reflexivity|].
        destruct (py_eq x y) eqn:Q; [|reflexivity].
        rewrite (py_eq_lt_false x y Q) in L. discriminate L.
      * rewrite (Hge eq_refl) in E. injection E as _ Hi _. lia.
  - intros fuel Hfuel.
    destruct fuel as [|[|[|fuel]]]; try lia. reflexivity.
Qed.

Lemma merge_step_ties_right_witness :
  (py_lt 1 1 = true ->
   merge_step [1] [1] ([0; 0], 0, 0, 0) = Ok (store [0; 0] 0 1, 0 + 1, 0, 0 + 1))
  /\
  (py_lt 1 1 = false ->
   merge_step [1] [1] ([0; 0], 0, 0, 0) = Ok (store [0; 0] 0 1, 0, 0 + 1, 0 + 1))
  /\
  (py_eq 1 1 = true ->
   merge_step [1] [1] ([0; 0], 0, 0, 0) = Ok (store [0; 0] 0 1, 0, 0 + 1, 0 + 1))
  /\
  (merge_step [1] [1] ([0; 0], 0, 0, 0) = Ok (store [0; 0] 0 1, 0 + 1, 0, 0 + 1) ->
   py_lt 1 1 = true /\ py_eq 1 1 = false).
Proof.
  apply (proj1 merge_step_ties_right Z PyOrd_Z PyOrdLaws_Z
           [1] [1] [0; 0] 0 0 0 1 1).
  - reflexivity.
  - reflexivity.
  - change (0 <= 0 < 2). lia.
Defined.

(** C3 as stated fails: with the left half [[1]] and the right half
    [[1.0]] the fronts are equal, and the step copies the right front
    and advances the right cursor; sorting [[1, 1.0]] exchanges the two
    equal elements. *)
Lemma merge_tie_not_left :
  getitem [PyInt 1] 0 = Ok (PyInt 1) /\
  getitem [PyFloat 1%Q] 0 = Ok (PyFloat 1%Q) /\
  py_eq (PyInt 1) (PyFloat 1%Q) = true /\
  ~ left_copied_first [PyInt 1] [PyFloat 1%Q] [PyInt 1; PyFloat 1%Q] 0 0 0 /\
  merge_sort 3 [PyInt 1; PyFloat 1%Q] = Ok [PyFloat 1%Q; PyInt 1].
Proof.
  repeat split; try reflexivity.
  intros (x & _ & H). vm_compute in H. discriminate H.
Qed.

(** ** partition: the pivot *)

Lemma pivot_index_floor fact start end_ :
  0 <= start -> start < end_ -> (0 <= fact)%Q ->
  pivot_index fact start end_
  = Qfloor (fact * inject_Z (end_ - start)) + start.
Proof.
  intros Hs Hlt Hf. destruct fact as [n m].
  unfold Qle in Hf. simpl in Hf.
  unfold pivot_index, py_int, Qfloor, Qmult, Qplus, inject_Z. simpl.
  rewrite !Pos.mul_1_r, !Z.mul_1_r.
  assert (Hn : 0 <= n) by lia.
  assert (Hnd : 0 <= n * (end_ - start)) by nia.
  rewrite Z.quot_div_nonneg by nia.
  rewrite Z.div_add by lia. reflexivity.
Qed.

Lemma pivot_index_bounds fact start end_ :
  0 <= start -> start < end_ -> (0 <= fact)%Q -> (fact <= 1)%Q ->
  start <= pivot_index fact start end_ <= end_.
Proof.
  intros Hs Hlt Hf0 Hf1. rewrite pivot_index_floor by auto.
  destruct fact as [n m]. unfold Qle in Hf0, Hf1. simpl in Hf0, Hf1.
  unfold Qfloor, Qmult, inject_Z. simpl. rewrite Pos.mul_1_r.
  assert (H0 : 0 <= n * (end_ - start) / Z.pos m)
    by (apply Z.div_pos; nia).
  assert (H1 : n * (end_ - start) / Z.pos m <= end_ - start).
  { apply Z.div_le_upper_bound; nia. }
  lia.
Qed.

(** *** Rounding to binary64 *)

Lemma Qabs_nonneg_eq (x : Q) : (0 <= x)%Q -> Qabs x = x.
Proof.
  destruct x as [n d]. unfold Qle. simpl. intros Hx.
  rewrite Z.abs_eq by lia. reflexivity.
Qed.

Lemma two_power_pos (e : Z) : (0 < 2 ^ e)%Q.
Proof. apply Qpower_0_lt. reflexivity. Qed.

Lemma two_power_Z (e : Z) : 0 <= e -> (2 ^ e == inject_Z (2 ^ e))%Q.
Proof. intros He. symmetry. exact (Zpower_Qpower 2 e He). Qed.

Lemma Qlog2_lower (x : Q) : (0 < x)%Q -> (2 ^ Qlog2 x <= x)%Q.
Proof.
  intros Hx. unfold Qlog2.
  set (a := Z.log2 (Qnum x)). set (b := Z.log2 (Zpos (Qden x))).
  destruct (Qle_bool (2 ^ (a - b)) x) eqn:E.
  - now apply Qle_bool_iff.
  - replace (a - b - 1) with (a - (b + 1)) by lia.
    assert (Ha : 0 <= a) by apply Z.log2_nonneg.
    assert (Hb : 0 <= b) by apply Z.log2_nonneg.
    rewrite Qpower_minus by discriminate.
    rewrite (two_power_Z a Ha), (two_power_Z (b + 1)) by lia.
    destruct x as [n d]. unfold Qlt in Hx. simpl in Hx, a, b.
    assert (Hn : 0 < n) by lia.
    assert (Hla : 2 ^ a <= n) by (apply Z.log2_spec; exact Hn).
    assert (Hlb : Z.pos d < 2 ^ (b + 1)).
    { unfold b.
      replace (Z.log2 (Z.pos d) + 1)
        with (Z.succ (Z.log2 (Z.pos d))) by lia.
      apply Z.log2_spec. lia. }
    apply Qle_shift_div_r.
    + unfold Qlt. simpl. lia.
    + unfold Qle, Qmult, inject_Z. simpl.
      assert (0 < 2 ^ a) by (apply Z.pow_pos_nonneg; lia).
      nia.
Qed.

Lemma py_round_ge (q : Q) (K : Z) : (inject_Z K <= q)%Q -> K <= py_round q.
Proof.
  intros H. apply Qfloor_resp_le in H. rewrite Qfloor_Z in H.
  unfold py_round.
  destruct (q - inject_Z (Qfloor q) ?= 1 # 2)%Q; try lia.
  destruct (Z.even (Qfloor q)); lia.
Qed.

Lemma py_round_le (q : Q) (K : Z) : (q <= inject_Z K)%Q -> py_round q <= K.
Proof.
  intros H. pose proof (Qfloor_le q) as Hf.
  assert (Hfk : Qfloor q <= K).
  { apply Qfloor_resp_le in H. now rewrite Qfloor_Z in H. }
  destruct (Z.eq_dec (Qfloor q) K) as [E|E].
  - assert (Hq : (q == inject_Z K)%Q).
    { apply Qle_antisym; [exact H|]. now rewrite <- E. }
    unfold py_round. rewrite E.
    assert (Hc : (q - inject_Z K ?= 1 # 2)%Q = Lt).
    { rewrite <- Qlt_alt. rewrite Hq. unfold Qminus.
      rewrite Qplus_opp_r. reflexivity. }
    rewrite Hc. lia.
  - unfold py_round.
    destruct (q - inject_Z (Qfloor q) ?= 1 # 2)%Q; try lia.
    destruct (Z.even (Qfloor q)); lia.
Qed.

Lemma scale_down_Z (k e : Z) :
  e <= 0 -> (inject_Z k / 2 ^ e == inject_Z (k * 2 ^ (- e)))%Q.
Proof.
  intros He. rewrite inject_Z_mult.
  rewrite <- (two_power_Z (- e)) by lia.
  rewrite Qpower_opp. reflexivity.
Qed.

Lemma scale_up_Z (K e : Z) (k : Z) :
  e <= 0 -> K = k * 2 ^ (- e) -> (inject_Z K * 2 ^ e == inject_Z k)%Q.
Proof.
  intros He ->. rewrite <- scale_down_Z by exact He.
  field. intros H. pose proof (two_power_pos e) as P.
  rewrite H in P. discriminate P.
Qed.

Lemma binary64_exponent_pos (x : Q) :
  (0 < x)%Q -> 0 < binary64_exponent x ->
  (2 ^ (binary64_exponent x + 52) <= x)%Q.
Proof.
  intros Hx He. unfold binary64_exponent in *.
  rewrite Qabs_nonneg_eq in * by now apply Qlt_le_weak.
  replace (Z.max (Qlog2 x - 52) (-1074) + 52) with (Qlog2 x) by lia.
  now apply Qlog2_lower.
Qed.

Lemma binary64_round_ge (x : Q) (k : Z) :
  0 <= k <= 2 ^ 53 -> (inject_Z k <= x)%Q ->
  (inject_Z k <= binary64_round x)%Q.
Proof.
  intros Hk Hx. unfold binary64_round.
  destruct (Qeq_bool x 0) eqn:E0.
  - apply Qeq_bool_iff in E0. now rewrite <- E0.
  - assert (Hx0 : (0 < x)%Q).
    { apply Qeq_bool_neq in E0.
      assert (H0 : (0 <= x)%Q).
      { eapply Qle_trans; [|exact Hx]. unfold Qle. simpl. lia. }
      apply Qle_lteq in H0. destruct H0 as [H0|H0]; [exact H0|].
      exfalso. apply E0. now symmetry. }
    set (e := binary64_exponent x).
    pose proof (two_power_pos e) as P.
    destruct (Z.le_gt_cases e 0) as [He|He].
    + assert (HK : (inject_Z (k * 2 ^ (- e)) <= x / 2 ^ e)%Q).
      { rewrite <- scale_down_Z by exact He.
        apply Qmult_le_compat_r; [exact Hx|].
        apply Qlt_le_weak, Qinv_lt_0_compat, P. }
      apply py_round_ge in HK.
      rewrite <- (scale_up_Z (k * 2 ^ (- e)) e k He eq_refl).
      apply Qmult_le_compat_r; [|now apply Qlt_le_weak].
      rewrite <- Zle_Qle. exact HK.
    + assert (Hlow : (2 ^ (e + 52) <= x)%Q)
        by (apply binary64_exponent_pos; auto; lia).
      assert (H52 : (inject_Z (2 ^ 52) <= x / 2 ^ e)%Q).
      { apply Qle_shift_div_l; [exact P|].
        rewrite <- (two_power_Z 52) by lia.
        rewrite <- Qpower_plus by discriminate.
        now rewrite Z.add_comm. }
      apply py_round_ge in H52.
      apply Qle_trans with (inject_Z (2 ^ 52) * 2 ^ e)%Q.
      * rewrite <- (two_power_Z 52) by lia.
        rewrite <- Qpower_plus by discriminate.
        apply Qle_trans with (2 ^ 53)%Q.
        -- rewrite (two_power_Z 53) by lia. rewrite <- Zle_Qle. lia.
        -- apply Qpower_le_compat_l; [lia|discriminate].
      * apply Qmult_le_compat_r; [|now apply Qlt_le_weak].
        rewrite <- Zle_Qle. exact H52.
Qed.

Lemma binary64_round_le (x : Q) (k : Z) :
  0 <= k < 2 ^ 53 -> (0 <= x)%Q -> (x <= inject_Z k)%Q ->
  (binary64_round x <= inject_Z k)%Q.
Proof.
  intros Hk H0 Hx. unfold binary64_round.
  destruct (Qeq_bool x 0) eqn:E0.
  - rewrite <- (Zle_Qle 0). lia.
  - assert (Hx0 : (0 < x)%Q).
    { apply Qeq_bool_neq in E0.
      apply Qle_lteq in H0. destruct H0 as [H0|H0]; [exact H0|].
      exfalso. apply E0. now symmetry. }
    set (e := binary64_exponent x).
    pose proof (two_power_pos e) as P.
    destruct (Z.le_gt_cases e 0) as [He|He].
    + assert (HK : (x / 2 ^ e <= inject_Z (k * 2 ^ (- e)))%Q).
      { rewrite <- scale_down_Z by exact He.
        apply Qmult_le_compat_r; [exact Hx|].
        apply Qlt_le_weak, Qinv_lt_0_compat, P. }
      apply py_round_le in HK.
      rewrite <- (scale_up_Z (k * 2 ^ (- e)) e k He eq_refl).
      apply Qmult_le_compat_r; [|now apply Qlt_le_weak].
      rewrite <- Zle_Qle. exact HK.
    + exfalso.
      assert (Hlow : (2 ^ (e + 52) <= x)%Q)
        by (apply binary64_exponent_pos; auto; lia).
      assert (H53 : (2 ^ 53 <= 2 ^ (e + 52))%Q)
        by (apply Qpower_le_compat_l; [lia|discriminate]).
      assert (Hc : (inject_Z (2 ^ 53) <= inject_Z k)%Q).
      { rewrite <- (two_power_Z 53) by lia.
        eapply Qle_trans; [exact H53|].
        eapply Qle_trans; [exact Hlow|exact Hx]. }
      rewrite <- Zle_Qle in Hc. lia.
Qed.

Lemma binary64_between (x : Q) (lo hi : Z) :
  0 <= lo -> hi < 2 ^ 53 ->
  (inject_Z lo <= x)%Q -> (x <= inject_Z hi)%Q ->
  exists y, binary64 x = Finite y /\
            (inject_Z lo <= y)%Q /\ (y <= inject_Z hi)%Q.
Proof.
  intros Hlo Hhi Hl Hh.
  assert (Hlh : lo <= hi).
  { rewrite Zle_Qle. eapply Qle_trans; eauto. }
  assert (H0 : (0 <= x)%Q).
  { eapply Qle_trans; [|exact Hl]. rewrite <- (Zle_Qle 0). exact Hlo. }
  pose proof (binary64_round_ge x lo ltac:(lia) Hl) as Hge.
  pose proof (binary64_round_le x hi ltac:(lia) H0 Hh) as Hle.
  unfold binary64. exists (binary64_round x).
  destruct (Qle_bool (2 ^ 1024) (Qabs (binary64_round x))) eqn:E.
  - exfalso. apply Qle_bool_iff in E.
    rewrite Qabs_nonneg_eq in E.
    + assert (Hc : (2 ^ 1024 <= inject_Z hi)%Q)
        by (eapply Qle_trans; eauto).
      assert (H53 : (2 ^ 53 <= 2 ^ 1024)%Q)
        by (apply Qpower_le_compat_l; [lia|discriminate]).
      rewrite (two_power_Z 53) in H53 by lia.
      assert (Hd : (inject_Z (2 ^ 53) <= inject_Z hi)%Q)
        by (eapply Qle_trans; eauto).
      rewrite <- Zle_Qle in Hd. lia.
    + eapply Qle_trans; [|exact Hge]. rewrite <- (Zle_Qle 0). exact Hlo.
  - auto.
Qed.

Lemma float_of_int_exact (n : Z) :
  0 <= n < 2 ^ 53 ->
  exists y, float_of_int n = Ok y /\ (y == inject_Z n)%Q.
Proof.
  intros Hn.
  destruct (binary64_between (inject_Z n) n n) as (y & E & Hl & Hh);
    try lia; try apply Qle_refl.
  exists y. unfold float_of_int. rewrite E. split; [reflexivity|].
  now apply Qle_antisym.
Qed.

Lemma py_int_floor (q : Q) : (0 <= q)%Q -> py_int q = Qfloor q.
Proof.
  destruct q as [n d]. unfold Qle, py_int, Qfloor. simpl. intros H.
  apply Z.quot_div_nonneg; lia.
Qed.

Lemma pivot_index64_float (f : Q) (start end_ : Z) :
  0 <= start -> start < end_ -> end_ < 2 ^ 53 ->
  (0 <= f)%Q -> (f <= 1)%Q ->
  let t := Qfloor (f * inject_Z (end_ - start)) + start in
  exists idx,
    pivot_index64 (PyFloat f) start end_ = Ok idx /\
    t <= idx <= t + 1 /\ start <= idx <= end_.
Proof.
  intros Hs Hlt He Hf0 Hf1 t. unfold pivot_index64.
  set (n := end_ - start) in *.
  destruct (float_of_int_exact n) as (y & Ey & Hy); [lia|].
  destruct (float_of_int_exact start) as (s & Es & Hs'); [lia|].
  rewrite Ey. simpl. rewrite Es. simpl.
  set (x := (f * inject_Z n)%Q) in *.
  assert (Hx0 : (0 <= x)%Q).
  { unfold x. apply Qmult_le_0_compat; [exact Hf0|].
    rewrite <- (Zle_Qle 0). lia. }
  assert (Hxn : (x <= inject_Z n)%Q).
  { unfold x. rewrite <- (Qmult_1_l (inject_Z n)) at 2.
    apply Qmult_le_compat_r; [exact Hf1|]. rewrite <- (Zle_Qle 0). lia. }
  assert (Ht0 : 0 <= Qfloor x).
  { apply Qfloor_resp_le in Hx0. exact Hx0. }
  assert (Htn : Qfloor x <= n).
  { apply Qfloor_resp_le in Hxn. now rewrite Qfloor_Z in Hxn. }
  set (hi := Z.min (Qfloor x + 1) n).
  assert (Hxhi : (x <= inject_Z hi)%Q).
  { unfold hi. destruct (Z.min_spec (Qfloor x + 1) n) as [[_ ->]|[_ ->]].
    - apply Qlt_le_weak, Qlt_floor.
    - exact Hxn. }
  destruct (binary64_between (f * y) (Qfloor x) hi) as (p & Ep & Hp1 & Hp2);
    try lia.
  { rewrite Hy. apply Qfloor_le. }
  { now rewrite Hy. }
  unfold float_mul. rewrite Ep. simpl.
  destruct (binary64_between (p + s) (Qfloor x + start) (hi + start))
    as (q & Eq & Hq1 & Hq2); try lia.
  { rewrite Hs', inject_Z_plus. now apply Qplus_le_compat; [|apply Qle_refl]. }
  { rewrite Hs', inject_Z_plus. now apply Qplus_le_compat; [|apply Qle_refl]. }
  rewrite Eq. simpl. exists (py_int q). split; [reflexivity|].
  assert (Hq0 : (0 <= q)%Q).
  { eapply Qle_trans; [|exact Hq1]. rewrite <- (Zle_Qle 0). lia. }
  rewrite py_int_floor by exact Hq0.
  apply Qfloor_resp_le in Hq1, Hq2. rewrite Qfloor_Z in Hq1, Hq2.
  unfold t. lia.
Qed.

Lemma pivot_index64_int (k start end_ : Z) :
  pivot_index64 (PyInt k) start end_
  = Ok (Qfloor (inject_Z k * inject_Z (end_ - start)) + start).
Proof.
  unfold pivot_index64. rewrite <- inject_Z_mult, Qfloor_Z. reflexivity.
Qed.

Lemma pivot_index64_ok (fact : pynum) (start end_ : Z) :
  0 <= start -> start < end_ -> end_ < 2 ^ 53 ->
  (0 <= num_to_Q fact)%Q -> (num_to_Q fact <= 1)%Q ->
  let t := Qfloor (num_to_Q fact * inject_Z (end_ - start)) + start in
  exists idx,
    pivot_index64 fact start end_ = Ok idx /\
    t <= idx <= t + 1 /\ start <= idx <= end_ /\
    (forall k : Z, fact = PyInt k -> idx = t).
Proof.
  intros Hs Hlt He Hf0 Hf1 t. destruct fact as [k|f].
  - exists t. split; [rewrite pivot_index64_int; reflexivity|].
    split; [lia|]. split; [|reflexivity].
    cbn [num_to_Q] in Hf0, Hf1, t.
    change 0%Q with (inject_Z 0) in Hf0.
    change 1%Q with (inject_Z 1) in Hf1.
    rewrite <- Zle_Qle in Hf0, Hf1. unfold t.
    rewrite <- inject_Z_mult, Qfloor_Z. nia.
  - cbn [num_to_Q] in Hf0, Hf1, t.
    destruct (pivot_index64_float f start end_ Hs Hlt He Hf0 Hf1)
      as (idx & E & Ht & Hb).
    exists idx. split; [exact E|]. split; [exact Ht|].
    split; [exact Hb|]. intros k Hk. discriminate Hk.
Qed.

(** The model agrees with the Standard Library's specification of
    IEEE 754 arithmetic: conversions of integers that are exact, tied
    and too large, products and sums that round up, down and to the
    even neighbour, and products in the subnormal range. *)
Lemma binary64_agrees_with_SpecFloat :
  let mul x y := SFmul 53 1024 x y in
  let add x y := SFadd 53 1024 x y in
  same_float (binary64 (inject_Z 10)) (SF_value (SF_of 10 0)) = true /\
  same_float (binary64 (inject_Z (2 ^ 53 + 1)))
    (SF_value (SF_of (2 ^ 53 + 1) 0)) = true /\
  same_float (binary64 (inject_Z (2 ^ 53 + 3)))
    (SF_value (SF_of (2 ^ 53 + 3) 0)) = true /\
  same_float (binary64 (inject_Z (2 ^ 1024 - 2 ^ 970 - 1)))
    (SF_value (SF_of (2 ^ 1024 - 2 ^ 970 - 1) 0)) = true /\
  same_float (binary64 (inject_Z (2 ^ 1024 - 2 ^ 970)))
    (SF_value (SF_of (2 ^ 1024 - 2 ^ 970) 0)) = true /\
  same_float (float_mul (3152519739159347 # 4503599627370496) 10)
    (SF_value (mul (SF_of 3152519739159347 (-52)) (SF_of 10 0))) = true /\
  same_float (float_mul (6004799503160661 # 18014398509481984) 3)
    (SF_value (mul (SF_of 6004799503160661 (-54)) (SF_of 3 0))) = true /\
  same_float
    (float_mul (3602879701896397 # 36028797018963968)
               (6004799503160661 # 18014398509481984))
    (SF_value (mul (SF_of 3602879701896397 (-55))
                   (SF_of 6004799503160661 (-54)))) = true /\
  same_float
    (float_add (Finite (9007199254740991 # 9007199254740992)) 1)
    (SF_value (add (SF_of 9007199254740991 (-53)) (SF_of 1 0))) = true /\
  same_float
    (float_add (Finite (3602879701896397 # 36028797018963968))
               (3602879701896397 # 18014398509481984))
    (SF_value (add (SF_of 3602879701896397 (-55))
                   (SF_of 3602879701896397 (-54)))) = true /\
  same_float (float_mul (2 ^ (-1074)) (1 # 2))
    (SF_value (mul (SF_of 1 (-1074)) (SF_of 1 (-1)))) = true /\
  same_float (float_mul (2 ^ (-1074)) (3 # 2))
    (SF_value (mul (SF_of 1 (-1074)) (SF_of 3 (-1)))) = true /\
  same_float (float_mul (2 ^ 1023) 2)
    (SF_value (mul (SF_of 1 1023) (SF_of 2 0))) = true.
Proof.
  vm_compute. repeat split.
Qed.

Section PivotFacts.
Context {A : Type} {Ord : PyOrd A}.
Implicit Types (a b : list A).

Lemma place_pivot64_at a start end_ fact idx x pivot :
  pivot_index64 fact start end_ = Ok idx ->
  0 <= start < len a -> 0 <= idx < len a ->
  item a start = Some x -> item a idx = Some pivot ->
  place_pivot64 a start end_ fact
  = Ok (store (store a start pivot) idx x, pivot) /\
  item (store (store a start pivot) idx x) start = Some pivot.
Proof.
  intros E Hs Hi Hx Hp.
  assert (Hst : item (store (store a start pivot) idx x) start
                = Some pivot).
  { rewrite item_store by lia.
    destruct (Z.eqb_spec idx start) as [Ei|Ei].
    - rewrite len_store.
      destruct (Z.ltb_spec start (len a)); [|lia].
      rewrite Ei in Hp. congruence.
    - apply item_store_same. lia. }
  split; [|exact Hst].
  unfold place_pivot64. rewrite E. simpl.
  rewrite (swapitems_store _ _ _ _ _ Hx Hp). simpl.
  rewrite (getitem_Some _ _ _ Hst). reflexivity.
Qed.


End PivotFacts.


(** The two cases of the theorem arise.  [0.5 * 3] is the float 1.5
    and the index is [floor(1.5) = 1].  The float [0.7] is below
    7/10 and [0.7 * 10] rounds to the float 7.0: the index is 7, with
    [floor(fact * 10) = 6]; likewise for the float nearest to 1/3
    with [end = 3], and for [0.9999999999999999] with [start = 1] and
    [end = 2], where the sum rounds to 2.0.  Exact arithmetic gives
    6, 0 and 1. *)
Lemma pivot_index64_rounds_up :
  pivot_index64 (PyFloat (1 # 2)) 0 3 = Ok 1 /\
  pivot_index (1 # 2) 0 3 = 1 /\
  pivot_index64 (PyFloat (3152519739159347 # 4503599627370496)) 0 10
    = Ok 7 /\
  pivot_index (3152519739159347 # 4503599627370496) 0 10 = 6 /\
  pivot_index64 (PyFloat (6004799503160661 # 18014398509481984)) 0 3
    = Ok 1 /\
  pivot_index (6004799503160661 # 18014398509481984) 0 3 = 0 /\
  pivot_index64 (PyFloat (9007199254740991 # 9007199254740992)) 1 2
    = Ok 2 /\
  pivot_index (9007199254740991 # 9007199254740992) 1 2 = 1.
Proof.
  vm_compute. repeat split.
Qed.


(** ** partition sorts *)

Section PartitionSorts.
Context {A : Type} {Ord : PyOrd A} {Laws : PyOrdLaws A}.
Implicit Types (a b : list A) (s e i j : Z).

Lemma rearranged_refl a s e : rearranged a a s e.
Proof. repeat split; auto. Qed.

Lemma rearranged_trans a b c s e :
  rearranged a b s e -> rearranged b c s e -> rearranged a c s e.
Proof.
  intros (Hl1 & Hp1 & Ho1 & Hr1) (Hl2 & Hp2 & Ho2 & Hr2).
  repeat split.
  - lia.
  - eapply perm_trans; eauto.
  - intros p Hp. rewrite Ho2, Ho1; auto.
  - intros P HP. apply Hr2, Hr1, HP.
Qed.

Lemma rearranged_widen a b s e s' e' :
  s <= s' -> e' <= e -> rearranged a b s' e' -> rearranged a b s e.
Proof.
  intros Hs He (Hl & Hp & Ho & Hr). repeat split; auto.
  - intros p Hp'. apply Ho. lia.
  - intros P HP p x Hp' Hx.
    destruct (Z.lt_ge_cases p s') as [H1|H1].
    + rewrite Ho in Hx by lia. apply (HP p); auto.
    + destruct (Z.lt_ge_cases e' p) as [H2|H2].
      * rewrite Ho in Hx by lia. apply (HP p); auto.
      * apply (Hr P) with (p := p); auto; try lia.
        intros q y Hq Hy. apply (HP q); auto. lia.
Qed.

Lemma rearranged_swap a i j x y s e :
  s <= i <= e -> s <= j <= e ->
  item a i = Some x -> item a j = Some y ->
  rearranged a (store (store a i y) j x) s e.
Proof.
  intros Hi Hj Hx Hy. repeat split.
  - now rewrite !len_store.
  - now apply store_swap_Permutation.
  - intros p Hp. destruct (Z.lt_ge_cases p 0) as [Hneg|Hpos].
    + now rewrite !item_neg.
    + store_cases; reflexivity.
  - intros P HP p z Hp Hz. store_cases; inj_vals.
    + apply (HP i); auto.
    + apply (HP j); auto.
    + apply (HP p); auto.
Qed.

(** The scan "Move the left mark up". *)
Lemma move_left_up_spec fuel b pivot right_ l0 :
  0 <= l0 -> l0 <= right_ + 1 -> right_ < len b ->
  (Z.to_nat (right_ + 1 - l0) < fuel)%nat ->
  exists l,
    move_left_up fuel b pivot right_ l0 = Ok l /\
    l0 <= l <= right_ + 1 /\
    range_all (fun x => py_le x pivot = true) b l0 (l - 1) /\
    (l <= right_ -> exists x, item b l = Some x /\ py_le x pivot = false).
Proof.
  intros Hl0 Hlr Hr Hfuel. unfold move_left_up.
  destruct (while_inv
    (fun l => l0 <= l <= right_ + 1 /\
              range_all (fun x => py_le x pivot = true) b l0 (l - 1))
    (fun l => Z.to_nat (right_ + 1 - l))
    (fun left_ =>
       if left_ <=? right_
       then do x <- getitem b left_ ;; Ok (py_le x pivot)
       else Ok false)
    (fun left_ => Ok (left_ + 1))
    fuel l0) as (l & E & (Hl & Hall) & Hexit); auto.
  - split; [lia|]. intros p x Hp. lia.
  - intros l (Hl & Hall).
    destruct (Z.leb_spec l right_) as [Hle|Hgt].
    + destruct (proj2 (item_range b l) ltac:(lia)) as [x Hx].
      rewrite (getitem_Some _ _ _ Hx). simpl.
      eexists; split; [reflexivity|]. intros G.
      eexists; split; [reflexivity|]. split; [|lia].
      split; [lia|]. intros p z Hp Hz.
      destruct (Z.eq_dec p l) as [->|Hne].
      * congruence.
      * apply (Hall p); auto. lia.
    + eexists; split; [reflexivity|]. discriminate.
  - exists l. split; [exact E|]. split; [exact Hl|]. split; [exact Hall|].
    intros Hle. destruct (Z.leb_spec l right_); [|lia].
    destruct (proj2 (item_range b l) ltac:(lia)) as [x Hx].
    rewrite (getitem_Some _ _ _ Hx) in Hexit. simpl in Hexit.
    exists x. split; [exact Hx|]. congruence.
Qed.

(** The scan "Move the right mark down". *)
Lemma move_right_down_spec fuel b pivot left_ r0 :
  0 < left_ -> left_ - 1 <= r0 -> r0 < len b ->
  (Z.to_nat (r0 - left_ + 1) < fuel)%nat ->
  exists r,
    move_right_down fuel b pivot left_ r0 = Ok r /\
    left_ - 1 <= r <= r0 /\
    range_all (fun x => py_le pivot x = true) b (r + 1) r0 /\
    (left_ <= r -> exists x, item b r = Some x /\ py_le pivot x = false).
Proof.
  intros Hl0 Hlr Hr Hfuel. unfold move_right_down.
  destruct (while_inv
    (fun r => left_ - 1 <= r <= r0 /\
              range_all (fun x => py_le pivot x = true) b (r + 1) r0)
    (fun r => Z.to_nat (r - left_ + 1))
    (fun right_ =>
       if right_ >=? left_
       then do x <- getitem b right_ ;; Ok (py_ge x pivot)
       else Ok false)
    (fun right_ => Ok (right_ - 1))
    fuel r0) as (r & E & (Hrr & Hall) & Hexit); auto.
  - split; [lia|]. intros p x Hp. lia.
  - intros r (Hrr & Hall). rewrite Z.geb_leb.
    destruct (Z.leb_spec left_ r) as [Hle|Hgt].
    + destruct (proj2 (item_range b r) ltac:(lia)) as [x Hx].
      rewrite (getitem_Some _ _ _ Hx). simpl.
      eexists; split; [reflexivity|]. intros G. rewrite py_ge_le in G.
      eexists; split; [reflexivity|]. split; [|lia].
      split; [lia|]. intros p z Hp Hz.
      destruct (Z.eq_dec p r) as [->|Hne].
      * congruence.
      * apply (Hall p); auto. lia.
    + eexists; split; [reflexivity|]. discriminate.
  - exists r. split; [exact E|]. split; [exact Hrr|]. split; [exact Hall|].
    intros Hle. rewrite Z.geb_leb in Hexit.
    destruct (Z.leb_spec left_ r); [|lia].
    destruct (proj2 (item_range b r) ltac:(lia)) as [x Hx].
    rewrite (getitem_Some _ _ _ Hx) in Hexit. simpl in Hexit.
    rewrite py_ge_le in Hexit.
    exists x. split; [exact Hx|]. congruence.
Qed.

(** One turn of the [while (True)] loop. *)
Lemma split_turn_spec fuel a1 start end_ pivot b l r :
  0 <= start -> end_ < len a1 ->
  (Z.to_nat (end_ - start) < fuel)%nat ->
  splitting a1 start end_ pivot (b, l, r, false) ->
  exists st,
    split_turn fuel start pivot (b, l, r, false) = Ok st /\
    splitting a1 start end_ pivot st /\
    (turns_left pivot st < turns_left pivot (b, l, r, false))%nat.
Proof.
  intros Hs He Hfuel (Hre & Hpiv & Hsl & Hlr & Hre_ & Lreg & Rreg).
  assert (Hlen : len b = len a1) by apply Hre.
  destruct (move_left_up_spec fuel b pivot r l)
    as (l' & El & Hl' & Lall & Lstop); try lia.
  destruct (move_right_down_spec fuel b pivot l' r)
    as (r' & Er & Hr' & Rall & Rstop); try lia.
  unfold split_turn. rewrite El. simpl. rewrite Er. simpl.
  assert (Lreg' : range_all (fun x => py_le x pivot = true) b
                    (start + 1) (l' - 1)).
  { intros p x Hp Hx. destruct (Z.lt_ge_cases p l).
    - apply (Lreg p); auto; lia.
    - apply (Lall p); auto; lia. }
  assert (Rreg' : range_all (fun x => py_le pivot x = true) b
                    (r' + 1) end_).
  { intros p x Hp Hx. destruct (Z.lt_ge_cases r p).
    - apply (Rreg p); auto; lia.
    - apply (Rall p); auto; lia. }
  destruct (Z.ltb_spec r' l') as [Hcross|Hnot].
  - (* the marks crossed *)
    destruct (proj2 (item_range b r') ltac:(lia)) as [z Hz].
    rewrite (swapitems_store _ _ _ _ _ Hpiv Hz). simpl.
    eexists; split; [reflexivity|]. split.
    + split.
      * eapply rearranged_trans; [exact Hre|].
        apply rearranged_swap; auto; lia.
      * split; [lia|]. split; [apply item_store_same;
                               rewrite len_store; lia|].
        split.
        -- intros p x Hp Hx. store_cases; inj_vals.
           ++ apply (Lreg' r'); auto; lia.
           ++ apply (Lreg' p); auto; lia.
        -- intros p x Hp Hx. store_cases; inj_vals.
           apply (Rreg' p); auto; lia.
    + simpl. lia.
  - (* the marks did not cross: the two items are switched *)
    destruct (Lstop ltac:(lia)) as (x & Hx & Gx).
    destruct (Rstop ltac:(lia)) as (y & Hy & Gy).
    assert (Hne : l' <> r').
    { intros ->. assert (x = y) by congruence. subst y.
      apply py_le_false in Gx. congruence. }
    rewrite (swapitems_store _ _ _ _ _ Hx Hy). simpl.
    eexists; split; [reflexivity|]. split.
    + split.
      * eapply rearranged_trans; [exact Hre|].
        apply rearranged_swap; auto; lia.
      * split; [|split; [lia|split; [lia|split; [lia|split]]]].
        -- rewrite !item_store_other by lia. exact Hpiv.
        -- intros p z Hp Hz. store_cases; inj_vals.
           apply (Lreg' p); auto; lia.
        -- intros p z Hp Hz. store_cases; inj_vals.
           apply (Rreg' p); auto; lia.
    + simpl.
      assert (Hl'y : item (store (store b l' y) r' x) l' = Some y).
      { rewrite item_store_other by lia. apply item_store_same. lia. }
      rewrite Hl'y. rewrite (py_le_false _ _ Gy).
      destruct (Z.eq_dec l' l) as [->|Hmoved].
      * rewrite Hx, Gx. lia.
      * destruct (item b l) as [w|]; [destruct (py_le w pivot)|]; lia.
Qed.

(** The [while (True)] loop finds the split point. *)
Lemma find_split_spec fuel a1 start end_ pivot :
  0 <= start -> start < end_ -> end_ < len a1 ->
  item a1 start = Some pivot ->
  (Z.to_nat (end_ - start + 1) < fuel)%nat ->
  exists b r,
    find_split fuel a1 start end_ pivot = Ok (b, r) /\
    rearranged a1 b start end_ /\
    split_around b start end_ r pivot.
Proof.
  intros Hs Hlt He Hpiv Hfuel. unfold find_split.
  destruct (while_inv (splitting a1 start end_ pivot) (turns_left pivot)
    (fun s : list A * Z * Z * bool => Ok (negb (snd s)))
    (split_turn fuel start pivot) fuel (a1, start + 1, end_, false))
    as ([[[b l] r] c] & E & Hinv & Hexit).
  - split; [apply rearranged_refl|].
    split; [exact Hpiv|]. split; [lia|]. split; [lia|]. split; [lia|].
    split; intros p x Hp; lia.
  - intros [[[b l] r] c] Hinv.
    eexists; split; [reflexivity|]. simpl. intros Hc.
    destruct c; [discriminate|].
    apply (split_turn_spec fuel a1 start end_ pivot b l r); auto. lia.
  - simpl. destruct (item a1 (start + 1)) as [w|];
      [destruct (py_le w pivot)|]; lia.
  - rewrite E. simpl. exists b, r. split; [reflexivity|].
    simpl in Hexit. destruct c; [|discriminate].
    destruct Hinv as [Hre Hsp]. auto.
Qed.

Lemma place_pivot_spec a start end_ fact :
  0 <= start -> start < end_ -> end_ < len a ->
  (0 <= fact)%Q -> (fact <= 1)%Q ->
  exists a1 pivot,
    place_pivot a start end_ fact = Ok (a1, pivot) /\
    rearranged a a1 start end_ /\ item a1 start = Some pivot.
Proof.
  intros Hs Hlt He Hf0 Hf1.
  pose proof (pivot_index_bounds fact start end_ Hs Hlt Hf0 Hf1) as Hidx.
  unfold place_pivot.
  destruct (proj2 (item_range a start) ltac:(lia)) as [x Hx].
  destruct (proj2 (item_range a (pivot_index fact start end_)) ltac:(lia))
    as [pivot Hp].
  rewrite (swapitems_store _ _ _ _ _ Hx Hp). simpl.
  assert (Hst : item (store (store a start pivot)
                        (pivot_index fact start end_) x) start
                = Some pivot).
  { rewrite item_store by lia.
    destruct (Z.eqb_spec (pivot_index fact start end_) start) as [E|E].
    - rewrite len_store.
      destruct (Z.ltb_spec start (len a)); [|lia].
      rewrite E in Hp. congruence.
    - apply item_store_same. lia. }
  rewrite (getitem_Some _ _ _ Hst). simpl.
  eexists; eexists; split; [reflexivity|]. split; [|exact Hst].
  apply rearranged_swap; auto; lia.
Qed.

Lemma partition_spec fuel :
  forall a start end_ fact,
    0 <= start -> end_ < len a ->
    (0 <= fact)%Q -> (fact <= 1)%Q ->
    (Z.to_nat (end_ - start + 1) < fuel)%nat ->
    exists b,
      partition fuel a start end_ fact = Ok b /\
      rearranged a b start end_ /\ sorted_between b start end_.
Proof.
  induction fuel as [|fuel IH];
    intros a start end_ fact Hs He Hf0 Hf1 Hfuel; [lia|].
  simpl. destruct (Z.ltb_spec start end_) as [Hlt|Hge].
  - destruct (place_pivot_spec a start end_ fact)
      as (a1 & pivot & E1 & Hre1 & Hpiv); auto.
    rewrite E1. simpl.
    assert (Hl1 : len a1 = len a) by apply Hre1.
    destruct (find_split_spec (S fuel) a1 start end_ pivot)
      as (b1 & r & E2 & Hre2 & Hr & Hpr & Hleft & Hright); auto; try lia.
    rewrite E2. simpl.
    assert (Hl2 : len b1 = len a1) by apply Hre2.
    destruct (IH b1 start (r - 1) fact)
      as (b2 & E3 & Hre3 & Hs3); auto; try lia.
    rewrite E3. simpl.
    assert (Hl3 : len b2 = len b1) by apply Hre3.
    destruct (IH b2 (r + 1) end_ fact)
      as (b3 & E4 & Hre4 & Hs4); auto; try lia.
    rewrite E4. exists b3. split; [reflexivity|].
    split.
    + eapply rearranged_trans; [exact Hre1|].
      eapply rearranged_trans; [exact Hre2|].
      eapply rearranged_trans.
      * apply (rearranged_widen b1 b2 start end_ start (r - 1));
          auto; lia.
      * apply (rearranged_widen b2 b3 start end_ (r + 1) end_);
          auto; lia.
    + destruct Hre3 as (_ & _ & Ho3 & Hr3).
      destruct Hre4 as (_ & _ & Ho4 & Hr4).
      assert (Hp3 : item b3 r = Some pivot).
      { rewrite Ho4, Ho3 by lia. exact Hpr. }
      assert (HL : range_all (fun x => py_le x pivot = true) b3
                     start (r - 1)).
      { intros p x Hp Hx. rewrite Ho4 in Hx by lia.
        apply (Hr3 _ Hleft p); auto. }
      assert (HR : range_all (fun x => py_le pivot x = true) b3
                     (r + 1) end_).
      { apply Hr4. intros p x Hp Hx. rewrite Ho3 in Hx by lia.
        apply (Hright p); auto. }
      intros p q x y Hp Hpq Hq Hx Hy.
      destruct (Z.lt_trichotomy q r) as [Hqr|[->|Hqr]].
      * rewrite Ho4 in Hx, Hy by lia. apply (Hs3 p q); auto; lia.
      * assert (y = pivot) by congruence. subst y.
        apply (HL p); auto; lia.
      * destruct (Z.lt_trichotomy p r) as [Hpr'|[->|Hpr']].
        -- apply (py_le_trans x pivot y).
           ++ apply (HL p); auto; lia.
           ++ apply (HR q); auto; lia.
        -- assert (x = pivot) by congruence. subst x.
           apply (HR q); auto; lia.
        -- apply (Hs4 p q); auto; lia.
  - exists a. split; [reflexivity|]. split; [apply rearranged_refl|].
    intros p q x y Hp Hpq Hq. lia.
Qed.

Lemma quick_sort_sorts fuel a fact :
  (0 <= fact)%Q -> (fact <= 1)%Q -> (length a < fuel)%nat ->
  exists b,
    quick_sort fuel a fact = Ok b /\ Permutation a b /\ non_decreasing b.
Proof.
  intros Hf0 Hf1 Hfuel. unfold quick_sort.
  pose proof (len_nonneg a).
  destruct (partition_spec fuel a 0 (len a - 1) fact)
    as (b & E & (Hl & Hp & _) & Hs); auto; try lia.
  { unfold len. lia. }
  exists b. split; [exact E|]. split; [exact Hp|].
  apply item_StronglySorted. intros i j x y Hij Hx Hy.
  pose proof (item_Some_range _ _ _ Hx).
  pose proof (item_Some_range _ _ _ Hy).
  apply (Hs i j); auto; lia.
Qed.

(** With an [int] factor, and so with the default [fact = 0], the two
    readings of the pivot index are the same function. *)
Lemma pivot_index64_int_factor (k start end_ : Z) :
  pivot_index64 (PyInt k) start end_
  = Ok (pivot_index (inject_Z k) start end_).
Proof.
  unfold pivot_index64, pivot_index, py_int, Qmult, Qplus, inject_Z.
  simpl. rewrite !Z.mul_1_r, Z.quot_1_r. reflexivity.
Qed.

Lemma partition64_int_factor fuel :
  forall a start end_ k,
    partition64 fuel a start end_ (PyInt k)
    = partition fuel a start end_ (inject_Z k).
Proof.
  induction fuel as [|fuel IH]; intros a start end_ k; [reflexivity|].
  simpl. destruct (start <? end_); [|reflexivity].
  unfold place_pivot64, place_pivot.
  rewrite pivot_index64_int_factor. simpl.
  destruct (swapitems a start (pivot_index (inject_Z k) start end_))
    as [a1| |]; simpl; try reflexivity.
  destruct (getitem a1 start) as [pivot| |]; simpl; try reflexivity.
  destruct (find_split (S fuel) a1 start end_ pivot) as [[a2 r]| |];
    simpl; try reflexivity.
  rewrite IH.
  destruct (partition fuel a2 start (r - 1) (inject_Z k)) as [a3| |];
    simpl; try reflexivity.
  apply IH.
Qed.

Lemma place_pivot64_spec a start end_ fact :
  0 <= start -> start < end_ -> end_ < len a -> len a <= 2 ^ 53 ->
  (0 <= num_to_Q fact)%Q -> (num_to_Q fact <= 1)%Q ->
  exists a1 pivot,
    place_pivot64 a start end_ fact = Ok (a1, pivot) /\
    rearranged a a1 start end_ /\ item a1 start = Some pivot.
Proof.
  intros Hs Hlt He Hlen Hf0 Hf1.
  destruct (pivot_index64_ok fact start end_ Hs Hlt ltac:(lia) Hf0 Hf1)
    as (idx & E & _ & Hidx & _).
  destruct (proj2 (item_range a start) ltac:(lia)) as [x Hx].
  destruct (proj2 (item_range a idx) ltac:(lia)) as [pivot Hp].
  destruct (place_pivot64_at a start end_ fact idx x pivot E
              ltac:(lia) ltac:(lia) Hx Hp) as [Hplace Hst].
  exists (store (store a start pivot) idx x), pivot.
  split; [exact Hplace|]. split; [|exact Hst].
  apply rearranged_swap; auto; lia.
Qed.

Lemma partition64_spec fuel :
  forall a start end_ fact,
    0 <= start -> end_ < len a -> len a <= 2 ^ 53 ->
    (0 <= num_to_Q fact)%Q -> (num_to_Q fact <= 1)%Q ->
    (Z.to_nat (end_ - start + 1) < fuel)%nat ->
    exists b,
      partition64 fuel a start end_ fact = Ok b /\
      rearranged a b start end_ /\ sorted_between b start end_.
Proof.
  induction fuel as [|fuel IH];
    intros a start end_ fact Hs He Hlen Hf0 Hf1 Hfuel; [lia|].
  simpl. destruct (Z.ltb_spec start end_) as [Hlt|Hge].
  - destruct (place_pivot64_spec a start end_ fact)
      as (a1 & pivot & E1 & Hre1 & Hpiv); auto.
    rewrite E1. simpl.
    assert (Hl1 : len a1 = len a) by apply Hre1.
    destruct (find_split_spec (S fuel) a1 start end_ pivot)
      as (b1 & r & E2 & Hre2 & Hr & Hpr & Hleft & Hright); auto; try lia.
    rewrite E2. simpl.
    assert (Hl2 : len b1 = len a1) by apply Hre2.
    destruct (IH b1 start (r - 1) fact)
      as (b2 & E3 & Hre3 & Hs3); auto; try lia.
    rewrite E3. simpl.
    assert (Hl3 : len b2 = len b1) by apply Hre3.
    destruct (IH b2 (r + 1) end_ fact)
      as (b3 & E4 & Hre4 & Hs4); auto; try lia.
    rewrite E4. exists b3. split; [reflexivity|].
    split.
    + eapply rearranged_trans; [exact Hre1|].
      eapply rearranged_trans; [exact Hre2|].
      eapply rearranged_trans.
      * apply (rearranged_widen b1 b2 start end_ start (r - 1));
          auto; lia.
      * apply (rearranged_widen b2 b3 start end_ (r + 1) end_);
          auto; lia.
    + destruct Hre3 as (_ & _ & Ho3 & Hr3).
      destruct Hre4 as (_ & _ & Ho4 & Hr4).
      assert (Hp3 : item b3 r = Some pivot).
      { rewrite Ho4, Ho3 by lia. exact Hpr. }
      assert (HL : range_all (fun x => py_le x pivot = true) b3
                     start (r - 1)).
      { intros p x Hp Hx. rewrite Ho4 in Hx by lia.
        apply (Hr3 _ Hleft p); auto. }
      assert (HR : range_all (fun x => py_le pivot x = true) b3
                     (r + 1) end_).
      { apply Hr4. intros p x Hp Hx. rewrite Ho3 in Hx by lia.
        apply (Hright p); auto. }
      intros p q x y Hp Hpq Hq Hx Hy.
      destruct (Z.lt_trichotomy q r) as [Hqr|[->|Hqr]].
      * rewrite Ho4 in Hx, Hy by lia. apply (Hs3 p q); auto; lia.
      * assert (y = pivot) by congruence. subst y.
        apply (HL p); auto; lia.
      * destruct (Z.lt_trichotomy p r) as [Hpr'|[->|Hpr']].
        -- apply (py_le_trans x pivot y).
           ++ apply (HL p); auto; lia.
           ++ apply (HR q); auto; lia.
        -- assert (x = pivot) by congruence. subst x.
           apply (HR q); auto; lia.
        -- apply (Hs4 p q); auto; lia.
  - exists a. split; [reflexivity|]. split; [apply rearranged_refl|].
    intros p q x y Hp Hpq Hq. lia.
Qed.

Lemma quick_sort64_sorts fuel a fact :
  len a <= 2 ^ 53 ->
  (0 <= num_to_Q fact)%Q -> (num_to_Q fact <= 1)%Q ->
  (length a < fuel)%nat ->
  exists b,
    quick_sort64 fuel a fact = Ok b /\ Permutation a b /\ non_decreasing b.
Proof.
  intros Hlen Hf0 Hf1 Hfuel. unfold quick_sort64.
  pose proof (len_nonneg a).
  destruct (partition64_spec fuel a 0 (len a - 1) fact)
    as (b & E & (Hl & Hp & _) & Hs); auto; try lia.
  { unfold len. lia. }
  exists b. split; [exact E|]. split; [exact Hp|].
  apply item_StronglySorted. intros i j x y Hij Hx Hy.
  pose proof (item_Some_range _ _ _ Hx).
  pose proof (item_Some_range _ _ _ Hy).
  apply (Hs i j); auto; lia.
Qed.

End PartitionSorts.

(** ** heap_sort sorts *)

Section HeapSorts.
Context {A : Type} {Ord : PyOrd A}.
Implicit Types (a b l : list A).

(** [heap_sort] writes over the list the items that the heap gives
    out. *)
Lemma heap_sort_drain {H : BinaryHeap A} a l :
  heap_drain (length a) (heap_new a) = Ok l -> heap_sort a = Ok l.
Proof.
  intros Hd. unfold heap_sort.
  pose proof (len_nonneg a) as Hn.
  destruct (for_each_range_inv
    (fun i (s : list A * heap) =>
       let '(b, h) := s in
       len b = len a /\
       exists rest,
         heap_drain (Z.to_nat (len a - i)) h = Ok rest /\
         firstn (Z.to_nat i) b ++ rest = l)
    0 (len a)
    (fun i (s : list A * heap) =>
       let '(a, h) := s in
       do '(x, h) <- heap_get h ;;
       do a <- setitem a i x ;;
       Ok (a, h))
    (a, heap_new a)) as ([b h] & E & Hl & rest & Hr & Hrest); auto.
  - split; [reflexivity|]. exists l. split; [|reflexivity].
    rewrite Z.sub_0_r. unfold len. now rewrite Nat2Z.id.
  - intros i [b h] Hi (Hl & rest & Hr & Hrest).
    replace (Z.to_nat (len a - i)) with (S (Z.to_nat (len a - (i + 1))))
      in Hr by lia.
    simpl in Hr.
    destruct (heap_get h) as [[x h']| |]; simpl in *; try discriminate.
    destruct (heap_drain (Z.to_nat (len a - (i + 1))) h') as [rest'| |]
      eqn:Hr'; simpl in *; try discriminate.
    injection Hr as <-.
    rewrite setitem_store by lia. simpl.
    eexists; split; [reflexivity|]. simpl.
    split; [now rewrite len_store|]. exists rest'. split; [exact Hr'|].
    rewrite firstn_store_snoc by lia. now rewrite <- app_assoc.
  - rewrite E. simpl. f_equal.
    rewrite Z.sub_diag in Hr. simpl in Hr. injection Hr as <-.
    rewrite app_nil_r in Hrest. rewrite <- Hl in Hrest.
    now rewrite firstn_len in Hrest.
Qed.

Lemma heap_sort_sorts {H : BinaryHeap A} {HL : BinaryHeapLaws A} a :
  exists b, heap_sort a = Ok b /\ Permutation a b /\ non_decreasing b.
Proof.
  destruct (heap_drain_sorted a) as (l & Hd & Hp & Hs).
  exists l. split; [now apply heap_sort_drain|]. auto.
Qed.

Context {Laws : PyOrdLaws A}.

Lemma take_min_spec x l :
  let '(m, r) := take_min x l in
  Permutation (x :: l) (m :: r) /\
  Forall (fun y => py_le m y = true) (m :: r).
Proof.
  revert x. induction l as [|y l IH]; intros x; simpl.
  - split; [apply Permutation_refl|]. repeat constructor.
    apply py_le_refl.
  - destruct (py_le x y) eqn:E.
    + specialize (IH x). destruct (take_min x l) as [m r].
      destruct IH as [Hp Hall]. split.
      * eapply perm_trans; [apply perm_swap|].
        eapply perm_trans; [apply perm_skip, Hp|]. apply perm_swap.
      * inversion Hall as [|? ? Hm Hr]; subst.
        constructor; [exact Hm|]. constructor; [|exact Hr].
        apply (py_le_trans m x y); auto.
        eapply Forall_forall in Hall; [exact Hall|].
        eapply Permutation_in; [exact Hp|]. now left.
    + specialize (IH y). destruct (take_min y l) as [m r].
      destruct IH as [Hp Hall]. split.
      * eapply perm_trans; [apply perm_skip, Hp|]. apply perm_swap.
      * inversion Hall as [|? ? Hm Hr]; subst.
        constructor; [exact Hm|]. constructor; [|exact Hr].
        apply (py_le_trans m y x); [|now apply py_le_false].
        eapply Forall_forall in Hall; [exact Hall|].
        eapply Permutation_in; [exact Hp|]. now left.
Qed.

Lemma ListHeap_drain (n : nat) :
  forall l, length l = n ->
    exists r,
      @heap_drain A ListHeap n l = Ok r /\
      Permutation l r /\ non_decreasing r.
Proof.
  induction n as [|n IH]; intros l Hl.
  - destruct l; [|discriminate]. exists []. repeat split; auto.
    constructor.
  - destruct l as [|x l]; [discriminate|]. simpl.
    pose proof (take_min_spec x l) as Hm.
    destruct (take_min x l) as [m rest]. destruct Hm as [Hp Hall].
    destruct (IH rest) as (r & Er & Hpr & Hsr).
    { apply Permutation_length in Hp. simpl in *. lia. }
    simpl in Er. rewrite Er. simpl.
    exists (m :: r). split; [reflexivity|]. split.
    + eapply perm_trans; [exact Hp|]. now apply perm_skip.
    + constructor; [exact Hsr|].
      inversion Hall as [|? ? _ Hr]; subst.
      eapply Permutation_Forall; eauto.
Qed.

Lemma ListHeap_laws : @BinaryHeapLaws A Ord ListHeap.
Proof.
  constructor. intros a. now apply ListHeap_drain.
Qed.

End HeapSorts.

(** ** sort *)

Section SortFacts.
Context {A : Type} {Ord : PyOrd A} {Laws : PyOrdLaws A}.
Context {H : BinaryHeap A} {HL : BinaryHeapLaws A}.
Implicit Types (a b data : list A).

(** Whatever the method, the block "Sort (in place) the list" returns
    the elements of the list in non-decreasing order. *)
Lemma sort_in_place_sorts fuel data method param :
  (length data < fuel)%nat -> param_ok method param ->
  exists b,
    sort_in_place fuel data method param = Ok b /\
    Permutation data b /\ non_decreasing b.
Proof.
  intros Hfuel Hparam. unfold sort_in_place, param_ok in *.
  destruct (method =? "bubble")%string; [apply bubble_sort_sorts|].
  destruct (method =? "short_bubble")%string;
    [apply short_bubble_sort_sorts|].
  destruct (method =? "selection")%string; [apply selection_sort_sorts|].
  destruct (method =? "insertion")%string;
    [now apply insertion_sort_sorts|].
  destruct (method =? "shell")%string.
  { destruct param as [[gap|q]|].
    - now apply shell_sort_sorts.
    - contradiction.
    - apply shell_sort_sorts; auto. lia. }
  destruct (method =? "quick")%string.
  { destruct param as [p|].
    - destruct Hparam. now apply quick_sort_sorts.
    - apply quick_sort_sorts; auto; unfold Qle; simpl; lia. }
  destruct (method =? "heap")%string; [apply heap_sort_sorts|].
  now apply merge_sort_sorts.
Qed.

Lemma non_decreasing_rev a : non_decreasing a -> non_increasing (rev a).
Proof.
  intros Hs. apply item_StronglySorted. intros i j x y Hij Hx Hy.
  rewrite item_rev in Hx, Hy. rewrite py_ge_le.
  apply (StronglySorted_item _ _ Hs (len a - 1 - j) (len a - 1 - i));
    auto. lia.
Qed.

(** [sort] returns the sorted list with the array that [build_index]
    computes from it, both reversed when [descending] is set. *)
Lemma sort_spec fuel data method descending param :
  (length data < fuel)%nat -> param_ok method param ->
  exists b idx,
    Permutation data b /\ non_decreasing b /\
    build_index b data = Ok idx /\ len idx = len data /\
    sort fuel data method descending param
      = Ok (if descending then (rev b, rev idx) else (b, idx)).
Proof.
  intros Hfuel Hparam. unfold sort.
  destruct (sort_in_place_sorts fuel data method param Hfuel Hparam)
    as (b & Eb & Hp & Hs).
  rewrite Eb. simpl.
  destruct (build_index_ok b data) as (idx & Ei & Hl).
  - now apply Permutation_len.
  - intros x. now apply Permutation_in.
  - rewrite Ei. simpl. exists b, idx.
    repeat split; auto.
    + rewrite Hl. symmetry. now apply Permutation_len.
    + destruct descending; [|reflexivity].
      now rewrite !reverse_rev.
Qed.

End SortFacts.

(** C1.  For every finite sequence of comparable elements and every
    method name, [sort] returns a non-decreasing ordering
    (non-increasing when [descending] is set) of the same multiset of
    elements as the input; the heap is one that gives out its items
    smallest first, the gap of shell sort is a positive integer and
    the pivot factor of quick sort is between 0 and 1. *)
Theorem sort_sorts :
  forall (A : Type) (Ord : PyOrd A) (H : BinaryHeap A),
    PyOrdLaws A -> BinaryHeapLaws A ->
    forall (fuel : nat) (data : list A) (method : string)
           (descending : bool) (param : option pynum),
      (length data < fuel)%nat -> param_ok method param ->
      exists a idx,
        sort fuel data method descending param = Ok (a, idx) /\
        Permutation data a /\
        (if descending then non_increasing a else non_decreasing a).
Proof.
  intros A Ord H Laws HL fuel data method descending param Hfuel Hparam.
  destruct (sort_spec fuel data method descending param Hfuel Hparam)
    as (b & idx & Hp & Hs & _ & _ & E).
  destruct descending.
  - exists (rev b), (rev idx). split; [exact E|]. split.
    + eapply perm_trans; [exact Hp|]. apply Permutation_rev.
    + now apply non_decreasing_rev.
  - exists b, idx. auto.
Qed.

Lemma sort_sorts_witness :
  exists a idx,
    @sort Z PyOrd_Z ListHeap 5 [3; 1; 2; 1] "quick" true
      (Some (PyFloat (1 # 2))) = Ok (a, idx) /\
    Permutation [3; 1; 2; 1] a /\ non_increasing a.
Proof.
  apply (sort_sorts Z PyOrd_Z ListHeap PyOrdLaws_Z ListHeap_laws
           5%nat [3; 1; 2; 1] "quick"%string true (Some (PyFloat (1 # 2)))).
  - simpl. lia.
  - unfold param_ok. simpl. unfold Qle. simpl. lia.
Defined.

(** ** The example of the module *)

Lemma sorted_Permutation_unique (l1 l2 : list Z) :
  non_decreasing l1 -> non_decreasing l2 -> Permutation l1 l2 -> l1 = l2.
Proof.
  unfold non_decreasing. revert l2.
  induction l1 as [|x l1 IH]; intros l2 H1 H2 Hp.
  - apply Permutation_nil in Hp. now subst.
  - destruct l2 as [|y l2].
    + apply Permutation_sym, Permutation_nil in Hp. discriminate.
    + apply StronglySorted_inv in H1 as [H1 Hx].
      apply StronglySorted_inv in H2 as [H2 Hy].
      rewrite Forall_forall in Hx, Hy.
      assert (x = y).
      { assert (Hyin : In y (x :: l1))
          by (eapply Permutation_in; [apply Permutation_sym, Hp|now left]).
        assert (Hxin : In x (y :: l2))
          by (eapply Permutation_in; [exact Hp|now left]).
        destruct Hyin as [|Hyin]; [auto|].
        destruct Hxin as [|Hxin]; [auto|].
        apply Hx in Hyin. apply Hy in Hxin. simpl in *. lia. }
      subst y. f_equal. apply IH; auto.
      now apply Permutation_cons_inv in Hp.
Qed.

(** C8.  For the input [[54,26,93,17,77,31,44,55,20]] and every
    method name, [sort] returns [[17,20,26,31,44,54,55,77,93]] with
    the index array [[3,8,1,5,6,0,7,4,2]], and with [descending] set
    the reverse of both; the heap is one that gives out its items
    smallest first. *)
Theorem sort_example :
  forall (H : BinaryHeap Z), BinaryHeapLaws Z ->
    forall (fuel : nat) (method : string),
      (9 < fuel)%nat ->
      sort fuel [54; 26; 93; 17; 77; 31; 44; 55; 20] method false None
        = Ok ([17; 20; 26; 31; 44; 54; 55; 77; 93],
              [3; 8; 1; 5; 6; 0; 7; 4; 2]) /\
      sort fuel [54; 26; 93; 17; 77; 31; 44; 55; 20] method true None
        = Ok (rev [17; 20; 26; 31; 44; 54; 55; 77; 93],
              rev [3; 8; 1; 5; 6; 0; 7; 4; 2]).
Proof.
  intros H HL fuel method Hfuel.
  set (data := [54; 26; 93; 17; 77; 31; 44; 55; 20]).
  assert (Hparam : param_ok method None).
  { unfold param_ok. destruct (method =? "shell")%string; [exact I|].
    destruct (method =? "quick")%string; exact I. }
  assert (Hsorted : non_decreasing [17; 20; 26; 31; 44; 54; 55; 77; 93])
    by (repeat constructor).
  assert (Hperm : Permutation data [17; 20; 26; 31; 44; 54; 55; 77; 93]).
  { destruct (bubble_sort_sorts data) as (b & Eb & Hp & _).
    vm_compute in Eb. injection Eb as <-. exact Hp. }
  assert (Hres : forall b idx,
            Permutation data b -> non_decreasing b ->
            build_index b data = Ok idx ->
            b = [17; 20; 26; 31; 44; 54; 55; 77; 93] /\
            idx = [3; 8; 1; 5; 6; 0; 7; 4; 2]).
  { intros b idx Hp Hs Ei.
    assert (b = [17; 20; 26; 31; 44; 54; 55; 77; 93]).
    { apply sorted_Permutation_unique; auto.
      eapply perm_trans; [apply Permutation_sym, Hp|exact Hperm]. }
    subst b. split; [reflexivity|].
    vm_compute in Ei. now injection Ei as <-. }
  split.
  - destruct (sort_spec fuel data method false None Hfuel Hparam)
      as (b & idx & Hp & Hs & Ei & _ & E).
    destruct (Hres b idx Hp Hs Ei) as [-> ->]. exact E.
  - destruct (sort_spec fuel data method true None Hfuel Hparam)
      as (b & idx & Hp & Hs & Ei & _ & E).
    destruct (Hres b idx Hp Hs Ei) as [-> ->]. exact E.
Qed.

Lemma sort_example_witness :
  @sort Z PyOrd_Z ListHeap 10 [54; 26; 93; 17; 77; 31; 44; 55; 20]
    "heap" false None
    = Ok ([17; 20; 26; 31; 44; 54; 55; 77; 93],
          [3; 8; 1; 5; 6; 0; 7; 4; 2]) /\
  @sort Z PyOrd_Z ListHeap 10 [54; 26; 93; 17; 77; 31; 44; 55; 20]
    "heap" true None
    = Ok (rev [17; 20; 26; 31; 44; 54; 55; 77; 93],
          rev [3; 8; 1; 5; 6; 0; 7; 4; 2]).
Proof.
  apply (sort_example ListHeap ListHeap_laws 10%nat "heap"%string).
  simpl. lia.
Defined.

(** * Further properties of the functions *)

(** ** The searches *)

Section SearchExtras.
Context {A : Type} {Ord : PyOrd A}.
Implicit Types (a : list A) (value : A).

(** X1.  [sequential_search] never raises: it returns the first index
    whose element equals the value, or [None] when no element equals
    it. *)
Theorem sequential_search_finds_first a value :
  exists r, sequential_search a value = Ok r /\ first_index_of a value r.
Proof.
  destruct (sequential_search_first a value) as (r & E & Hr).
  exists r. split; [exact E|exact Hr].
Qed.

Lemma binary_search_from_sound fuel a value :
  forall start end_,
    0 <= start -> end_ < len a ->
    (Z.to_nat (end_ - start + 1) < fuel)%nat ->
    exists r,
      binary_search_from fuel a value start end_ = Ok r /\
      match r with
      | Some i =>
          start <= i <= end_ /\
          exists x, item a i = Some x /\ py_eq x value = true
      | None => True
      end.
Proof.
  induction fuel as [|fuel IH]; intros start end_ Hs He Hfuel; [lia|].
  simpl. destruct (Z.leb_spec start end_) as [Hle|Hgt].
  - set (i := (start + end_) / 2).
    assert (Hi : start <= i <= end_).
    { unfold i. split.
      - apply Z.div_le_lower_bound; lia.
      - apply Z.div_le_upper_bound; lia. }
    destruct (proj2 (item_range a i) ltac:(lia)) as [x Hx].
    rewrite (getitem_Some _ _ _ Hx). simpl.
    destruct (py_eq x value) eqn:E.
    + exists (Some i). split; [reflexivity|]. split; [lia|]. eauto.
    + destruct (py_gt x value).
      * destruct (IH start (i - 1)) as (r & Er & Hr); try lia.
        exists r. split; [exact Er|].
        destruct r as [k|]; [|exact I].
        destruct Hr as [Hk Hex]. split; [lia|exact Hex].
      * destruct (IH (i + 1) end_) as (r & Er & Hr); try lia.
        exists r. split; [exact Er|].
        destruct r as [k|]; [|exact I].
        destruct Hr as [Hk Hex]. split; [lia|exact Hex].
  - exists None. split; [reflexivity|exact I].
Qed.

(** X2.  Whatever the order of the list, [binary_search] raises
    nothing and an index it returns is in range and holds an element
    equal to the value. *)
Theorem binary_search_sound :
  forall (fuel : nat) (a : list A) (value : A),
    (length a < fuel)%nat ->
    exists r,
      binary_search fuel a value = Ok r /\
      match r with
      | Some i =>
          0 <= i < len a /\
          exists x, getitem a i = Ok x /\ py_eq x value = true
      | None => True
      end.
Proof.
  intros fuel a value Hfuel. unfold binary_search.
  destruct (binary_search_from_sound fuel a value 0 (len a - 1))
    as (r & E & Hr); try lia.
  { unfold len. lia. }
  exists r. split; [exact E|].
  destruct r as [i|]; [|exact I].
  destruct Hr as (Hi & x & Hx & Heq). split; [lia|].
  exists x. split; [now apply getitem_Some|exact Heq].
Qed.

End SearchExtras.

Lemma binary_search_sound_witness :
  exists r,
    binary_search 5%nat [3; 1; 2] 1 = Ok r /\
    match r with
    | Some i =>
        0 <= i < len [3; 1; 2] /\
        exists x, getitem [3; 1; 2] i = Ok x /\ py_eq x 1 = true
    | None => True
    end.
Proof.
  apply (binary_search_sound 5%nat [3; 1; 2] 1). simpl. lia.
Defined.

(** ** reverse *)

Section ReverseExtras.
Context {A : Type} {Ord : PyOrd A} {Laws : PyOrdLaws A}.

(** X3.  [reverse] turns a list in non-decreasing order into the same
    elements in non-increasing order; this is how [sort] produces the
    descending order. *)
Theorem reverse_sorted :
  forall a : list A,
    non_decreasing a ->
    exists b,
      reverse a = Ok b /\ Permutation a b /\ non_increasing b.
Proof.
  intros a Hs. exists (rev a). split; [apply reverse_rev|].
  split; [apply Permutation_rev|now apply non_decreasing_rev].
Qed.

End ReverseExtras.

Lemma reverse_sorted_witness :
  exists b,
    reverse [1; 2; 2; 5] = Ok b /\ Permutation [1; 2; 2; 5] b /\
    non_increasing b.
Proof.
  apply (@reverse_sorted Z PyOrd_Z PyOrdLaws_Z [1; 2; 2; 5]).
  repeat constructor.
Defined.

(** ** The elementary sorters *)

Section ElementaryExtras.
Context {A : Type} {Ord : PyOrd A} {Laws : PyOrdLaws A}.
Implicit Types (a b : list A).

(** X4.  [bubble_sort] returns the elements of the list in
    non-decreasing order. *)
Theorem bubble_sort_correct :
  forall a : list A,
    exists b, bubble_sort a = Ok b /\ Permutation a b /\ non_decreasing b.
Proof.
  intros a. destruct (bubble_sort_sorts a) as (b & E & Hp & Hs).
  exists b. auto.
Qed.

Lemma sorted_no_swap a n :
  non_decreasing a -> n < len a ->
  Forall (no_swap_at a) (range 0 n 1).
Proof.
  intros Hs Hn. apply Forall_forall. intros i Hi.
  apply In_range_up in Hi.
  destruct (proj2 (item_range a i) ltac:(lia)) as [x Hx].
  destruct (proj2 (item_range a (i + 1)) ltac:(lia)) as [y Hy].
  exists x, y. split; [now apply getitem_Some|].
  split; [now apply getitem_Some|].
  rewrite py_gt_le.
  rewrite (non_decreasing_item a i (i + 1) x y); auto. lia.
Qed.

Lemma no_swap_short_pass idxs a (flag : bool) :
  Forall (no_swap_at a) idxs ->
  for_each idxs
    (fun i s =>
       let '(a, is_sorted) := s in
       do x <- getitem a i ;;
       do y <- getitem a (i + 1) ;;
       if py_gt x y
       then do a <- swapitems a (i + 1) i ;; Ok (a, false)
       else Ok (a, is_sorted))
    (a, flag) = Ok (a, flag).
Proof.
  induction 1 as [|i idxs (x & y & Ex & Ey & G) Hall IH]; simpl.
  - reflexivity.
  - rewrite Ex, Ey. simpl. rewrite G. exact IH.
Qed.

(** X5.  On a list already in order [short_bubble_sort] returns the
    list unchanged, and its first pass swaps nothing and leaves
    [is_sorted] set: the loop breaks after one pass.  Whatever passes
    were still to come, none of them is run: the loop over any list
    of passes that starts with [len(a) - 1] ends with the list
    unchanged, also when a later pass would raise. *)
Theorem short_bubble_sort_sorted_input :
  forall a : list A,
    non_decreasing a ->
    short_bubble_sort a = Ok a /\
    (1 < len a -> short_bubble_pass (len a - 1) a = Ok (true, a)) /\
    (forall rest : list Z,
       for_break ((len a - 1) :: rest) short_bubble_pass a = Ok a).
Proof.
  intros a Hs.
  assert (Hpass : short_bubble_pass (len a - 1) a = Ok (true, a)).
  { unfold short_bubble_pass.
    rewrite no_swap_short_pass; [reflexivity|].
    apply sorted_no_swap; auto. lia. }
  split; [|split; [intros _; exact Hpass|]].
  - unfold short_bubble_sort.
    destruct (Z.le_gt_cases (len a) 1) as [Hshort|Hlong].
    + rewrite range_down_nil by lia. reflexivity.
    + rewrite range_down_cons by lia. simpl. rewrite Hpass. reflexivity.
  - intros rest. simpl. rewrite Hpass. reflexivity.
Qed.

(** X6.  [selection_sort] returns the elements of the list in
    non-decreasing order. *)
Theorem selection_sort_correct :
  forall a : list A,
    exists b,
      selection_sort a = Ok b /\ Permutation a b /\ non_decreasing b.
Proof.
  intros a. destruct (selection_sort_sorts a) as (b & E & Hp & Hs).
  exists b. auto.
Qed.

(** X7.  [insertion_sort], with its default offset 0 and gap 1,
    returns the elements of the list in non-decreasing order. *)
Theorem insertion_sort_correct :
  forall (fuel : nat) (a : list A),
    (length a < fuel)%nat ->
    exists b,
      insertion_sort fuel a 0 1 = Ok b /\
      Permutation a b /\ non_decreasing b.
Proof.
  intros fuel a Hfuel.
  destruct (insertion_sort_sorts fuel a Hfuel) as (b & E & Hp & Hs).
  exists b. auto.
Qed.

(** X8.  On a list already in order [insertion_sort] changes nothing:
    every pass finds its element in place. *)
Theorem insertion_sort_sorted_input :
  forall (fuel : nat) (a : list A),
    non_decreasing a -> (0 < fuel)%nat ->
    insertion_sort fuel a 0 1 = Ok a.
Proof.
  intros fuel a Hs Hfuel. now apply insertion_sort_sorted.
Qed.

End ElementaryExtras.

Lemma bubble_sort_correct_witness :
  exists b,
    bubble_sort [3; 1; 2; 1] = Ok b /\ Permutation [3; 1; 2; 1] b /\
    non_decreasing b.
Proof.
  apply (@bubble_sort_correct Z PyOrd_Z PyOrdLaws_Z [3; 1; 2; 1]).
Defined.

Lemma short_bubble_sort_sorted_input_witness :
  short_bubble_sort [1; 2; 2; 5] = Ok [1; 2; 2; 5] /\
  (1 < len [1; 2; 2; 5] ->
   short_bubble_pass (len [1; 2; 2; 5] - 1) [1; 2; 2; 5]
     = Ok (true, [1; 2; 2; 5])) /\
  (forall rest : list Z,
     for_break ((len [1; 2; 2; 5] - 1) :: rest) short_bubble_pass
       [1; 2; 2; 5] = Ok [1; 2; 2; 5]).
Proof.
  apply (@short_bubble_sort_sorted_input Z PyOrd_Z PyOrdLaws_Z [1; 2; 2; 5]).
  repeat constructor.
Defined.

Lemma selection_sort_correct_witness :
  exists b,
    selection_sort [3; 1; 2; 1] = Ok b /\ Permutation [3; 1; 2; 1] b /\
    non_decreasing b.
Proof.
  apply (@selection_sort_correct Z PyOrd_Z PyOrdLaws_Z [3; 1; 2; 1]).
Defined.

Lemma insertion_sort_correct_witness :
  exists b,
    insertion_sort 5 [3; 1; 2; 1] 0 1 = Ok b /\
    Permutation [3; 1; 2; 1] b /\ non_decreasing b.
Proof.
  apply (@insertion_sort_correct Z PyOrd_Z PyOrdLaws_Z 5%nat [3; 1; 2; 1]).
  simpl. lia.
Defined.

Lemma insertion_sort_sorted_input_witness :
  insertion_sort 1 [1; 2; 2; 5] 0 1 = Ok [1; 2; 2; 5].
Proof.
  apply (@insertion_sort_sorted_input Z PyOrd_Z PyOrdLaws_Z 1%nat
           [1; 2; 2; 5]).
  - repeat constructor.
  - lia.
Defined.

(** ** insertion_sort with a gap *)

Lemma for_each_range_step_inv {St : Type} (I : Z -> St -> Prop)
  start stop step (body : Z -> St -> result St) s :
  0 < step ->
  I 0 s ->
  (forall k s, 0 <= k -> start + step * k < stop -> I k s ->
     exists s', body (start + step * k) s = Ok s' /\ I (k + 1) s') ->
  exists s' K,
    for_each (range start stop step) body s = Ok s' /\
    0 <= K /\ I K s' /\ stop <= start + step * K.
Proof.
  intros Hstep. remember (Z.to_nat (stop - start)) as n eqn:En.
  revert I start s En. induction n as [n IH] using lt_wf_ind.
  intros I start s En H0 Hbody.
  destruct (Z.le_gt_cases stop start) as [Hle|Hlt].
  - rewrite range_nil by lia. simpl. exists s, 0.
    repeat split; auto; lia.
  - rewrite range_cons by lia. simpl.
    destruct (Hbody 0 s ltac:(lia) ltac:(lia) H0) as (s1 & E1 & H1).
    replace (start + step * 0) with start in E1 by lia.
    rewrite E1. simpl.
    destruct (IH (Z.to_nat (stop - (start + step))) ltac:(lia)
                (fun k => I (k + 1)) (start + step) s1 eq_refl H1)
      as (s2 & K & E2 & HK & HI & Hstop).
    + intros k s' Hk Hlt' Hs'.
      replace (start + step + step * k) with (start + step * (k + 1))
        by lia.
      apply Hbody; auto; lia.
    + exists s2, (K + 1). repeat split; auto; lia.
Qed.

Lemma class_pos_inj start gap u v :
  0 < gap -> class_pos start gap u = class_pos start gap v -> u = v.
Proof. unfold class_pos. intros Hg H. nia. Qed.

Lemma class_pos_lt start gap u v :
  0 < gap -> u < v -> class_pos start gap u < class_pos start gap v.
Proof. unfold class_pos. intros Hg H. nia. Qed.

Lemma class_pos_nonneg start gap u :
  0 <= start -> 0 < gap -> 0 <= u -> 0 <= class_pos start gap u.
Proof. unfold class_pos. intros Hs Hg H. nia. Qed.

Lemma class_pos_mod start gap u :
  0 <= start < gap -> class_pos start gap u mod gap = start.
Proof.
  intros H. unfold class_pos. rewrite (Z.mul_comm gap u).
  rewrite Z.mod_add by lia. apply Z.mod_small. lia.
Qed.

Lemma class_pos_pred start gap u :
  class_pos start gap u - gap = class_pos start gap (u - 1).
Proof. unfold class_pos. lia. Qed.

Lemma class_pos_succ start gap u :
  start + gap + gap * u = class_pos start gap (u + 1).
Proof. unfold class_pos. lia. Qed.

Lemma class_pos_of_mod start gap p :
  0 < gap -> 0 <= p -> p mod gap = start ->
  p = class_pos start gap (p / gap) /\ 0 <= p / gap.
Proof.
  intros Hg Hp Hm. unfold class_pos. split.
  - pose proof (Z.div_mod p gap ltac:(lia)). lia.
  - apply Z.div_pos; lia.
Qed.

Section GapFacts.
Context {A : Type} {Ord : PyOrd A} {Laws : PyOrdLaws A}.
Implicit Types (a b c : list A).

Lemma item_store_class c start gap u v (w : A) :
  0 <= start -> 0 < gap -> 0 <= u -> 0 <= v ->
  class_pos start gap u < len c ->
  item (store c (class_pos start gap u) w) (class_pos start gap v)
  = if u =? v then Some w else item c (class_pos start gap v).
Proof.
  intros Hs Hg Hu Hv Hlen.
  pose proof (class_pos_nonneg start gap u Hs Hg Hu).
  pose proof (class_pos_nonneg start gap v Hs Hg Hv).
  rewrite item_store by lia.
  destruct (Z.eqb_spec u v) as [->|Hne].
  - rewrite Z.eqb_refl.
    destruct (Z.ltb_spec (class_pos start gap v) (len c)); [reflexivity|lia].
  - destruct (Z.eqb_spec (class_pos start gap u) (class_pos start gap v))
      as [E|E]; [|reflexivity].
    apply class_pos_inj in E; [contradiction|lia].
Qed.

Lemma class_frame_store a c start gap u (w : A) :
  0 <= start < gap -> 0 <= u ->
  class_frame a c start gap ->
  class_frame a (store c (class_pos start gap u) w) start gap.
Proof.
  intros Hs Hu Hf p Hp.
  destruct (Z.lt_ge_cases p 0) as [Hneg|Hpos].
  - rewrite !item_neg by lia. reflexivity.
  - pose proof (class_pos_nonneg start gap u ltac:(lia) ltac:(lia) Hu).
    rewrite item_store_other; [now apply Hf|lia|lia|].
    intros E. apply Hp. rewrite <- E. now apply class_pos_mod.
Qed.

(** One pass on the [k]-th item of the sub-sequence. *)
Lemma insertion_pass_class fuel start gap k b :
  0 <= start < gap -> 1 <= k ->
  class_pos start gap k < len b -> (length b < fuel)%nat ->
  class_sorted_upto b start gap k ->
  exists c,
    insertion_pass fuel gap (class_pos start gap k) b = Ok c /\
    len c = len b /\ Permutation b c /\
    class_frame b c start gap /\
    class_sorted_upto c start gap (k + 1).
Proof.
  intros Hs Hk Hn Hfuel Hsorted. unfold insertion_pass.
  pose proof (class_pos_nonneg start gap k ltac:(lia) ltac:(lia) ltac:(lia))
    as Hn0.
  destruct (proj2 (item_range b (class_pos start gap k)) ltac:(lia))
    as [value Hv].
  rewrite (getitem_Some _ _ _ Hv). simpl.
  destruct (while_inv
    (fun s : list A * Z =>
       let '(c, j) := s in
       exists h,
         j = class_pos start gap h /\ 0 <= h <= k /\
         len c = len b /\
         Permutation b (store c j value) /\
         class_frame b c start gap /\
         class_shifted c start gap h k value)
    (fun s => Z.to_nat (snd s))
    (fun s : list A * Z =>
       let '(a, j) := s in
       if j >=? gap
       then do x <- getitem a (j - gap) ;; Ok (py_gt x value)
       else Ok false)
    (fun s : list A * Z =>
       let '(a, j) := s in
       do x <- getitem a (j - gap) ;;
       do a <- setitem a j x ;;
       Ok (a, j - gap))
    fuel (b, class_pos start gap k))
    as ([c j] & E & (h & Hj & Hh & Hl & Hp & Hf & Hsh1 & Hsh2) & Hexit).
  - exists k. split; [reflexivity|]. split; [lia|]. split; [reflexivity|].
    split; [rewrite (store_same _ _ _ Hv); apply Permutation_refl|].
    split; [intros p _; reflexivity|]. split.
    + intros u v x y Hu Huv Hvk Hne1 Hne2. apply Hsorted; auto; lia.
    + intros; lia.
  - intros [c j] (h & Hj & Hh & Hl & Hp & Hf & Hsh1 & Hsh2). subst j.
    pose proof (class_pos_nonneg start gap h ltac:(lia) ltac:(lia) ltac:(lia))
      as Hh0.
    assert (Hhk : class_pos start gap h <= class_pos start gap k).
    { destruct (Z.eq_dec h k) as [->|]; [lia|].
      apply Z.lt_le_incl, class_pos_lt; lia. }
    rewrite Z.geb_leb.
    destruct (Z.leb_spec gap (class_pos start gap h)) as [Hge|Hlt].
    + assert (Hh1 : 1 <= h).
      { destruct (Z.eq_dec h 0) as [->|]; [|lia].
        unfold class_pos in Hge. lia. }
      rewrite class_pos_pred.
      pose proof (class_pos_nonneg start gap (h - 1)
                    ltac:(lia) ltac:(lia) ltac:(lia)) as Hp0.
      pose proof (class_pos_lt start gap (h - 1) h ltac:(lia) ltac:(lia))
        as Hplt.
      destruct (proj2 (item_range c (class_pos start gap (h - 1)))
                  ltac:(lia)) as [w Hw].
      rewrite (getitem_Some _ _ _ Hw). simpl.
      eexists; split; [reflexivity|]. intros G.
      rewrite setitem_store by lia. simpl.
      eexists; split; [reflexivity|].
      split; [|simpl; lia].
      exists (h - 1). split; [reflexivity|]. split; [lia|].
      split; [now rewrite len_store|]. split; [|split; [|split]].
      * eapply perm_trans; [exact Hp|].
        assert (Hc1 : item (store c (class_pos start gap h) value)
                        (class_pos start gap h) = Some value)
          by (apply item_store_same; lia).
        assert (Hc2 : item (store c (class_pos start gap h) value)
                        (class_pos start gap (h - 1)) = Some w)
          by (rewrite item_store_other by lia; exact Hw).
        pose proof (store_swap_Permutation _ _ _ _ _ Hc1 Hc2) as Hsw.
        rewrite store_store in Hsw by lia. exact Hsw.
      * apply class_frame_store; auto; lia.
      * apply py_gt_lt in G.
        intros u v x y Hu Huv Hvk Hne1 Hne2 Hx Hy.
        rewrite item_store_class in Hx, Hy by lia.
        destruct (Z.eqb_spec h u) as [Eu|Hhu];
          destruct (Z.eqb_spec h v) as [Ev|Hhv]; try lia.
        -- injection Hx as <-.
           apply (Hsh1 (h - 1) v); auto; lia.
        -- injection Hy as <-.
           apply (Hsh1 u (h - 1)); auto; lia.
        -- apply (Hsh1 u v); auto; lia.
      * apply py_gt_lt in G.
        intros v y Hhv Hvk Hy.
        rewrite item_store_class in Hy by lia.
        destruct (Z.eqb_spec h v) as [Ev|Hne].
        -- injection Hy as <-. exact G.
        -- apply (Hsh2 v); auto; lia.
    + eexists; split; [reflexivity|]. discriminate.
  - simpl. unfold len in Hn. lia.
  - rewrite E. simpl. subst j.
    pose proof (class_pos_nonneg start gap h ltac:(lia) ltac:(lia) ltac:(lia))
      as Hh0.
    assert (Hhk : class_pos start gap h <= class_pos start gap k).
    { destruct (Z.eq_dec h k) as [->|]; [lia|].
      apply Z.lt_le_incl, class_pos_lt; lia. }
    rewrite setitem_store by lia.
    eexists; split; [reflexivity|].
    split; [now rewrite len_store|]. split; [exact Hp|].
    split; [apply class_frame_store; auto; lia|].
    assert (Hlow : forall u x, 0 <= u < h ->
              item c (class_pos start gap u) = Some x ->
              py_le x value = true).
    { intros u x Hu Hx.
      assert (Hge : gap <= class_pos start gap h)
        by (unfold class_pos; nia).
      rewrite Z.geb_leb in Hexit.
      destruct (Z.leb_spec gap (class_pos start gap h)); [|lia].
      rewrite class_pos_pred in Hexit.
      pose proof (class_pos_nonneg start gap (h - 1)
                    ltac:(lia) ltac:(lia) ltac:(lia)) as Hp0.
      pose proof (class_pos_lt start gap (h - 1) h ltac:(lia) ltac:(lia))
        as Hplt.
      destruct (proj2 (item_range c (class_pos start gap (h - 1)))
                  ltac:(lia)) as [w Hw].
      rewrite (getitem_Some _ _ _ Hw) in Hexit. simpl in Hexit.
      injection Hexit as G. apply py_gt_false in G.
      destruct (Z.eq_dec u (h - 1)) as [->|Hne].
      - assert (x = w) by congruence. subst. exact G.
      - apply (py_le_trans x w value); auto.
        apply (Hsh1 u (h - 1)); auto; lia. }
    intros u v x y Hu Huv Hvk Hx Hy.
    rewrite item_store_class in Hx, Hy by lia.
    destruct (Z.eqb_spec h u) as [Eu|Hhu];
      destruct (Z.eqb_spec h v) as [Ev|Hhv]; try lia.
    + injection Hx as <-. apply (Hsh2 v); auto; lia.
    + injection Hy as <-. apply (Hlow u); auto; lia.
    + apply (Hsh1 u v); auto; lia.
Qed.

(** X9.  With an offset below the gap, [insertion_sort] sorts the
    interleaved sub-sequence of the items whose index is the offset
    modulo the gap, and leaves every other item where it was. *)
Theorem insertion_sort_sorts_class :
  forall (fuel : nat) (a : list A) (start gap : Z),
    0 <= start < gap -> (length a < fuel)%nat ->
    exists b,
      insertion_sort fuel a start gap = Ok b /\
      Permutation a b /\
      (forall p, p mod gap <> start -> item b p = item a p) /\
      residue_class_sorted b gap start.
Proof.
  intros fuel a start gap Hs Hfuel. unfold insertion_sort, py_range.
  destruct (Z.eqb_spec gap 0); [lia|]. simpl.
  destruct (for_each_range_step_inv
    (fun k b =>
       len b = len a /\ Permutation a b /\ class_frame a b start gap /\
       class_sorted_upto b start gap (k + 1))
    (start + gap) (len a) gap (insertion_pass fuel gap) a)
    as (b & K & E & HK & (Hl & Hp & Hf & Hsorted) & Hstop); try lia.
  - split; [reflexivity|]. split; [apply Permutation_refl|].
    split; [intros p _; reflexivity|]. intros u v x y Hu Huv Hv. lia.
  - intros k b Hk Hlt (Hl & Hp & Hf & Hsorted).
    rewrite class_pos_succ in *.
    destruct (insertion_pass_class fuel start gap (k + 1) b)
      as (c & Ec & Hlc & Hpc & Hfc & Hsc); auto; try lia.
    { unfold len in Hl. lia. }
    exists c. split; [exact Ec|]. split; [lia|].
    split; [eapply perm_trans; eauto|]. split; [|exact Hsc].
    intros p Hp'. rewrite Hfc, Hf; auto.
  - exists b. split; [exact E|]. split; [exact Hp|]. split; [exact Hf|].
    intros p q x y Hp0 Hpq Hpm Hqm Hx Hy.
    pose proof (item_Some_range _ _ _ Hy) as Hq.
    destruct (class_pos_of_mod start gap p ltac:(lia) Hp0 Hpm) as [Ep Hu].
    destruct (class_pos_of_mod start gap q ltac:(lia) ltac:(lia) Hqm)
      as [Eq Hv].
    rewrite Ep in Hx. rewrite Eq in Hy.
    apply (Hsorted (p / gap) (q / gap)); auto.
    + unfold class_pos in Ep, Eq. nia.
    + rewrite class_pos_succ in Hstop. unfold class_pos in Eq, Hstop. nia.
Qed.

End GapFacts.

Lemma insertion_sort_sorts_class_witness :
  exists b,
    insertion_sort 7 [9; 1; 8; 2; 7; 3] 1 2 = Ok b /\
    Permutation [9; 1; 8; 2; 7; 3] b /\
    (forall p, p mod 2 <> 1 -> item b p = item [9; 1; 8; 2; 7; 3] p) /\
    residue_class_sorted b 2 1.
Proof.
  apply (@insertion_sort_sorts_class Z PyOrd_Z PyOrdLaws_Z 7%nat
           [9; 1; 8; 2; 7; 3] 1 2).
  - lia.
  - simpl. lia.
Defined.

(** ** shell_sort *)

Lemma range_negative_step_nil gap : gap < 0 -> range gap 0 gap = [].
Proof.
  intros Hg. unfold range, range_len.
  destruct (Z.ltb_spec 0 gap); [lia|].
  assert (H0 : (gap - 0 - gap - 1) / - gap < 0)
    by (apply Z.div_lt_upper_bound; lia).
  replace (Z.to_nat (Z.max 0 ((gap - 0 - gap - 1) / - gap))) with O by lia.
  reflexivity.
Qed.

Lemma div_negative_gap x gap : 0 < x -> gap < 0 -> x / gap < 0.
Proof.
  intros Hx Hg.
  pose proof (Z.div_mod x gap ltac:(lia)).
  pose proof (Z.mod_neg_bound x gap Hg). nia.
Qed.

Section ShellExtras.
Context {A : Type} {Ord : PyOrd A} {Laws : PyOrdLaws A}.
Implicit Types (a b : list A).

(** With a negative gap the loop over the sub-lists does nothing. *)
Lemma shell_sort_negative_gap fuel a gap :
  gap < 0 -> shell_sort fuel a gap = insertion_sort fuel a 0 1.
Proof.
  intros Hg. unfold shell_sort, floordiv.
  destruct (Z.eqb_spec gap 0); [lia|]. simpl.
  destruct a as [|x a].
  - change (len []) with 0. rewrite Z.div_0_l by lia.
    unfold shell_sublists. rewrite range_cons by lia.
    rewrite range_nil by lia. simpl.
    unfold insertion_sort at 1, py_range.
    destruct (Z.eqb_spec gap 0); [lia|]. simpl.
    change (len []) with 0. rewrite range_negative_step_nil by lia.
    reflexivity.
  - assert (Hlen : 0 < len (x :: a)) by (rewrite len_cons; pose proof (len_nonneg a); lia).
    pose proof (div_negative_gap _ _ Hlen Hg).
    unfold shell_sublists. rewrite range_nil by lia. reflexivity.
Qed.

(** X10.  [shell_sort] returns the elements of the list in
    non-decreasing order for every gap other than 0, the last pass
    with gap 1 putting in order what the passes with the gap left;
    with gap 0 it raises [ZeroDivisionError] from [len(a) // gap]. *)
Theorem shell_sort_any_gap :
  forall (fuel : nat) (a : list A) (gap : Z),
    (length a < fuel)%nat ->
    (gap = 0 -> shell_sort fuel a gap = Raise ZeroDivisionError) /\
    (gap <> 0 ->
     exists b,
       shell_sort fuel a gap = Ok b /\ Permutation a b /\ non_decreasing b).
Proof.
  intros fuel a gap Hfuel. split.
  - intros ->. reflexivity.
  - intros Hne. destruct (Z.lt_ge_cases gap 0) as [Hneg|Hpos].
    + rewrite shell_sort_negative_gap by lia.
      destruct (insertion_sort_sorts fuel a Hfuel) as (b & E & Hp & Hs).
      exists b. auto.
    + destruct (shell_sort_sorts fuel a gap ltac:(lia) Hfuel)
        as (b & E & Hp & Hs).
      exists b. auto.
Qed.

(** X11.  With gap 1 [shell_sort] returns what [insertion_sort]
    returns. *)
Theorem shell_sort_gap_one :
  forall (fuel : nat) (a : list A),
    (length a < fuel)%nat ->
    shell_sort fuel a 1 = insertion_sort fuel a 0 1.
Proof.
  intros fuel a Hfuel. now apply shell_sort_gap_1.
Qed.

End ShellExtras.

Lemma shell_sort_any_gap_witness :
  (-2 = 0 -> shell_sort 6 [3; 1; 4; 1; 5] (-2) = Raise ZeroDivisionError) /\
  (-2 <> 0 ->
   exists b,
     shell_sort 6 [3; 1; 4; 1; 5] (-2) = Ok b /\
     Permutation [3; 1; 4; 1; 5] b /\ non_decreasing b).
Proof.
  apply (@shell_sort_any_gap Z PyOrd_Z PyOrdLaws_Z 6%nat [3; 1; 4; 1; 5] (-2)).
  simpl. lia.
Defined.

Lemma shell_sort_gap_one_witness :
  shell_sort 6 [3; 1; 4; 1; 5] 1 = insertion_sort 6 [3; 1; 4; 1; 5] 0 1.
Proof.
  apply (@shell_sort_gap_one Z PyOrd_Z PyOrdLaws_Z 6%nat [3; 1; 4; 1; 5]).
  simpl. lia.
Defined.

(** ** partition and quick_sort *)

Section QuickExtras.
Context {A : Type} {Ord : PyOrd A} {Laws : PyOrdLaws A}.
Implicit Types (a b : list A).

(** X12.  The [while (True)] loop of [partition], started with the
    pivot at [start], ends with the pivot at the split point [right],
    the items of the range before it [<=] the pivot and those after it
    [>=] the pivot; the items outside [[start, end]] are not touched. *)
Theorem find_split_splits :
  forall (fuel : nat) (a : list A) (start end_ : Z) (pivot : A),
    0 <= start -> start < end_ -> end_ < len a ->
    item a start = Some pivot ->
    (Z.to_nat (end_ - start + 1) < fuel)%nat ->
    exists b right_,
      find_split fuel a start end_ pivot = Ok (b, right_) /\
      Permutation a b /\
      (forall p, p < start \/ end_ < p -> item b p = item a p) /\
      start <= right_ <= end_ /\
      item b right_ = Some pivot /\
      (forall p x, start <= p < right_ -> item b p = Some x ->
                   py_le x pivot = true) /\
      (forall p x, right_ < p <= end_ -> item b p = Some x ->
                   py_le pivot x = true).
Proof.
  intros fuel a start end_ pivot Hs Hlt He Hpiv Hfuel.
  destruct (find_split_spec fuel a start end_ pivot Hs Hlt He Hpiv Hfuel)
    as (b & r & E & (_ & Hp & Ho & _) & Hr & Hpr & Hleft & Hright).
  exists b, r. split; [exact E|]. split; [exact Hp|].
  split; [exact Ho|]. split; [exact Hr|]. split; [exact Hpr|]. split.
  - intros p x Hp' Hx. apply (Hleft p); auto. lia.
  - intros p x Hp' Hx. apply (Hright p); auto. lia.
Qed.

(** X13.  [partition] sorts the items of [a[start..end]] among
    themselves and leaves the items outside the range where they
    were, for every pivot factor between 0 and 1. *)
Theorem partition_sorts_range :
  forall (fuel : nat) (a : list A) (start end_ : Z) (fact : Q),
    0 <= start -> end_ < len a ->
    (0 <= fact)%Q -> (fact <= 1)%Q ->
    (Z.to_nat (end_ - start + 1) < fuel)%nat ->
    exists b,
      partition fuel a start end_ fact = Ok b /\
      Permutation a b /\
      (forall p, p < start \/ end_ < p -> item b p = item a p) /\
      sorted_between b start end_.
Proof.
  intros fuel a start end_ fact Hs He Hf0 Hf1 Hfuel.
  destruct (partition_spec fuel a start end_ fact Hs He Hf0 Hf1 Hfuel)
    as (b & E & (_ & Hp & Ho & _) & Hsorted).
  exists b. auto.
Qed.

(** X14.  [quick_sort] returns the elements of the list in
    non-decreasing order for every pivot factor between 0 and 1. *)
Theorem quick_sort_correct :
  forall (fuel : nat) (a : list A) (fact : Q),
    (0 <= fact)%Q -> (fact <= 1)%Q -> (length a < fuel)%nat ->
    exists b,
      quick_sort fuel a fact = Ok b /\ Permutation a b /\ non_decreasing b.
Proof.
  intros fuel a fact Hf0 Hf1 Hfuel.
  destruct (quick_sort_sorts fuel a fact Hf0 Hf1 Hfuel)
    as (b & E & Hp & Hs).
  exists b. auto.
Qed.

End QuickExtras.

Lemma find_split_splits_witness :
  exists b right_,
    find_split 6 [3; 5; 1; 4; 2] 0 4 3 = Ok (b, right_) /\
    Permutation [3; 5; 1; 4; 2] b /\
    (forall p, p < 0 \/ 4 < p -> item b p = item [3; 5; 1; 4; 2] p) /\
    0 <= right_ <= 4 /\
    item b right_ = Some 3 /\
    (forall p x, 0 <= p < right_ -> item b p = Some x ->
                 py_le x 3 = true) /\
    (forall p x, right_ < p <= 4 -> item b p = Some x ->
                 py_le 3 x = true).
Proof.
  apply (@find_split_splits Z PyOrd_Z PyOrdLaws_Z 6%nat [3; 5; 1; 4; 2] 0 4 3).
  - lia.
  - lia.
  - change (4 < 5). lia.
  - reflexivity.
  - simpl. lia.
Defined.

Lemma partition_sorts_range_witness :
  exists b,
    partition 4 [9; 3; 1; 2; 0] 1 3 (1 # 2) = Ok b /\
    Permutation [9; 3; 1; 2; 0] b /\
    (forall p, p < 1 \/ 3 < p -> item b p = item [9; 3; 1; 2; 0] p) /\
    sorted_between b 1 3.
Proof.
  apply (@partition_sorts_range Z PyOrd_Z PyOrdLaws_Z 4%nat
           [9; 3; 1; 2; 0] 1 3 (1 # 2)).
  - lia.
  - change (3 < 5). lia.
  - unfold Qle. simpl. lia.
  - unfold Qle. simpl. lia.
  - simpl. lia.
Defined.

Lemma quick_sort_correct_witness :
  exists b,
    quick_sort 6 [3; 5; 1; 4; 2] 1 = Ok b /\
    Permutation [3; 5; 1; 4; 2] b /\ non_decreasing b.
Proof.
  apply (@quick_sort_correct Z PyOrd_Z PyOrdLaws_Z 6%nat [3; 5; 1; 4; 2] 1).
  - unfold Qle. simpl. lia.
  - unfold Qle. simpl. lia.
  - simpl. lia.
Defined.

(** ** merge_sort *)

Section MergeExtras.
Context {A : Type} {Ord : PyOrd A} {Laws : PyOrdLaws A}.
Implicit Types (a b left right : list A).

(** X15.  The three merging loops of [merge_sort] write over [a] the
    elements of the two halves, in non-decreasing order when the
    halves are; the result does not depend on what [a] held before,
    only on its length. *)
Theorem merge_overwrites :
  forall (fuel : nat) (left right a : list A),
    len a = len left + len right -> (length a < fuel)%nat ->
    exists b,
      merge fuel left right a = Ok b /\
      Permutation (left ++ right) b /\
      (non_decreasing left -> non_decreasing right -> non_decreasing b) /\
      (forall a', len a' = len a -> merge fuel left right a' = Ok b).
Proof.
  intros fuel left right a Hlen Hfuel.
  exists (merged left right).
  split; [now apply merge_merged|].
  split; [apply merged_Permutation|].
  split; [apply merged_sorted|].
  intros a' Hl. apply merge_merged; [lia|].
  unfold len in Hl. lia.
Qed.

(** X16.  [merge_sort] returns the elements of the list in
    non-decreasing order. *)
Theorem merge_sort_correct :
  forall (fuel : nat) (a : list A),
    (length a < fuel)%nat ->
    exists b,
      merge_sort fuel a = Ok b /\ Permutation a b /\ non_decreasing b.
Proof.
  intros fuel a Hfuel.
  destruct (merge_sort_sorts fuel a Hfuel) as (b & E & Hp & Hs).
  exists b. auto.
Qed.

End MergeExtras.

Lemma merge_overwrites_witness :
  exists b,
    merge 5 [1; 4] [2; 3] [0; 0; 0; 0] = Ok b /\
    Permutation ([1; 4] ++ [2; 3]) b /\
    (non_decreasing [1; 4] -> non_decreasing [2; 3] -> non_decreasing b) /\
    (forall a', len a' = len [0; 0; 0; 0] -> merge 5 [1; 4] [2; 3] a' = Ok b).
Proof.
  apply (@merge_overwrites Z PyOrd_Z PyOrdLaws_Z 5%nat
           [1; 4] [2; 3] [0; 0; 0; 0]).
  - reflexivity.
  - simpl. lia.
Defined.

Lemma merge_sort_correct_witness :
  exists b,
    merge_sort 6 [3; 5; 1; 4; 2] = Ok b /\
    Permutation [3; 5; 1; 4; 2] b /\ non_decreasing b.
Proof.
  apply (@merge_sort_correct Z PyOrd_Z PyOrdLaws_Z 6%nat [3; 5; 1; 4; 2]).
  simpl. lia.
Defined.

(** ** heap_sort *)

Section HeapExtras.
Context {A : Type} {H : BinaryHeap A}.
Implicit Types (a b : list A).

(** The loop of [heap_sort] from index [i] on, against the items that
    the heap still gives out. *)
Lemma heap_sort_loop_drain a (n : nat) :
  forall i b (h : heap),
    0 <= i -> len b = len a -> n = Z.to_nat (len a - i) ->
    (do s <- for_each (range i (len a) 1)
        (fun i (s : list A * heap) =>
           let '(a, h) := s in
           do '(x, h) <- heap_get h ;;
           do a <- setitem a i x ;;
           Ok (a, h))
        (b, h) ;;
     Ok (fst s))
    =
    (do rest <- heap_drain n h ;;
     Ok (firstn (Z.to_nat i) b ++ rest)).
Proof.
  induction n as [|n IH]; intros i b h Hi Hl Hn.
  - destruct (Z.le_gt_cases (len a) i) as [Hle|Hgt]; [|lia].
    rewrite range_nil by lia. simpl. rewrite app_nil_r.
    f_equal. symmetry. apply firstn_all2. unfold len in *. lia.
  - rewrite range_cons by lia. simpl.
    destruct (heap_get h) as [[x h']| |]; simpl; auto.
    rewrite setitem_store by lia. simpl.
    rewrite (IH (i + 1) (store b i x) h'); try lia.
    + destruct (heap_drain n h') as [rest| |]; simpl; auto.
      rewrite firstn_store_snoc by lia. now rewrite <- app_assoc.
    + now rewrite len_store.
Qed.

(** X17.  Whatever the heap does, [heap_sort] ends as [len(a)] calls
    of [get] on the heap built from the list end: it returns the items
    given out, in that order, and raises what the first failing call
    raises. *)
Theorem heap_sort_drains (a : list A) :
  heap_sort a = heap_drain (length a) (heap_new a).
Proof.
  unfold heap_sort.
  pose proof (heap_sort_loop_drain a (length a) 0 a (heap_new a)
                ltac:(lia) eq_refl) as Hloop.
  rewrite Z.sub_0_r in Hloop. unfold len at 1 in Hloop.
  rewrite Nat2Z.id in Hloop. specialize (Hloop eq_refl).
  simpl firstn in Hloop. simpl app in Hloop.
  destruct (heap_drain (length a) (heap_new a)) as [rest| |];
    simpl in Hloop;
    destruct (for_each (range 0 (len a) 1) _ (a, heap_new a))
      as [[b h]| |]; simpl in *; congruence.
Qed.

End HeapExtras.

(** ** build_index *)

Lemma range_len_up n : range_len 0 n 1 = Z.max 0 n.
Proof.
  unfold range_len. change (0 <? 1) with true. cbv iota.
  rewrite Z.div_1_r. lia.
Qed.

Lemma len_range_up n : 0 <= n -> len (range 0 n 1) = n.
Proof.
  intros Hn. unfold len, range. rewrite range_len_up.
  rewrite length_map, length_seq. lia.
Qed.

Lemma item_range_up n i : 0 <= i < n -> item (range 0 n 1) i = Some i.
Proof.
  intros Hi. unfold item, range. rewrite range_len_up.
  destruct (Z.ltb_spec i 0); [lia|].
  rewrite nth_error_map, nth_error_seq.
  destruct (Nat.ltb_spec (Z.to_nat i) (Z.to_nat (Z.max 0 n))); [|lia].
  cbn [option_map]. f_equal. lia.
Qed.

Lemma take_map {B : Type} (b : list B) (f : Z -> B) (ind : list Z) :
  (forall j, In j ind -> item b j = Some (f j)) ->
  take b ind = Ok (map f ind).
Proof.
  induction ind as [|j ind IH]; intros H; simpl.
  - reflexivity.
  - rewrite (getitem_Some _ _ _ (H j (or_introl eq_refl))). simpl.
    rewrite IH by (intros; apply H; now right). reflexivity.
Qed.

Section BuildIndexExtras.
Context {A : Type} {Ord : PyOrd A}.
Implicit Types (a a_sorted a_original : list A) (idx : list Z).

Lemma search_all_spec a_sorted a_original :
  len a_sorted <= len a_original ->
  (forall i x, 0 <= i < len a_sorted -> item a_original i = Some x ->
               exists y, In y a_sorted /\ py_eq y x = true) ->
  exists idx,
    search_all a_sorted a_original = Ok idx /\
    len idx = len a_sorted /\
    forall i, 0 <= i < len a_sorted ->
      exists x j,
        item a_original i = Some x /\ item idx i = Some j /\
        first_index_of a_sorted x (Some j).
Proof.
  intros Hlen Hin. unfold search_all.
  pose proof (len_nonneg a_sorted) as Hn.
  destruct (for_each_range_inv
    (fun k idx =>
       len idx = len a_sorted /\
       forall i, 0 <= i < k ->
         exists x j,
           item a_original i = Some x /\ item idx i = Some j /\
           first_index_of a_sorted x (Some j))
    0 (len a_sorted)
    (fun i idx =>
       do x <- getitem a_original i ;;
       do r <- sequential_search a_sorted x ;;
       np_setitem idx i r)
    (np_zeros (len a_sorted))) as (idx & E & Hl & Hidx); auto.
  - split; [now apply len_np_zeros|]. intros; lia.
  - intros i idx Hi [Hl Hidx].
    destruct (proj2 (item_range a_original i) ltac:(lia)) as [x Hx].
    rewrite (getitem_Some _ _ _ Hx). simpl.
    destruct (sequential_search_first a_sorted x) as (r & Er & Hr).
    rewrite Er. simpl. destruct r as [j|].
    + simpl. rewrite setitem_store by lia.
      eexists; split; [reflexivity|]. split; [now rewrite len_store|].
      intros p Hp. destruct (Z.eq_dec p i) as [->|Hne].
      * exists x, j. split; [exact Hx|]. split; [|exact Hr].
        apply item_store_same. lia.
      * destruct (Hidx p ltac:(lia)) as (x' & j' & Hx' & Hj' & Hf).
        exists x', j'. split; [exact Hx'|]. split; [|exact Hf].
        rewrite item_store_other by lia. exact Hj'.
    + destruct (Hin i x Hi Hx) as (y & Hy & Heq).
      simpl in Hr. rewrite (Hr y Hy) in Heq. discriminate.
  - exists idx. auto.
Qed.

(** X18.  When every element of the original sequence, up to the
    length of the sorted one, occurs in the sorted sequence, the loop
    of [build_index] builds the array that its comment
    "sorted[index] --> original" describes: entry [i] is the first
    position of the sorted sequence whose element equals
    [original[i]]. *)
Theorem search_all_first_positions :
  forall (a_sorted a_original : list A),
    len a_sorted <= len a_original ->
    (forall i x, 0 <= i < len a_sorted -> item a_original i = Some x ->
                 exists y, In y a_sorted /\ py_eq y x = true) ->
    exists idx,
      search_all a_sorted a_original = Ok idx /\
      len idx = len a_sorted /\
      forall i, 0 <= i < len a_sorted ->
        exists x j,
          item a_original i = Some x /\ item idx i = Some j /\
          first_index_of a_sorted x (Some j).
Proof.
  intros a_sorted a_original Hlen Hin.
  destruct (search_all_spec a_sorted a_original Hlen Hin)
    as (idx & E & Hl & Hidx).
  exists idx. auto.
Qed.

(** The loop of [build_index] reads past the end of an original
    sequence that is too short. *)
Lemma search_all_short a_sorted a_original :
  len a_original < len a_sorted ->
  (forall x, In x a_original -> exists y, In y a_sorted /\ py_eq y x = true) ->
  forall start idx,
    0 <= start <= len a_original -> len idx = len a_sorted ->
    for_each (range start (len a_sorted) 1)
      (fun i idx =>
         do x <- getitem a_original i ;;
         do r <- sequential_search a_sorted x ;;
         np_setitem idx i r)
      idx = Raise IndexError.
Proof.
  intros Hlen Hin start.
  remember (Z.to_nat (len a_original - start)) as n eqn:En.
  revert start En. induction n as [|n IH]; intros start En idx Hs Hl.
  - assert (start = len a_original) by lia. subst start.
    rewrite range_cons by lia. simpl.
    rewrite getitem_item by lia. rewrite item_out by lia. reflexivity.
  - rewrite range_cons by lia. simpl.
    destruct (proj2 (item_range a_original start) ltac:(lia)) as [x Hx].
    rewrite (getitem_Some _ _ _ Hx). simpl.
    destruct (sequential_search_first a_sorted x) as (r & Er & Hr).
    rewrite Er. simpl. destruct r as [j|].
    + simpl. rewrite setitem_store by lia. simpl.
      apply IH; try lia. now rewrite len_store.
    + destruct (Hin x (item_In _ _ _ Hx)) as (y & Hy & Heq).
      simpl in Hr. rewrite (Hr y Hy) in Heq. discriminate.
Qed.

(** X19.  When the original sequence is shorter than the sorted one
    and all its elements occur in the sorted one, [build_index] raises
    [IndexError]: the loop runs up to the length of the sorted
    sequence and reads the original past its end. *)
Theorem build_index_short_original :
  forall (a_sorted a_original : list A),
    len a_original < len a_sorted ->
    (forall x, In x a_original ->
               exists y, In y a_sorted /\ py_eq y x = true) ->
    build_index a_sorted a_original = Raise IndexError.
Proof.
  intros a_sorted a_original Hlen Hin.
  unfold build_index, search_all.
  rewrite (search_all_short a_sorted a_original Hlen Hin).
  - reflexivity.
  - pose proof (len_nonneg a_original). lia.
  - apply len_np_zeros. apply len_nonneg.
Qed.

Context {Laws : PyOrdLaws A}.

Lemma py_eq_trans_sym (x1 x2 y : A) :
  py_eq y x1 = true -> py_eq y x2 = true -> py_eq x1 x2 = true.
Proof.
  intros H1 H2. apply py_eq_true in H1 as [H1a H1b].
  apply py_eq_true in H2 as [H2a H2b].
  rewrite py_eq_le. apply andb_true_iff. split.
  - apply (py_le_trans x1 y x2); auto.
  - apply (py_le_trans x2 y x1); auto.
Qed.

(** X20.  For a sequence with no two equal elements, [build_index]
    of the sequence against itself is the identity array
    [[0, 1, ..., N-1]]. *)
Theorem build_index_identity :
  forall a : list A,
    pairwise_distinct a ->
    build_index a a = Ok (range 0 (len a) 1).
Proof.
  intros a Hd. pose proof (len_nonneg a) as Hn.
  destruct (search_all_spec a a) as (idx & E & Hl & Hidx); [lia| |].
  { intros i x Hi Hx. exists x. split; [eapply item_In; eauto|].
    apply py_eq_refl. }
  assert (Hid : idx = range 0 (len a) 1).
  { apply item_ext. intros i Hi.
    destruct (Z.lt_ge_cases i (len a)) as [Hlt|Hge].
    - rewrite item_range_up by lia.
      destruct (Hidx i ltac:(lia)) as (x & j & Hx & Hj & (y & Hy & Heq) & _).
      rewrite Hj. f_equal.
      destruct (Z.eq_dec j i) as [->|Hne]; [reflexivity|].
      rewrite (Hd j i y x Hne Hy Hx) in Heq. discriminate.
    - rewrite !item_out; auto; [rewrite len_range_up|]; lia. }
  unfold build_index. rewrite E. simpl. subst idx.
  rewrite (take_map _ (fun j => j)).
  - now rewrite map_id.
  - intros j Hj. apply In_range_up in Hj. now apply item_range_up.
Qed.

(** X21.  When the original sequence has no two equal elements and
    the sorted sequence holds the same elements, the index array that
    [build_index] returns is a permutation of [0 .. N-1]. *)
Theorem build_index_permutation :
  forall (a_sorted a_original : list A),
    Permutation a_original a_sorted ->
    pairwise_distinct a_original ->
    exists idx,
      build_index a_sorted a_original = Ok idx /\
      Permutation idx (range 0 (len a_original) 1).
Proof.
  intros a_sorted a_original Hperm Hd.
  pose proof (len_nonneg a_sorted) as Hn.
  assert (Hlen : len a_original = len a_sorted)
    by now apply Permutation_len.
  destruct (search_all_spec a_sorted a_original) as (idx & E & Hl & Hidx);
    [lia| |].
  { intros i x Hi Hx. exists x.
    split; [eapply Permutation_in; [exact Hperm|eapply item_In; eauto]|].
    apply py_eq_refl. }
  assert (Hrange : forall i j, item idx i = Some j -> 0 <= j < len idx).
  { intros i j Hj. pose proof (item_Some_range _ _ _ Hj) as Hi.
    destruct (Hidx i ltac:(lia)) as (x & j' & Hx & Hj' & (y & Hy & _) & _).
    assert (j' = j) by congruence. subst j'.
    apply item_Some_range in Hy. lia. }
  assert (Hnodup : NoDup idx).
  { apply NoDup_nth_error. intros i1 i2 Hi1 Heq.
    destruct (Nat.eq_dec i1 i2) as [|Hne]; [assumption|exfalso].
    destruct (nth_error idx i1) as [j|] eqn:E1;
      [|apply nth_error_None in E1; lia].
    symmetry in Heq.
    assert (H1 : item idx (Z.of_nat i1) = Some j).
    { unfold item. destruct (Z.ltb_spec (Z.of_nat i1) 0); [lia|].
      now rewrite Nat2Z.id. }
    assert (H2 : item idx (Z.of_nat i2) = Some j).
    { unfold item. destruct (Z.ltb_spec (Z.of_nat i2) 0); [lia|].
      now rewrite Nat2Z.id. }
    pose proof (item_Some_range _ _ _ H1) as R1.
    pose proof (item_Some_range _ _ _ H2) as R2.
    destruct (Hidx (Z.of_nat i1) ltac:(lia))
      as (x1 & j1 & Hx1 & Hj1 & (y1 & Hy1 & Heq1) & _).
    destruct (Hidx (Z.of_nat i2) ltac:(lia))
      as (x2 & j2 & Hx2 & Hj2 & (y2 & Hy2 & Heq2) & _).
    assert (j1 = j) by congruence. assert (j2 = j) by congruence.
    subst j1 j2. assert (y2 = y1) by congruence. subst y2.
    pose proof (py_eq_trans_sym x1 x2 y1 Heq1 Heq2) as Hx12.
    rewrite (Hd (Z.of_nat i1) (Z.of_nat i2) x1 x2) in Hx12; auto;
      [discriminate|lia]. }
  assert (Hpi : Permutation idx (range 0 (len idx) 1)).
  { apply NoDup_Permutation_bis; auto.
    - pose proof (len_range_up (len idx) (len_nonneg idx)) as Hlr.
      unfold len in *. lia.
    - intros j Hj. apply In_item in Hj as [i Hi].
      apply In_range_up. eapply Hrange; eauto. }
  set (f := fun j : Z => nth (Z.to_nat j) idx 0).
  assert (Hf : forall j, 0 <= j < len idx -> item idx j = Some (f j)).
  { intros j Hj. unfold item, f.
    destruct (Z.ltb_spec j 0); [lia|].
    apply nth_error_nth'. unfold len in Hj. lia. }
  exists (map f idx). split.
  - unfold build_index. rewrite E. simpl. apply take_map.
    intros j Hj. apply Hf. apply In_item in Hj as [i Hi].
    eapply Hrange; eauto.
  - assert (Hmap : map f (range 0 (len idx) 1) = idx).
    { apply item_ext. intros i Hi.
      destruct (Z.lt_ge_cases i (len idx)) as [Hlt|Hge].
      - rewrite Hf by lia. unfold item.
        destruct (Z.ltb_spec i 0); [lia|].
        rewrite nth_error_map.
        pose proof (item_range_up (len idx) i ltac:(lia)) as Hr.
        apply item_nth_error in Hr. rewrite Hr. reflexivity.
      - rewrite (item_out idx) by lia. apply item_out.
        unfold len. rewrite length_map.
        pose proof (len_range_up (len idx) (len_nonneg idx)) as Hlr.
        unfold len in *. lia. }
    rewrite Hlen, <- Hl.
    eapply perm_trans; [apply Permutation_map, Hpi|].
    rewrite Hmap. exact Hpi.
Qed.

End BuildIndexExtras.

Lemma search_all_first_positions_witness :
  exists idx,
    search_all [1; 2; 2; 3] [2; 3; 1; 2] = Ok idx /\
    len idx = len [1; 2; 2; 3] /\
    forall i, 0 <= i < len [1; 2; 2; 3] ->
      exists x j,
        item [2; 3; 1; 2] i = Some x /\ item idx i = Some j /\
        first_index_of [1; 2; 2; 3] x (Some j).
Proof.
  apply (search_all_first_positions [1; 2; 2; 3] [2; 3; 1; 2]).
  - vm_compute. discriminate.
  - intros i x Hi Hx. exists x. split.
    + apply item_In in Hx. simpl in *. tauto.
    + simpl. apply Z.eqb_refl.
Defined.

Lemma build_index_short_original_witness :
  build_index [1; 2; 3] [2; 1] = Raise IndexError.
Proof.
  apply (build_index_short_original [1; 2; 3] [2; 1]).
  - vm_compute. reflexivity.
  - intros x Hx. exists x. split.
    + simpl in *. tauto.
    + simpl. apply Z.eqb_refl.
Defined.

Lemma pairwise_distinct_example : pairwise_distinct [30; 10; 20].
Proof.
  intros i j x y Hne Hx Hy.
  pose proof (item_Some_range _ _ _ Hx) as Hi.
  pose proof (item_Some_range _ _ _ Hy) as Hj.
  change (len [30; 10; 20]) with 3 in Hi, Hj.
  assert (Ci : i = 0 \/ i = 1 \/ i = 2) by lia.
  assert (Cj : j = 0 \/ j = 1 \/ j = 2) by lia.
  destruct Ci as [-> | [-> | ->]]; destruct Cj as [-> | [-> | ->]];
    try lia; injection Hx as <-; injection Hy as <-; reflexivity.
Qed.

Lemma build_index_identity_witness :
  build_index [30; 10; 20] [30; 10; 20] = Ok (range 0 (len [30; 10; 20]) 1).
Proof.
  apply (@build_index_identity Z PyOrd_Z PyOrdLaws_Z [30; 10; 20]).
  apply pairwise_distinct_example.
Defined.

Lemma build_index_permutation_witness :
  exists idx,
    build_index [10; 20; 30] [30; 10; 20] = Ok idx /\
    Permutation idx (range 0 (len [30; 10; 20]) 1).
Proof.
  apply (@build_index_permutation Z PyOrd_Z PyOrdLaws_Z
           [10; 20; 30] [30; 10; 20]).
  - apply (perm_trans (l' := [10; 30; 20])).
    + apply (Permutation_cons_app [10] [20] 30). apply Permutation_refl.
    + apply perm_skip. apply perm_swap.
  - apply pairwise_distinct_example.
Defined.

(** ** sort *)

Section SortExtras.
Context {A : Type} {Ord : PyOrd A} {Laws : PyOrdLaws A}.
Context {H : BinaryHeap A} {HL : BinaryHeapLaws A}.
Implicit Types (a b data : list A).

(** X22.  With [descending] set [sort] returns the reverse of the
    sorted sequence and the reverse of the index array that it returns
    without it, and the index array has the length of the input. *)
Theorem sort_descending_reverses :
  forall (fuel : nat) (data : list A) (method : string)
         (param : option pynum),
    (length data < fuel)%nat -> param_ok method param ->
    exists a idx,
      sort fuel data method false param = Ok (a, idx) /\
      sort fuel data method true param = Ok (rev a, rev idx) /\
      len a = len data /\ len idx = len data.
Proof.
  intros fuel data method param Hfuel Hparam. unfold sort.
  destruct (sort_in_place_sorts fuel data method param Hfuel Hparam)
    as (b & Eb & Hp & Hs).
  rewrite Eb. simpl.
  assert (Hlb : len data = len b) by now apply Permutation_len.
  destruct (build_index_ok b data) as (idx & Ei & Hl).
  - exact Hlb.
  - intros x. now apply Permutation_in.
  - rewrite Ei. simpl. exists b, idx. rewrite !reverse_rev. simpl.
    repeat split; lia.
Qed.

(** X23.  For every method [sort] returns an empty sequence with an
    empty index array for an empty input, and the sequence itself
    with the index array [[0]] for an input of one element. *)
Theorem sort_empty_singleton :
  forall (fuel : nat) (method : string) (descending : bool)
         (param : option pynum) (x : A),
    (1 < fuel)%nat -> param_ok method param ->
    sort fuel [] method descending param = Ok ([], []) /\
    sort fuel [x] method descending param = Ok ([x], [0]).
Proof.
  intros fuel method descending param x Hfuel Hparam. split.
  - assert (Hf0 : (length (@nil A) < fuel)%nat) by (simpl; lia).
    destruct (sort_spec fuel [] method descending param Hf0 Hparam)
      as (b & idx & Hp & _ & Ei & _ & E).
    apply Permutation_nil in Hp. subst b.
    vm_compute in Ei. injection Ei as <-.
    rewrite E. now destruct descending.
  - assert (Hf1 : (length [x] < fuel)%nat) by (simpl; lia).
    destruct (sort_spec fuel [x] method descending param Hf1 Hparam)
      as (b & idx & Hp & _ & Ei & _ & E).
    apply Permutation_length_1_inv in Hp. subst b.
    pose proof (py_eq_refl x) as Hxx.
    vm_compute in Ei, Hxx. rewrite Hxx in Ei. injection Ei as <-.
    rewrite E. now destruct descending.
Qed.

Lemma sorted_Permutation_unique_antisym (l1 l2 : list A) :
  (forall x y : A, py_le x y = true -> py_le y x = true -> x = y) ->
  non_decreasing l1 -> non_decreasing l2 -> Permutation l1 l2 -> l1 = l2.
Proof.
  intros Hanti. unfold non_decreasing. revert l2.
  induction l1 as [|x l1 IH]; intros l2 H1 H2 Hp.
  - apply Permutation_nil in Hp. now subst.
  - destruct l2 as [|y l2].
    + apply Permutation_sym, Permutation_nil in Hp. discriminate.
    + apply StronglySorted_inv in H1 as [H1 Hx].
      apply StronglySorted_inv in H2 as [H2 Hy].
      rewrite Forall_forall in Hx, Hy.
      assert (x = y).
      { assert (Hyin : In y (x :: l1))
          by (eapply Permutation_in; [apply Permutation_sym, Hp|now left]).
        assert (Hxin : In x (y :: l2))
          by (eapply Permutation_in; [exact Hp|now left]).
        destruct Hyin as [|Hyin]; [auto|].
        destruct Hxin as [|Hxin]; [auto|].
        apply Hanti; auto. }
      subst y. f_equal. apply IH; auto.
      now apply Permutation_cons_inv in Hp.
Qed.

(** X24.  When two elements that are [<=] each other are the same
    element (integers, strings), the method does not matter: all the
    methods of [sort] return the same sequence and the same index
    array. *)
Theorem sort_method_independent :
  (forall x y : A, py_le x y = true -> py_le y x = true -> x = y) ->
  forall (fuel : nat) (data : list A) (method1 method2 : string)
         (descending : bool) (param1 param2 : option pynum),
    (length data < fuel)%nat ->
    param_ok method1 param1 -> param_ok method2 param2 ->
    sort fuel data method1 descending param1
    = sort fuel data method2 descending param2.
Proof.
  intros Hanti fuel data method1 method2 descending param1 param2
         Hfuel Hp1 Hp2.
  destruct (sort_spec fuel data method1 descending param1 Hfuel Hp1)
    as (b1 & idx1 & Hperm1 & Hs1 & Ei1 & _ & E1).
  destruct (sort_spec fuel data method2 descending param2 Hfuel Hp2)
    as (b2 & idx2 & Hperm2 & Hs2 & Ei2 & _ & E2).
  assert (b1 = b2).
  { apply sorted_Permutation_unique_antisym; auto.
    eapply perm_trans; [apply Permutation_sym, Hperm1|exact Hperm2]. }
  subst b2. assert (idx1 = idx2) by congruence. subst idx2.
  now rewrite E1, E2.
Qed.

End SortExtras.

Lemma sort_descending_reverses_witness :
  exists a idx,
    @sort Z PyOrd_Z ListHeap 5 [3; 1; 2; 1] "selection" false None
      = Ok (a, idx) /\
    @sort Z PyOrd_Z ListHeap 5 [3; 1; 2; 1] "selection" true None
      = Ok (rev a, rev idx) /\
    len a = len [3; 1; 2; 1] /\ len idx = len [3; 1; 2; 1].
Proof.
  apply (@sort_descending_reverses Z PyOrd_Z PyOrdLaws_Z ListHeap
           ListHeap_laws 5%nat [3; 1; 2; 1] "selection"%string None).
  - simpl. lia.
  - exact I.
Defined.

Lemma sort_empty_singleton_witness :
  @sort Z PyOrd_Z ListHeap 2 [] "heap" true None = Ok ([], []) /\
  @sort Z PyOrd_Z ListHeap 2 [7] "heap" true None = Ok ([7], [0]).
Proof.
  apply (@sort_empty_singleton Z PyOrd_Z PyOrdLaws_Z ListHeap
           ListHeap_laws 2%nat "heap"%string true None 7).
  - lia.
  - exact I.
Defined.

Lemma sort_method_independent_witness :
  @sort Z PyOrd_Z ListHeap 5 [3; 1; 2; 1] "bubble" true None
  = @sort Z PyOrd_Z ListHeap 5 [3; 1; 2; 1] "quick" true
      (Some (PyFloat (1 # 2))).
Proof.
  apply (@sort_method_independent Z PyOrd_Z PyOrdLaws_Z ListHeap
           ListHeap_laws).
  - intros x y Hxy Hyx. simpl in *. lia.
  - simpl. lia.
  - exact I.
  - unfold param_ok. simpl. unfold Qle. simpl. lia.
Defined.

Section SortTwice.
Context {A : Type} {Ord : PyOrd A} {Laws : PyOrdLaws A}.
Context {H : BinaryHeap A} {HL : BinaryHeapLaws A}.

(** X25.  Sorting is idempotent: when two elements that are [<=]
    each other are the same element, [sort] in ascending order
    applied to its own output returns that output again, whatever
    the two methods are. *)
Theorem sort_idempotent :
  (forall x y : A, py_le x y = true -> py_le y x = true -> x = y) ->
  forall (fuel : nat) (data : list A) (method1 method2 : string)
         (param1 param2 : option pynum),
    (length data < fuel)%nat ->
    param_ok method1 param1 -> param_ok method2 param2 ->
    exists a idx idx',
      sort fuel data method1 false param1 = Ok (a, idx) /\
      sort fuel a method2 false param2 = Ok (a, idx').
Proof.
  intros Hanti fuel data method1 method2 param1 param2 Hfuel Hp1 Hp2.
  destruct (sort_spec fuel data method1 false param1 Hfuel Hp1)
    as (b1 & idx1 & Hperm1 & Hs1 & _ & _ & E1).
  assert (Hfuel' : (length b1 < fuel)%nat).
  { rewrite <- (Permutation_length Hperm1). exact Hfuel. }
  destruct (sort_spec fuel b1 method2 false param2 Hfuel' Hp2)
    as (b2 & idx2 & Hperm2 & Hs2 & _ & _ & E2).
  assert (b1 = b2)
    by (apply sorted_Permutation_unique_antisym; auto).
  subst b2. exists b1, idx1, idx2. split; assumption.
Qed.

End SortTwice.

Lemma sort_idempotent_witness :
  exists a idx idx',
    @sort Z PyOrd_Z ListHeap 5 [3; 1; 2; 1] "heap" false None
      = Ok (a, idx) /\
    @sort Z PyOrd_Z ListHeap 5 a "shell" false (Some (PyInt 2))
      = Ok (a, idx').
Proof.
  apply (@sort_idempotent Z PyOrd_Z PyOrdLaws_Z ListHeap ListHeap_laws).
  - intros x y Hxy Hyx. simpl in *. lia.
  - simpl. lia.
  - exact I.
  - vm_compute. reflexivity.
Defined.

(** ** quick_sort in floating point *)

Section QuickFloat.
Context {A : Type} {Ord : PyOrd A} {Laws : PyOrdLaws A}.

(** X26.  With the pivot index computed as the interpreter computes
    it, in binary64 when the factor is a [float], [quick_sort] returns
    the elements of the list in non-decreasing order, for every list
    of at most [2^53] items and every factor, [int] or [float],
    between 0 and 1.  It is the list that [quick_sort] returns with
    the pivot index computed exactly when the factor is an [int], and
    when two elements that are [<=] each other are the same
    element. *)
Theorem quick_sort64_correct :
  forall (fuel : nat) (a : list A) (fact : pynum),
    len a <= 2 ^ 53 ->
    (0 <= num_to_Q fact)%Q -> (num_to_Q fact <= 1)%Q ->
    (length a < fuel)%nat ->
    exists b,
      quick_sort64 fuel a fact = Ok b /\ Permutation a b /\
      non_decreasing b /\
      ((exists k : Z, fact = PyInt k) ->
       quick_sort fuel a (num_to_Q fact) = Ok b) /\
      ((forall x y : A, py_le x y = true -> py_le y x = true -> x = y) ->
       quick_sort fuel a (num_to_Q fact) = Ok b).
Proof.
  intros fuel a fact Hlen Hf0 Hf1 Hfuel.
  destruct (quick_sort64_sorts fuel a fact Hlen Hf0 Hf1 Hfuel)
    as (b & E & Hp & Hs).
  exists b. split; [exact E|]. split; [exact Hp|]. split; [exact Hs|].
  split.
  - intros [k ->]. rewrite <- E. symmetry.
    apply partition64_int_factor.
  - intros Hanti.
    destruct (quick_sort_sorts fuel a (num_to_Q fact) Hf0 Hf1 Hfuel)
      as (b' & E' & Hp' & Hs').
    rewrite E'. f_equal.
    apply sorted_Permutation_unique_antisym; auto.
    eapply perm_trans; [apply Permutation_sym, Hp'|exact Hp].
Qed.

End QuickFloat.

Lemma quick_sort64_correct_witness :
  let fact := PyFloat (3152519739159347 # 4503599627370496) in
  exists b,
    quick_sort64 6 [3; 5; 1; 4; 2] fact = Ok b /\
    Permutation [3; 5; 1; 4; 2] b /\ non_decreasing b /\
    ((exists k : Z, fact = PyInt k) ->
     quick_sort 6 [3; 5; 1; 4; 2] (num_to_Q fact) = Ok b) /\
    ((forall x y : Z, py_le x y = true -> py_le y x = true -> x = y) ->
     quick_sort 6 [3; 5; 1; 4; 2] (num_to_Q fact) = Ok b).
Proof.
  apply (@quick_sort64_correct Z PyOrd_Z PyOrdLaws_Z 6%nat [3; 5; 1; 4; 2]
           (PyFloat (3152519739159347 # 4503599627370496))).
  - vm_compute. discriminate.
  - vm_compute. discriminate.
  - vm_compute. discriminate.
  - simpl. lia.
Defined.
